(** * The live viewer of the werewolf game: scene parser, scene synchronizer,
      typing indicator, polling loop, start-up and sidebar of
      [viewer/app.js].

    JavaScript strings are modelled as sequences of UTF-16 code units, the
    [Set] of loaded scenes as a [gset], the objects used as dictionaries
    ([sceneDivs], [charDescriptions], [ROLE_ICON]) as [gmap]s or tables of
    their own properties together with what they inherit from
    [Object.prototype], and the promise chains of [init], [poll], [update]
    and [loadScenes] as state transformers over one cycle's server
    replies.

    What the model takes for granted: a reply that arrives has the shape of
    its endpoint (strings where names are expected, a list of names for the
    scene list); names are well-formed UTF-16, so that [encodeURIComponent]
    returns; when the script starts, [Object.prototype] holds the methods
    of the language and nothing else; the numbers of the state are
    integers; the page has no element with the id of the typing indicator
    outside [$scenes]; one cycle runs at a time, and the scroll listener
    runs between two cycles. *)

From Stdlib Require Import NArith ZArith Ascii String DecimalString.
From stdpp Require Import gmap list strings.

Open Scope N_scope.

(* ================================================================== *)
(** * Part I: definitions                                               *)
(* ================================================================== *)

(** ** Strings *)

(** A JavaScript string: its UTF-16 code units. *)
Abbreviation jsstring := (list N).

(** An ASCII literal as code units. *)
Definition lit (s : string) : jsstring :=
  map N_of_ascii (list_ascii_of_string s).

(** A markup literal of the source; the apostrophe stands for the double
    quote character that the source writes inside its single-quoted
    strings. *)
Definition markup (s : string) : jsstring :=
  map (fun c => if c =? 39 then 34 else c) (lit s).

(** The markers of the narrative format. *)
Definition OPEN_QUOTE : N := 0x300c.   (* 「 *)
Definition CLOSE_QUOTE : N := 0x300d.  (* 」 *)
Definition HBAR : N := 0x2015.         (* ― *)
Definition LPAREN : N := 0xff08.       (* （ *)
Definition RPAREN : N := 0xff09.       (* ） *)
Definition LF : N := 10.
Definition CR : N := 13.

(** ECMAScript [WhiteSpace] code points (all in the basic plane). *)
Definition isWhiteSpace (c : N) : bool :=
  (c =? 9) || (c =? 11) || (c =? 12) || (c =? 32) || (c =? 0xa0)
  || (c =? 0x1680) || ((0x2000 <=? c) && (c <=? 0x200a))
  || (c =? 0x202f) || (c =? 0x205f) || (c =? 0x3000) || (c =? 0xfeff).

(** ECMAScript [LineTerminator] code points: what [.] refuses to match. *)
Definition isLineTerminator (c : N) : bool :=
  (c =? 10) || (c =? 13) || (c =? 0x2028) || (c =? 0x2029).

(** The class [\s], also the characters removed by [trim]. *)
Definition isSpace (c : N) : bool := isWhiteSpace c || isLineTerminator c.

(** [text.split(sep)] for a one-unit separator. *)
Fixpoint js_split (sep : N) (text : jsstring) : list jsstring :=
  match text with
  | [] => [[]]
  | c :: rest =>
      if c =? sep then [] :: js_split sep rest
      else match js_split sep rest with
           | l :: ls => (c :: l) :: ls
           | [] => [[c]]
           end
  end.

(** [pieces.join(sep)], used to state what [js_split] computes. *)
Fixpoint js_join (sep : N) (pieces : list jsstring) : jsstring :=
  match pieces with
  | [] => []
  | [p] => p
  | p :: ps => p ++ sep :: js_join sep ps
  end.

Fixpoint trimStart (s : jsstring) : jsstring :=
  match s with
  | c :: rest => if isSpace c then trimStart rest else s
  | [] => []
  end.

Definition trimEnd (s : jsstring) : jsstring := rev (trimStart (rev s)).

Definition trim (s : jsstring) : jsstring := trimEnd (trimStart s).

(** [s === ""] *)
Definition isEmpty (s : jsstring) : bool :=
  match s with [] => true | _ => false end.

(** Equality of strings, [===]. *)
Fixpoint str_eqb (s t : jsstring) : bool :=
  match s, t with
  | [], [] => true
  | c :: s', d :: t' => (c =? d) && str_eqb s' t'
  | _, _ => false
  end.

Fixpoint startsWith (s prefix : jsstring) {struct prefix} : bool :=
  match prefix, s with
  | [], _ => true
  | p :: prefix', c :: s' => (c =? p) && startsWith s' prefix'
  | _ :: _, [] => false
  end.

Definition endsWith (s suffix : jsstring) : bool :=
  startsWith (rev s) (rev suffix).

(** [s.slice(0, -1)] *)
Definition slice_0_m1 (s : jsstring) : jsstring :=
  take (length s - 1)%nat s.

(** Truthiness of a string value. *)
Definition truthy (s : jsstring) : bool := negb (isEmpty s).

(** Decimal rendering of a non-negative integer. *)
Definition decimal (z : Z) : jsstring :=
  lit (NilZero.string_of_uint (N.to_uint (Z.to_N z))).

(** ** Scene parsing *)

Inductive Block : Type :=
  | Speech (name text : jsstring)
  | Separator (text : jsstring)
  | Narration (text : jsstring).

(** [(.+)$]: at least one unit, none of them a line terminator, up to the
    end of the input. *)
Definition dotPlusToEnd (s : jsstring) : bool :=
  negb (isEmpty s) && forallb (fun c => negb (isLineTerminator c)) s.

(** The backtracking search of [/^(\S+?)「(.+)$/] once the lazy group holds
    the units of [name_rev] (in reverse): try to close the group here, and
    otherwise let it take one more non-space unit. *)
Fixpoint speechMatch_from (name_rev rest : jsstring)
  : option (jsstring * jsstring) :=
  match rest with
  | [] => None
  | c :: rest' =>
      if (c =? OPEN_QUOTE) && dotPlusToEnd rest'
      then Some (rev name_rev, rest')
      else if isSpace c then None
      else speechMatch_from (c :: name_rev) rest'
  end.

(** [line.match(/^(\S+?)「(.+)$/)]: the two groups, or [None] for [null]. *)
Definition speechMatch (line : jsstring) : option (jsstring * jsstring) :=
  match line with
  | [] => None
  | c :: rest => if isSpace c then None else speechMatch_from [c] rest
  end.

(** The closing marker of a speech is dropped when the text ends with it. *)
Definition stripClose (content : jsstring) : jsstring :=
  if endsWith content [CLOSE_QUOTE] then slice_0_m1 content else content.

(** The classification of a line that is not blank: speech, separator or
    narration, the first rule that applies. *)
Definition classifyLine (line : jsstring) : Block :=
  match speechMatch line with
  | Some (name, content) => Speech name (stripClose content)
  | None =>
      if startsWith line [HBAR; HBAR] then Separator line
      else Narration line
  end.

(** The body of the loop of [parseScene] for one line: [None] is
    [continue] on a blank line, [Some b] the block that is pushed. *)
Definition parseLine (line : jsstring) : option Block :=
  if isEmpty (trim line) then None else Some (classifyLine line).

Fixpoint parseScene_loop (lines : list jsstring) (blocks : list Block)
  : list Block :=
  match lines with
  | [] => blocks
  | line :: lines' =>
      match parseLine line with
      | None => parseScene_loop lines' blocks
      | Some b => parseScene_loop lines' (blocks ++ [b])
      end
  end.

Definition parseScene (text : jsstring) : list Block :=
  parseScene_loop (js_split LF text) [].

(** ** Rendering of blocks *)

(** What the script takes from the browser: [encodeURIComponent]; the
    serialisation of a text node, which is what [esc] reads back from the
    element it builds; the text of a method of [Object.prototype] after the
    keyword [function], which depends on the engine; and the text of a
    number that is an integer beyond 2^53, where a double does not hold
    every integer. *)
Class Browser := {
  encodeURIComponent : jsstring -> jsstring;
  textNodeInnerHTML : jsstring -> jsstring;
  nativeFunctionText : jsstring -> jsstring;
  doubleText : Z -> jsstring
}.

(** [x | 0] *)
Definition toInt32 (z : Z) : Z :=
  let m := (z mod 2 ^ 32)%Z in
  if (m <? 2 ^ 31)%Z then m else (m - 2 ^ 32)%Z.

(** [x << k] *)
Definition shl32 (z k : Z) : Z := toInt32 (Z.shiftl (toInt32 z) k).

(** The loop of [nameToColor]. Only the shift wraps to 32 bits: the sum is
    a JavaScript number, an exact integer for any name shorter than some
    four million units. *)
Definition nameToColor_hash (name : jsstring) : Z :=
  fold_left (fun hash c => (Z.of_N c + (shl32 hash 5 - hash))%Z) name 0%Z.

Definition nameToColor_hue (name : jsstring) : Z :=
  Z.rem (Z.rem (nameToColor_hash name) 360 + 360) 360.

Definition nameToColor (name : jsstring) : jsstring :=
  lit "hsl(" ++ decimal (nameToColor_hue name) ++ lit ", 45%, 65%)".

(** [/（[^）]*）$/] tried at one position: [s] starts with the opening
    parenthesis, and the first closing one after it ends the string. *)
Fixpoint annotationBody (s : jsstring) : bool :=
  match s with
  | [] => false
  | c :: rest => if c =? RPAREN then isEmpty rest else annotationBody rest
  end.

Definition annotationAt (s : jsstring) : bool :=
  match s with
  | c :: rest => (c =? LPAREN) && annotationBody rest
  | [] => false
  end.

(** [name.replace(/（[^）]*）$/, "")]: the leftmost position where the
    pattern matches is cut off, together with everything after it. *)
Fixpoint stripAnnotation (name : jsstring) : jsstring :=
  match name with
  | [] => []
  | c :: rest => if annotationAt name then [] else c :: stripAnnotation rest
  end.

Section Rendering.
Context `{Browser}.

Definition esc (str : jsstring) : jsstring := textNodeInnerHTML str.

Definition avatarHtml (name : jsstring) : jsstring :=
  let imgUrl := lit "/chara_image/" ++ encodeURIComponent name ++ lit ".png" in
  markup "<div class='speech-avatar'><img src='" ++ esc imgUrl
    ++ markup "' alt='' loading='lazy'></div>".

(** [charDescriptions[n] ? ' title="' + esc(charDescriptions[n]) + '"' : ""],
    over the dictionary as the lookup reads it: the properties of the
    object itself and, under other keys, the inherited ones with the string
    that [esc] writes for them (see [visibleDescriptions]). *)
Definition titleAttr (charDescriptions : gmap jsstring jsstring)
    (n : jsstring) : jsstring :=
  match charDescriptions !! n with
  | Some d => if truthy d then markup " title='" ++ esc d ++ markup "'" else []
  | None => []
  end.

(** The markup of one speech line, as the source concatenates it, with
    the four places where a name is used kept apart: the key of the
    description, the key of the portrait, the key of the colour and the
    name that is shown. *)
Definition lineSpeechHtml (charDescriptions : gmap jsstring jsstring)
    (descKey avatarKey colorKey shown text : jsstring) : jsstring :=
  markup "<div class='line-speech'>"
    ++ markup "<div class='speech-avatar-col'"
    ++ titleAttr charDescriptions descKey ++ markup ">"
    ++ avatarHtml avatarKey
    ++ markup "<div class='speech-name' style='color:"
    ++ nameToColor colorKey ++ markup "'>" ++ esc shown ++ markup "</div>"
    ++ markup "</div>"
    ++ markup "<div class='speech-bubble'>" ++ esc text ++ markup "</div>"
    ++ markup "</div>".

Definition renderBlock (charDescriptions : gmap jsstring jsstring)
    (b : Block) : jsstring :=
  match b with
  | Speech name text =>
      let baseName := stripAnnotation name in
      lineSpeechHtml charDescriptions baseName baseName baseName baseName text
  | Separator text =>
      markup "<div class='line-separator'>" ++ esc text ++ markup "</div>"
  | Narration text =>
      markup "<div class='line-narration'>" ++ esc text ++ markup "</div>"
  end.

Definition renderSceneBlocks (charDescriptions : gmap jsstring jsstring)
    (blocks : list Block) : jsstring :=
  fold_left (fun html b => html ++ renderBlock charDescriptions b) blocks [].

End Rendering.

(** ** The viewer: its variables and the part of the document it writes *)

(** An element created by the viewer. Its handle is its index in
    [elements]; [sceneDivs] and the children of [$scenes] hold handles, so
    that a write through [sceneDivs[name]] is seen in the document. *)
Record element := {
  el_id : jsstring;
  className : jsstring;
  dataset_scene : option jsstring;
  innerHTML : jsstring
}.

(** [/api/state] *)
Record PlayerInfo := {
  player_name : jsstring;
  player_role : jsstring;
  player_role_jp : jsstring;
  player_alive : bool
}.

Record AliveEntry := { alive_name : jsstring; alive_role : option jsstring }.

Record DeathEntry := {
  death_name : jsstring;
  death_day : Z;
  death_cause : jsstring;
  death_alignment : option jsstring;
  death_role : option jsstring
}.

Record GameState := {
  day : Z;
  phase_jp : jsstring;
  player : option PlayerInfo;
  alive : list AliveEntry;
  deaths : list DeathEntry;
  private_info : list jsstring;
  game_over : bool
}.

(** [/api/scene/{name}] *)
Record SceneData := { scene_name : jsstring; scene_content : jsstring }.

(** [/api/typing], when the payload is an object. *)
Record TypingStatus := { npc : option jsstring; scene : option jsstring }.

(** What the program does to the outside, in order. *)
Inductive event : Type :=
  | Fetch (url : jsstring)
  | RemoveDisconnected
  | AddDisconnected
  | RenderSidebar (state : GameState)
  | ScrollToBottom
  | ConsoleError
  | SetTimeout (delay : N).

Record viewer := {
  lastHash : option jsstring;
  loadedScenes : gset jsstring;
  sceneDivs : gmap jsstring nat;
  charDescriptions : gmap jsstring jsstring;
  userScrolledUp : bool;
  isTyping : bool;
  (** the class "disconnected" of [$liveIndicator] *)
  disconnected : bool;
  (** the state that the sidebar shows; its markup is a function of that
      state and of what the lookups in [charDescriptions] and [ROLE_ICON]
      find when [renderSidebar] runs (see [renderSidebarDoc]) *)
  sidebar : option GameState;
  elements : list element;
  (** the children of [$scenes], first to last *)
  scenes : list nat;
  trace : list event;
  (** [Object.prototype.innerHTML], once the script has written it *)
  protoInnerHTML : option jsstring
}.

Definition set_lastHash (h : option jsstring) (v : viewer) : viewer :=
  {| lastHash := h; loadedScenes := loadedScenes v; sceneDivs := sceneDivs v;
     charDescriptions := charDescriptions v; userScrolledUp := userScrolledUp v;
     isTyping := isTyping v; disconnected := disconnected v;
     sidebar := sidebar v; elements := elements v; scenes := scenes v;
     trace := trace v;
     protoInnerHTML := protoInnerHTML v |}.

Definition set_loadedScenes (s : gset jsstring) (v : viewer) : viewer :=
  {| lastHash := lastHash v; loadedScenes := s; sceneDivs := sceneDivs v;
     charDescriptions := charDescriptions v; userScrolledUp := userScrolledUp v;
     isTyping := isTyping v; disconnected := disconnected v;
     sidebar := sidebar v; elements := elements v; scenes := scenes v;
     trace := trace v;
     protoInnerHTML := protoInnerHTML v |}.

Definition set_sceneDivs (m : gmap jsstring nat) (v : viewer) : viewer :=
  {| lastHash := lastHash v; loadedScenes := loadedScenes v; sceneDivs := m;
     charDescriptions := charDescriptions v; userScrolledUp := userScrolledUp v;
     isTyping := isTyping v; disconnected := disconnected v;
     sidebar := sidebar v; elements := elements v; scenes := scenes v;
     trace := trace v;
     protoInnerHTML := protoInnerHTML v |}.

Definition set_charDescriptions (m : gmap jsstring jsstring) (v : viewer)
  : viewer :=
  {| lastHash := lastHash v; loadedScenes := loadedScenes v;
     sceneDivs := sceneDivs v; charDescriptions := m;
     userScrolledUp := userScrolledUp v; isTyping := isTyping v;
     disconnected := disconnected v; sidebar := sidebar v;
     elements := elements v; scenes := scenes v; trace := trace v;
     protoInnerHTML := protoInnerHTML v |}.

Definition set_userScrolledUp (b : bool) (v : viewer) : viewer :=
  {| lastHash := lastHash v; loadedScenes := loadedScenes v;
     sceneDivs := sceneDivs v; charDescriptions := charDescriptions v;
     userScrolledUp := b; isTyping := isTyping v;
     disconnected := disconnected v; sidebar := sidebar v;
     elements := elements v; scenes := scenes v; trace := trace v;
     protoInnerHTML := protoInnerHTML v |}.

Definition set_isTyping (b : bool) (v : viewer) : viewer :=
  {| lastHash := lastHash v; loadedScenes := loadedScenes v;
     sceneDivs := sceneDivs v; charDescriptions := charDescriptions v;
     userScrolledUp := userScrolledUp v; isTyping := b;
     disconnected := disconnected v; sidebar := sidebar v;
     elements := elements v; scenes := scenes v; trace := trace v;
     protoInnerHTML := protoInnerHTML v |}.

Definition set_disconnected (b : bool) (v : viewer) : viewer :=
  {| lastHash := lastHash v; loadedScenes := loadedScenes v;
     sceneDivs := sceneDivs v; charDescriptions := charDescriptions v;
     userScrolledUp := userScrolledUp v; isTyping := isTyping v;
     disconnected := b; sidebar := sidebar v;
     elements := elements v; scenes := scenes v; trace := trace v;
     protoInnerHTML := protoInnerHTML v |}.

Definition set_sidebar (s : option GameState) (v : viewer) : viewer :=
  {| lastHash := lastHash v; loadedScenes := loadedScenes v;
     sceneDivs := sceneDivs v; charDescriptions := charDescriptions v;
     userScrolledUp := userScrolledUp v; isTyping := isTyping v;
     disconnected := disconnected v; sidebar := s;
     elements := elements v; scenes := scenes v; trace := trace v;
     protoInnerHTML := protoInnerHTML v |}.

Definition set_elements (l : list element) (v : viewer) : viewer :=
  {| lastHash := lastHash v; loadedScenes := loadedScenes v;
     sceneDivs := sceneDivs v; charDescriptions := charDescriptions v;
     userScrolledUp := userScrolledUp v; isTyping := isTyping v;
     disconnected := disconnected v; sidebar := sidebar v;
     elements := l; scenes := scenes v; trace := trace v;
     protoInnerHTML := protoInnerHTML v |}.

Definition set_scenes (l : list nat) (v : viewer) : viewer :=
  {| lastHash := lastHash v; loadedScenes := loadedScenes v;
     sceneDivs := sceneDivs v; charDescriptions := charDescriptions v;
     userScrolledUp := userScrolledUp v; isTyping := isTyping v;
     disconnected := disconnected v; sidebar := sidebar v;
     elements := elements v; scenes := l; trace := trace v;
     protoInnerHTML := protoInnerHTML v |}.

Definition set_protoInnerHTML (s : option jsstring) (v : viewer) : viewer :=
  {| lastHash := lastHash v; loadedScenes := loadedScenes v;
     sceneDivs := sceneDivs v; charDescriptions := charDescriptions v;
     userScrolledUp := userScrolledUp v; isTyping := isTyping v;
     disconnected := disconnected v; sidebar := sidebar v;
     elements := elements v; scenes := scenes v; trace := trace v;
     protoInnerHTML := s |}.

(** Append to the record of what the program did. *)
Definition emit (es : list event) (v : viewer) : viewer :=
  {| lastHash := lastHash v; loadedScenes := loadedScenes v;
     sceneDivs := sceneDivs v; charDescriptions := charDescriptions v;
     userScrolledUp := userScrolledUp v; isTyping := isTyping v;
     disconnected := disconnected v; sidebar := sidebar v;
     elements := elements v; scenes := scenes v; trace := trace v ++ es;
     protoInnerHTML := protoInnerHTML v |}.

(** The replies of the server to the requests of one cycle; [None] is a
    request that failed (network error, status that is not a success, body
    that is not JSON). *)
Record server := {
  api_hash : option jsstring;
  api_state : option GameState;
  api_scenes : option (list jsstring);
  (** [Some None] is the payload [null] *)
  api_typing : option (option TypingStatus);
  (** by URL *)
  api_scene : jsstring -> option SceneData
}.

Definition POLL_INTERVAL_NORMAL : N := 3000.
Definition POLL_INTERVAL_TYPING : N := 1000.

(** The viewer when the script starts; whether the page shows the live
    indicator as disconnected at that point is left open. *)
Definition initial_viewer (disc : bool) : viewer :=
  {| lastHash := None; loadedScenes := ∅; sceneDivs := ∅;
     charDescriptions := ∅; userScrolledUp := false; isTyping := false;
     disconnected := disc; sidebar := None; elements := []; scenes := [];
     trace := []; protoInnerHTML := None |}.

Definition scrollToBottom (v : viewer) : viewer :=
  if userScrolledUp v then v else emit [ScrollToBottom] v.

Definition renderSidebar (state : GameState) (v : viewer) : viewer :=
  emit [RenderSidebar state] (set_sidebar (Some state) v).

(** [document.createElement("div")]: the new element and its handle. *)
Definition createElement (v : viewer) : nat * viewer :=
  (length (elements v),
   set_elements (elements v ++ [{| el_id := []; className := [];
                                   dataset_scene := None; innerHTML := [] |}]) v).

Definition set_el_id (s : jsstring) (e : element) : element :=
  {| el_id := s; className := className e; dataset_scene := dataset_scene e;
     innerHTML := innerHTML e |}.

Definition set_className (s : jsstring) (e : element) : element :=
  {| el_id := el_id e; className := s; dataset_scene := dataset_scene e;
     innerHTML := innerHTML e |}.

Definition set_dataset_scene (s : jsstring) (e : element) : element :=
  {| el_id := el_id e; className := className e; dataset_scene := Some s;
     innerHTML := innerHTML e |}.

Definition set_innerHTML (s : jsstring) (e : element) : element :=
  {| el_id := el_id e; className := className e;
     dataset_scene := dataset_scene e; innerHTML := s |}.

(** A write to a property of the element behind a handle. *)
Definition update_element (f : element -> element) (h : nat) (v : viewer)
  : viewer :=
  set_elements (alter f h (elements v)) v.

(** [$scenes.appendChild(h)]: a child that is already there is moved. *)
Definition appendChild (h : nat) (v : viewer) : viewer :=
  set_scenes (filter (λ c, c ≠ h) (scenes v) ++ [h]) v.

(** [h.remove()] *)
Definition removeChild (h : nat) (v : viewer) : viewer :=
  set_scenes (filter (λ c, c ≠ h) (scenes v)) v.

(** [document.getElementById(id)], over the children of [$scenes]. *)
Definition getElementById (id : jsstring) (v : viewer) : option nat :=
  List.find (fun h => match elements v !! h with
                      | Some e => str_eqb (el_id e) id
                      | None => false
                      end) (scenes v).

(** ** Scene loading, typing indicator and polling *)

(** The fetch list of [loadScenes]: the scenes of the list that are not
    loaded, then the active scene when it is loaded and not yet listed. *)
Definition toFetch (loaded : gset jsstring) (sceneList : list jsstring)
    (activeScene : option jsstring) : list jsstring :=
  let newScenes := filter (λ name, name ∉ loaded) sceneList in
  let toRefresh :=
    match activeScene with
    | Some a => if truthy a && bool_decide (a ∈ loaded) then [a] else []
    | None => []
    end in
  fold_left (fun toFetch n =>
               if bool_decide (n ∈ toFetch) then toFetch else toFetch ++ [n])
            toRefresh newScenes.

(** [typingData && typingData.npc], when that value is truthy. *)
Definition typingNpc (typingData : option TypingStatus) : option jsstring :=
  match typingData with
  | Some t => match npc t with
              | Some n => if truthy n then Some n else None
              | None => None
              end
  | None => None
  end.

(** ** Plain objects read as dictionaries *)

(** [sceneDivs], [charDescriptions] and [ROLE_ICON] are plain objects that
    the script reads with [obj[key]]: a key that is not a property of the
    object itself is looked up in [Object.prototype].  These are the
    methods that every object inherits from there. *)
Definition OBJECT_PROTOTYPE_METHODS : list jsstring :=
  [lit "constructor"; lit "hasOwnProperty"; lit "isPrototypeOf";
   lit "propertyIsEnumerable"; lit "toLocaleString"; lit "toString";
   lit "valueOf"; lit "__defineGetter__"; lit "__defineSetter__";
   lit "__lookupGetter__"; lit "__lookupSetter__"].

(** What a plain object inherits under a key: a method, [Object.prototype]
    itself under [__proto__], or the string that the script has stored in
    [Object.prototype.innerHTML]. *)
Inductive inheritedValue : Type :=
  | PrototypeMethod
  | ThePrototype
  | PrototypeString (s : jsstring).

Definition inheritedProperty (proto : option jsstring) (key : jsstring)
  : option inheritedValue :=
  if str_eqb key (lit "__proto__") then Some ThePrototype
  else if existsb (str_eqb key) OBJECT_PROTOTYPE_METHODS
  then Some PrototypeMethod
  else if str_eqb key (lit "innerHTML") then PrototypeString <$> proto
  else None.

(** How a promise settles. *)
Inductive settled : Type := Fulfilled | Rejected.

Section Viewer.
Context `{Browser}.

Definition sceneUrl (name : jsstring) : jsstring :=
  lit "/api/scene/" ++ encodeURIComponent name.

(** The string that [esc] writes for an inherited value. *)
Definition inheritedText (key : jsstring) (x : inheritedValue) : jsstring :=
  match x with
  | PrototypeMethod => lit "function" ++ nativeFunctionText key
  | ThePrototype => lit "[object Object]"
  | PrototypeString s => s
  end.

(** What a lookup finds in a dictionary of strings that has no property of
    its own under the key. *)
Definition inheritedDescriptions (proto : option jsstring)
  : gmap jsstring jsstring :=
  list_to_map
    (omap (fun key =>
             (fun x => (key, inheritedText key x))
               <$> inheritedProperty proto key)
          (lit "__proto__" :: lit "innerHTML" :: OBJECT_PROTOTYPE_METHODS)).

(** [charDescriptions] as [charDescriptions[name]] reads it: its own
    properties first, then the inherited ones. *)
Definition visibleDescriptions (v : viewer) : gmap jsstring jsstring :=
  charDescriptions v ∪ inheritedDescriptions (protoInnerHTML v).

(** [document.createElement("div")] and the five statements that make it
    the block of a scene. *)
Definition createSceneDiv (name html : jsstring) (v : viewer) : viewer :=
  let '(div, v) := createElement v in
  let v := update_element (set_className (lit "scene-block")) div v in
  let v := update_element (set_dataset_scene name) div v in
  let v := update_element (set_innerHTML html) div v in
  let v := appendChild div v in
  set_sceneDivs (<[name := div]> (sceneDivs v)) v.

(** The body of [results.forEach] in [loadScenes]; [None] is the
    [TypeError] of a write to a property of a string, which strict mode
    raises.  The test [sceneDivs[scene.name]] also finds what the object
    inherits: a method or the prototype is taken for a block and receives
    the markup, which no one reads there, except that the markup written
    to the prototype is inherited as [innerHTML] by every object from
    then on. *)
Definition applyScene (v : viewer) (scene : SceneData) : option viewer :=
  let blocks := parseScene (scene_content scene) in
  let html := renderSceneBlocks (visibleDescriptions v) blocks in
  let written :=
    match sceneDivs v !! scene_name scene with
    | Some div => Some (update_element (set_innerHTML html) div v)
    | None =>
        match inheritedProperty (protoInnerHTML v) (scene_name scene) with
        | Some PrototypeMethod => Some v
        | Some ThePrototype => Some (set_protoInnerHTML (Some html) v)
        | Some (PrototypeString s) =>
            if truthy s then None
            else Some (createSceneDiv (scene_name scene) html v)
        | None => Some (createSceneDiv (scene_name scene) html v)
        end
    end in
  match written with
  | Some v => Some (set_loadedScenes ({[scene_name scene]} ∪ loadedScenes v) v)
  | None => None
  end.

(** [results.forEach]: the scenes are applied in order, up to the first
    one that throws. *)
Fixpoint applyScenes (results : list SceneData) (v : viewer)
  : settled * viewer :=
  match results with
  | [] => (Fulfilled, v)
  | scene :: rest =>
      match applyScene v scene with
      | Some v' => applyScenes rest v'
      | None => (Rejected, v)
      end
  end.

(** [loadScenes]; the promise it returns is always fulfilled, since its
    chain ends in a [catch] that only logs. *)
Definition loadScenes (srv : server) (sceneList : list jsstring)
    (activeScene : option jsstring) (v : viewer) : viewer :=
  let toFetch := toFetch (loadedScenes v) sceneList activeScene in
  if bool_decide (length toFetch = 0%nat) then v
  else
    let v := emit (map (fun name => Fetch (sceneUrl name)) toFetch) v in
    match mapM (fun name => api_scene srv (sceneUrl name)) toFetch with
    | Some results =>
        match applyScenes results v with
        | (Fulfilled, v) => scrollToBottom v
        | (Rejected, v) => emit [ConsoleError] v
        end
    | None => emit [ConsoleError] v
    end.

Definition typingIndicatorHtml (baseName : jsstring) : jsstring :=
  let color := nameToColor baseName in
  let imgUrl :=
    lit "/chara_image/" ++ encodeURIComponent baseName ++ lit ".png" in
  markup "<div class='speech-avatar-col'>"
    ++ markup "<div class='speech-avatar'><img src='" ++ esc imgUrl
    ++ markup "' alt='' loading='lazy'></div>"
    ++ markup "<div class='speech-name' style='color:" ++ color
    ++ markup "'>" ++ esc baseName ++ markup "</div>"
    ++ markup "</div>"
    ++ markup "<div class='typing-dots'><span></span><span></span><span></span></div>".

Definition renderTypingIndicator (typingData : option TypingStatus)
    (v : viewer) : viewer :=
  let existing := getElementById (lit "typing-indicator") v in
  match typingNpc typingData with
  | None =>
      match existing with
      | Some e => removeChild e v
      | None => v
      end
  | Some npc =>
      let '(e, v) :=
        match existing with
        | Some e => (e, v)
        | None =>
            let '(e, v) := createElement v in
            (e, update_element (set_el_id (lit "typing-indicator")) e v)
        end in
      let v := appendChild e v in
      let v := update_element (set_className (lit "typing-indicator")) e v in
      let baseName := stripAnnotation npc in
      let v := update_element (set_innerHTML (typingIndicatorHtml baseName)) e v in
      scrollToBottom v
  end.

(** [update]: the three requests leave together; the promise is rejected
    when the state or the scene list fails, and the callback runs
    otherwise, with [null] for a typing request that failed. *)
Definition update (srv : server) (v : viewer) : settled * viewer :=
  let v := emit [Fetch (lit "/api/state"); Fetch (lit "/api/scenes");
                 Fetch (lit "/api/typing")] v in
  match api_state srv, api_scenes srv with
  | Some state, Some sceneList =>
      let typingData :=
        match api_typing srv with Some t => t | None => None end in
      let typing := bool_decide (is_Some (typingNpc typingData)) in
      let v := set_isTyping typing v in
      let activeScene :=
        if typing then typingData ≫= scene else None in
      let v := renderSidebar state v in
      let v := loadScenes srv sceneList activeScene v in
      (Fulfilled, renderTypingIndicator typingData v)
  | _, _ => (Rejected, v)
  end.

(** One turn of [poll]: [then], [catch], [finally]. *)
Definition poll (srv : server) (v : viewer) : viewer :=
  let v := emit [Fetch (lit "/api/hash")] v in
  let '(outcome, v) :=
    match api_hash srv with
    | Some hash =>
        let v := emit [RemoveDisconnected] (set_disconnected false v) in
        if bool_decide (Some hash ≠ lastHash v)
        then update srv (set_lastHash (Some hash) v)
        else (Fulfilled, v)
    | None => (Rejected, v)
    end in
  let v :=
    match outcome with
    | Rejected => emit [AddDisconnected] (set_disconnected true v)
    | Fulfilled => v
    end in
  emit [SetTimeout (if isTyping v then POLL_INTERVAL_TYPING
                    else POLL_INTERVAL_NORMAL)] v.

(** The callback that [update] attaches to its three requests, with the
    state of the promise that [update] returns. *)
Definition updateSettle (srv : server) (v : viewer)
  : settled * viewer :=
  match api_state srv, api_scenes srv with
  | Some state, Some sceneList =>
      let typingData :=
        match api_typing srv with Some t => t | None => None end in
      let typing := bool_decide (is_Some (typingNpc typingData)) in
      let v := set_isTyping typing v in
      let activeScene :=
        if typing then typingData ≫= scene else None in
      let v := renderSidebar state v in
      let v := loadScenes srv sceneList activeScene v in
      (Fulfilled, renderTypingIndicator typingData v)
  | _, _ => (Rejected, v)
  end.

(** [init]: the descriptions are stored when they arrive and a failure of
    that request is ignored; then [update] sends its requests and the first
    [poll] is scheduled, both at once; the callback of [update] runs when
    the replies are in, and a rejection of [update] is dropped.  The replies
    are taken to arrive before the timer fires. *)
Definition init (characters : option (gmap jsstring jsstring))
    (srv : server) (v : viewer) : viewer :=
  let v := emit [Fetch (lit "/api/characters")] v in
  let v :=
    match characters with
    | Some data => set_charDescriptions data v
    | None => v
    end in
  let v := emit [Fetch (lit "/api/state"); Fetch (lit "/api/scenes");
                 Fetch (lit "/api/typing")] v in
  let v := emit [SetTimeout POLL_INTERVAL_NORMAL] v in
  snd (updateSettle srv v).

End Viewer.

(** ** Properties used to state the theorems *)

(** A line made of white space only (the empty line included). *)
Definition blankLine (line : jsstring) : Prop :=
  Forall (λ c, isSpace c = true) line.

#[global] Instance blankLine_dec line : Decision (blankLine line).
Proof. unfold blankLine. apply _. Defined.

(** The shape that [/^(\S+?)「(.+)$/] accepts, with the split that the lazy
    group chooses: a non-empty run without space, with no opening marker
    after its first unit, then the marker, then a non-empty remainder
    without line terminator. *)
Definition speechShape (line name content : jsstring) : Prop :=
  line = name ++ (OPEN_QUOTE :: content)
  ∧ name ≠ []
  ∧ Forall (λ c, isSpace c = false) name
  ∧ (OPEN_QUOTE ∉ tail name)
  ∧ content ≠ []
  ∧ Forall (λ c, isLineTerminator c = false) content.

(** The speech rule without a restriction on the remainder: a run without
    space, the opening marker and any non-empty remainder give a speech of
    that run. *)
Definition speechOfAnyRemainder (run rest : jsstring) : Prop :=
  run ≠ [] → Forall (λ c, isSpace c = false) run → rest ≠ [] →
  ∃ text, parseLine (run ++ (OPEN_QUOTE :: rest)) = Some (Speech run text).

(** A run without space followed by the opening marker alone gives a
    narration of the whole line. *)
Definition narrationOfEmptyRemainder (run : jsstring) : Prop :=
  Forall (λ c, isSpace c = false) run →
  parseLine (run ++ [OPEN_QUOTE]) = Some (Narration (run ++ [OPEN_QUOTE])).

(** Every opening parenthesis of [base] is closed later in [base]: the
    annotation pattern cannot start inside it. *)
Definition closedParens (base : jsstring) : Prop :=
  ∀ p q, base = p ++ (LPAREN :: q) → RPAREN ∈ q.


(** The markup of a speech whose speaker carries an annotation, if the
    annotated name were the one shown and the base name only a key. *)
Definition showsAnnotatedName `{Browser}
    (charDescriptions : gmap jsstring jsstring) (base ann text : jsstring)
  : Prop :=
  let name := base ++ (LPAREN :: ann) ++ [RPAREN] in
  renderBlock charDescriptions (Speech name text)
  = lineSpeechHtml charDescriptions base base base name text.

(** The URLs requested along a trace. *)
Definition fetches (es : list event) : list jsstring :=
  omap (fun e => match e with Fetch url => Some url | _ => None end) es.

(** The fetch list as a duplicate-free list of exactly the scenes that are
    not loaded and of the active scene when it is loaded, whatever the
    scene list and the active name are. *)
Definition fetchSetAsListed (loaded : gset jsstring)
    (sceneList : list jsstring) (activeScene : option jsstring) : Prop :=
  let fetched := toFetch loaded sceneList activeScene in
  (∀ n, n ∈ fetched ↔
        (n ∈ sceneList ∧ n ∉ loaded) ∨ (activeScene = Some n ∧ n ∈ loaded))
  ∧ NoDup fetched.

(** The value of [results[2]] in [update]: the payload of the typing
    request, [null] when the payload is [null] or the request failed. *)
Definition typingPayload (srv : server) : option TypingStatus :=
  match api_typing srv with Some t => t | None => None end.

(** The delay chosen by [finally] in [poll]. *)
Definition pollInterval (v : viewer) : N :=
  if isTyping v then POLL_INTERVAL_TYPING else POLL_INTERVAL_NORMAL.

(** The viewer once the fingerprint has arrived and the class
    "disconnected" has been removed. *)
Definition afterHash (v : viewer) : viewer :=
  emit [RemoveDisconnected]
    (set_disconnected false (emit [Fetch (lit "/api/hash")] v)).

(** The [catch] of [poll]. *)
Definition markDisconnected (v : viewer) : viewer :=
  emit [AddDisconnected] (set_disconnected true v).

(** The [finally] of [poll]. *)
Definition schedule (v : viewer) : viewer :=
  emit [SetTimeout (pollInterval v)] v.

(** The three requests that [update] sends. *)
Definition refreshRequests : list event :=
  [Fetch (lit "/api/state"); Fetch (lit "/api/scenes");
   Fetch (lit "/api/typing")].

(** Only a fingerprint request that fails leaves the indicator on. *)
Definition onlyFingerprintDisconnects `{Browser} (srv : server) (v : viewer)
  : Prop :=
  is_Some (api_hash srv) → disconnected (poll srv v) = false.

(** Whatever else happens in the cycle, an idle typing status clears the
    flag and the indicator. *)
Definition typingFailureIsIdle `{Browser} (srv : server) (v : viewer)
  : Prop :=
  typingNpc (typingPayload srv) = None →
  isTyping (snd (update srv v)) = false
  ∧ getElementById (lit "typing-indicator") (snd (update srv v)) = None.

(** The child of [$scenes] behind handle [h] is the typing indicator. *)
Definition isIndicator (v : viewer) (h : nat) : bool :=
  match elements v !! h with
  | Some e => str_eqb (el_id e) (lit "typing-indicator")
  | None => false
  end.

(** The invariant of the document: every handle of [sceneDivs] is a child
    of [$scenes] and the block of its scene, the children are distinct
    elements that exist, and at most one of them is the typing indicator. *)
Definition wf (v : viewer) : Prop :=
  map_Forall (λ name div,
                div ∈ scenes v
                ∧ dataset_scene <$> elements v !! div = Some (Some name)
                ∧ el_id <$> elements v !! div = Some [])
             (sceneDivs v)
  ∧ Forall (λ h, (h < length (elements v))%nat) (scenes v)
  ∧ NoDup (scenes v)
  ∧ Forall (λ h1, Forall (λ h2, isIndicator v h1 = true →
                                isIndicator v h2 = true → h1 = h2)
                         (scenes v)) (scenes v).

#[global] Instance wf_dec v : Decision (wf v).
Proof. unfold wf. apply _. Defined.

(** The viewers that a run of the script can reach: it starts from the
    initial viewer with [init], which stores the descriptions when they
    arrive and refreshes once, and then polls; the scroll listener may set
    [userScrolledUp] between two steps.  The steps of [init] are there on
    their own as well. *)
Inductive reachable `{Browser} : viewer → Prop :=
  | reach_initial disc : reachable (initial_viewer disc)
  | reach_init characters srv v :
      reachable v → reachable (init characters srv v)
  | reach_characters data v :
      reachable v → reachable (set_charDescriptions data v)
  | reach_scroll b v : reachable v → reachable (set_userScrolledUp b v)
  | reach_update srv v : reachable v → reachable (snd (update srv v))
  | reach_poll srv v : reachable v → reachable (poll srv v).

(** The scenes on display, first to last. *)
Definition sceneOrder (v : viewer) : list jsstring :=
  omap (λ h, elements v !! h ≫= dataset_scene) (scenes v).

(** The names of [names] that are not in [seen], each at its first
    occurrence. *)
Fixpoint firstAppearances (seen : gset jsstring) (names : list jsstring)
  : list jsstring :=
  match names with
  | [] => []
  | n :: names' =>
      if decide (n ∈ seen) then firstAppearances seen names'
      else n :: firstAppearances ({[n]} ∪ seen) names'
  end.

(** The markup that [applyScene] writes for a scene. *)
Definition sceneHtml `{Browser} (v : viewer) (sc : SceneData) : jsstring :=
  renderSceneBlocks (visibleDescriptions v) (parseScene (scene_content sc)).

(** The block that [applyScene] creates for a scene without handle. *)
Definition sceneBlock (name html : jsstring) : element :=
  {| el_id := []; className := lit "scene-block";
     dataset_scene := Some name; innerHTML := html |}.

(** The indicator that [renderTypingIndicator] creates. *)
Definition typingIndicator `{Browser} (baseName : jsstring) : element :=
  {| el_id := lit "typing-indicator"; className := lit "typing-indicator";
     dataset_scene := None; innerHTML := typingIndicatorHtml baseName |}.

(** ** A browser for the examples *)

(** Serialisation of a text node: the four characters that HTML escapes. *)
Definition escapeText (s : jsstring) : jsstring :=
  flat_map (fun c =>
              if c =? 38 then lit "&amp;"
              else if c =? 0xa0 then lit "&nbsp;"
              else if c =? 60 then lit "&lt;"
              else if c =? 62 then lit "&gt;"
              else [c]) s.

Definition hexDigit (n : N) : N := if n <? 10 then 48 + n else 55 + n.

Definition percentByte (b : N) : jsstring :=
  [37; hexDigit (b / 16); hexDigit (b mod 16)].

Definition utf8 (cp : N) : list N :=
  if cp <? 0x80 then [cp]
  else if cp <? 0x800 then [0xc0 + cp / 64; 0x80 + cp mod 64]
  else if cp <? 0x10000
       then [0xe0 + cp / 4096; 0x80 + (cp / 64) mod 64; 0x80 + cp mod 64]
       else [0xf0 + cp / 262144; 0x80 + (cp / 4096) mod 64;
             0x80 + (cp / 64) mod 64; 0x80 + cp mod 64].

Definition uriUnreserved (c : N) : bool :=
  ((48 <=? c) && (c <=? 57)) || ((65 <=? c) && (c <=? 90))
  || ((97 <=? c) && (c <=? 122))
  || existsb (N.eqb c) (lit "-_.!~*'()").

(** Percent-encoding of the UTF-8 form of a string of well-formed UTF-16
    (a surrogate that stands alone is encoded as it is). *)
Fixpoint percentEncode (s : jsstring) : jsstring :=
  match s with
  | [] => []
  | c :: rest =>
      if uriUnreserved c then c :: percentEncode rest
      else if (0xd800 <=? c) && (c <=? 0xdbff)
      then match rest with
           | d :: rest' =>
               if (0xdc00 <=? d) && (d <=? 0xdfff)
               then flat_map percentByte
                      (utf8 ((c - 0xd800) * 0x400 + (d - 0xdc00) + 0x10000))
                    ++ percentEncode rest'
               else flat_map percentByte (utf8 c) ++ percentEncode rest
           | [] => flat_map percentByte (utf8 c)
           end
      else flat_map percentByte (utf8 c) ++ percentEncode rest
  end.

Definition exampleBrowser : Browser :=
  {| encodeURIComponent := percentEncode; textNodeInnerHTML := escapeText;
     nativeFunctionText := fun key => lit " " ++ key ++ lit "() { [native code] }";
     doubleText := decimal |}.

(** ** Example data *)

Definition example_scene : jsstring :=
  lit "Alice" ++ [OPEN_QUOTE] ++ lit "Hello" ++ [CLOSE_QUOTE; LF; LF]
  ++ [HBAR; HBAR] ++ lit "Night falls" ++ [HBAR; HBAR; LF]
  ++ lit "  " ++ [LF] ++ lit "The village sleeps.".

Definition example_state : GameState :=
  {| day := 1; phase_jp := lit "day"; player := None;
     alive := [{| alive_name := lit "Alice"; alive_role := None |};
               {| alive_name := lit "Bob"; alive_role := None |}];
     deaths := []; private_info := []; game_over := false |}.

(** The scene [s1] is there and Bob is typing in it. *)
Definition server_typing : server :=
  {| api_hash := Some (lit "h1");
     api_state := Some example_state;
     api_scenes := Some [lit "s1"];
     api_typing := Some (Some {| npc := Some (lit "Bob");
                                 scene := Some (lit "s1") |});
     api_scene := fun url =>
       if str_eqb url (lit "/api/scene/s1")
       then Some {| scene_name := lit "s1"; scene_content := example_scene |}
       else None |}.

(** The same game with a new fingerprint, and a typing request that fails. *)
Definition server_idle : server :=
  {| api_hash := Some (lit "h2");
     api_state := Some example_state;
     api_scenes := Some [lit "s1"];
     api_typing := None;
     api_scene := fun url =>
       if str_eqb url (lit "/api/scene/s1")
       then Some {| scene_name := lit "s1"; scene_content := example_scene |}
       else None |}.

(** The fingerprint answers, the state does not. *)
Definition server_state_down : server :=
  {| api_hash := Some (lit "h1"); api_state := None; api_scenes := Some [];
     api_typing := Some None; api_scene := fun _ => None |}.

(** Nothing answers. *)
Definition server_down : server :=
  {| api_hash := None; api_state := None; api_scenes := None;
     api_typing := None; api_scene := fun _ => None |}.

(** A scene that is named like the constructor of every object. *)
Definition scene_constructor : SceneData :=
  {| scene_name := lit "constructor"; scene_content := example_scene |}.

(** A server that answers every request; its scenes are [constructor] and
    [s1], with the same content. *)
Definition server_inherited : server :=
  {| api_hash := Some (lit "h1");
     api_state := Some example_state;
     api_scenes := Some [lit "constructor"; lit "s1"];
     api_typing := Some None;
     api_scene := fun url =>
       if str_eqb url (lit "/api/scene/constructor")
       then Some scene_constructor
       else if str_eqb url (lit "/api/scene/s1")
       then Some {| scene_name := lit "s1"; scene_content := example_scene |}
       else None |}.

(** The scenes [__proto__] and [innerHTML], in this order. *)
Definition server_prototype : server :=
  {| api_hash := Some (lit "h1");
     api_state := Some example_state;
     api_scenes := Some [lit "__proto__"; lit "innerHTML"];
     api_typing := Some None;
     api_scene := fun url =>
       if str_eqb url (lit "/api/scene/__proto__")
       then Some {| scene_name := lit "__proto__";
                    scene_content := example_scene |}
       else if str_eqb url (lit "/api/scene/innerHTML")
       then Some {| scene_name := lit "innerHTML";
                    scene_content := example_scene |}
       else None |}.

(** The viewer after a first turn of [poll] while Bob is typing. *)
Definition viewer_typing : viewer :=
  @poll exampleBrowser server_typing (initial_viewer false).

(** The viewer after [init], when the descriptions did not arrive and the
    scenes are [constructor] and [s1]. *)
Definition viewer_started : viewer :=
  @init exampleBrowser None server_inherited (initial_viewer false).

(** ** More properties used to state theorems *)

(** The polynomial hash with multiplier 31 that the loop of [nameToColor]
    computes up to the wrap of its shift. *)
Definition hash31 (name : jsstring) : Z :=
  fold_left (fun h c => (Z.of_N c + 31 * h)%Z) name 0%Z.

(** What [parseScene] lets into a block. *)
Definition blockOk (b : Block) : Prop :=
  match b with
  | Speech name text =>
      name ≠ [] ∧ Forall (λ c, isSpace c = false) name
      ∧ Forall (λ c, isLineTerminator c = false) text
  | Separator text =>
      [HBAR; HBAR] `prefix_of` text ∧ ¬ blankLine text ∧ LF ∉ text
  | Narration text =>
      ¬ [HBAR; HBAR] `prefix_of` text ∧ ¬ blankLine text ∧ LF ∉ text
  end.

(** A key under which every object inherits a method or the prototype. *)
Definition inheritedName (name : jsstring) : Prop :=
  name = lit "__proto__" ∨ name ∈ OBJECT_PROTOTYPE_METHODS.

#[global] Instance inheritedName_dec name : Decision (inheritedName name).
Proof. unfold inheritedName. apply _. Defined.

(** The test [sceneDivs[name]] finds nothing: the name has no block, and
    what the object inherits under it is nothing or the empty string. *)
Definition noBlockFound (v : viewer) (name : jsstring) : Prop :=
  sceneDivs v !! name = None
  ∧ match inheritedProperty (protoInnerHTML v) name with
    | Some (PrototypeString s) => truthy s = false
    | Some _ => False
    | None => True
    end.

(** The cache and the document agree: the scenes with a handle are the
    loaded ones whose name is not inherited, and a child of [$scenes] that
    carries a scene name is the handle of that name. *)
Definition docInv (v : viewer) : Prop :=
  wf v
  ∧ (∀ name, name ∈ dom (sceneDivs v) ↔
       name ∈ loadedScenes v ∧ ¬ inheritedName name)
  ∧ (∀ h name, h ∈ scenes v →
       elements v !! h ≫= dataset_scene = Some name →
       sceneDivs v !! name = Some h).

(** What one turn of [poll] adds to the trace. *)
Definition turnEvents `{Browser} (srv : server) (v : viewer) : list event :=
  drop (length (trace v)) (trace (poll srv v)).

(** The scene that [update] hands to [loadScenes] as the active one:
    [isTyping ? typingData.scene : null]. *)
Definition activeSceneOf (srv : server) : option jsstring :=
  if bool_decide (is_Some (typingNpc (typingPayload srv)))
  then typingPayload srv ≫= scene else None.

(** What [loadScenes] and [renderTypingIndicator] may do to the outside:
    request a scene of the fetch list, scroll down, log an error. *)
Definition loadEvent `{Browser} (srv : server) (sceneList : list jsstring)
    (activeScene : option jsstring) (v : viewer) (e : event) : Prop :=
  match e with
  | Fetch url =>
      ∃ n, url = sceneUrl n
           ∧ n ∈ toFetch (loadedScenes v) sceneList activeScene
  | ScrollToBottom | ConsoleError => True
  | _ => False
  end.

(** What a refresh may do once its three requests are out. *)
Definition refreshEvent `{Browser} (srv : server) (v : viewer) (e : event)
  : Prop :=
  match e with
  | RenderSidebar state => api_state srv = Some state
  | _ => ∃ sceneList, api_scenes srv = Some sceneList
                      ∧ loadEvent srv sceneList (activeSceneOf srv) v e
  end.

Definition isTimer (e : event) : bool :=
  match e with SetTimeout _ => true | _ => false end.

(** ** The sidebar *)

(** An entry of [ROLE_ICON]. *)
Record IconInfo := { icon_file : jsstring; icon_side : jsstring }.

(** 占い師_霊媒師.png *)
Definition ICON_SEER_MEDIUM : jsstring :=
  [0x5360; 0x3044; 0x5e2b; 0x5f; 0x970a; 0x5a92; 0x5e2b] ++ lit ".png".

(** 村人_狩人.png *)
Definition ICON_VILLAGER_BODYGUARD : jsstring :=
  [0x6751; 0x4eba; 0x5f; 0x72e9; 0x4eba] ++ lit ".png".

(** 人狼_狂人.png *)
Definition ICON_WEREWOLF_MADMAN : jsstring :=
  [0x4eba; 0x72fc; 0x5f; 0x72c2; 0x4eba] ++ lit ".png".

(** What [ROLE_ICON[role]] finds: an entry of the table, or what the table
    inherits under that key. *)
Inductive iconValue : Type :=
  | IconEntry (info : IconInfo)
  | IconInherited (x : inheritedValue).

(** [ROLE_ICON[role]]: the six properties of the table itself, then the
    inherited ones. *)
Definition ROLE_ICON (proto : option jsstring) (role : jsstring)
  : option iconValue :=
  if str_eqb role (lit "seer")
  then Some (IconEntry {| icon_file := ICON_SEER_MEDIUM;
                          icon_side := lit "left" |})
  else if str_eqb role (lit "medium")
  then Some (IconEntry {| icon_file := ICON_SEER_MEDIUM;
                          icon_side := lit "right" |})
  else if str_eqb role (lit "villager")
  then Some (IconEntry {| icon_file := ICON_VILLAGER_BODYGUARD;
                          icon_side := lit "left" |})
  else if str_eqb role (lit "bodyguard")
  then Some (IconEntry {| icon_file := ICON_VILLAGER_BODYGUARD;
                          icon_side := lit "right" |})
  else if str_eqb role (lit "werewolf")
  then Some (IconEntry {| icon_file := ICON_WEREWOLF_MADMAN;
                          icon_side := lit "left" |})
  else if str_eqb role (lit "madman")
  then Some (IconEntry {| icon_file := ICON_WEREWOLF_MADMAN;
                          icon_side := lit "right" |})
  else IconInherited <$> inheritedProperty proto role.

(** [<li class="no-info">なし</li>] *)
Definition NO_INFO : jsstring :=
  markup "<li class='no-info'>" ++ [0x306a; 0x3057] ++ lit "</li>".

(** What a write sets: [textContent] or [innerHTML]. *)
Inductive content : Type :=
  | TextContent (s : jsstring)
  | InnerHTML (s : jsstring).

(** The seven elements of the sidebar, with what [renderSidebar] writes
    to each. *)
Record sidebarDoc := {
  dayPhase : content;
  playerInfo : content;
  aliveHeader : content;
  aliveList : content;
  deadHeader : content;
  deadList : content;
  privateList : content
}.

Section Sidebar.
Context `{Browser}.

(** A number of the state next to a string; the numbers of the state are
    integers.  Up to 2^53 in size a double holds the integer and its text
    is the decimal form; beyond, the text is that of the nearest double. *)
Definition numberToString (z : Z) : jsstring :=
  if (Z.abs z <=? 2 ^ 53)%Z
  then if (z <? 0)%Z then lit "-" ++ decimal (- z) else decimal z
  else doubleText z.

(** The badge, from the two properties that it reads of the value found. *)
Definition roleIconBadge (file : jsstring) (right : bool) : jsstring :=
  let url := lit "/chara_image/" ++ encodeURIComponent file in
  let posClass :=
    if right then lit "role-icon-right" else lit "role-icon-left" in
  markup "<span class='role-icon " ++ posClass ++ markup "'>"
    ++ markup "<img src='" ++ esc url ++ markup "' alt='' loading='lazy'>"
    ++ lit "</span>".

(** [roleIconHtml]: a value that is not an entry of the table has no
    [file] and no [side], so that [undefined] is encoded and the side is
    not the right one; an empty string counts as absent. *)
Definition roleIconHtml (iconInfo : option iconValue) : jsstring :=
  match iconInfo with
  | None => []
  | Some (IconEntry info) =>
      roleIconBadge (icon_file info) (str_eqb (icon_side info) (lit "right"))
  | Some (IconInherited (PrototypeString s)) =>
      if truthy s then roleIconBadge (lit "undefined") false else []
  | Some (IconInherited _) => roleIconBadge (lit "undefined") false
  end.

(** [state.game_over && p.role] decides whether the icon of a role is
    looked up. *)
Definition listIcon (proto : option jsstring) (game_over : bool)
    (role : option jsstring) : jsstring :=
  match role with
  | Some r =>
      if game_over && truthy r then roleIconHtml (ROLE_ICON proto r) else []
  | None => []
  end.

Definition playerInfoHtml (proto : option jsstring) (p : PlayerInfo)
  : jsstring :=
  let statusText :=
    if player_alive p then []
    else markup "<div class='player-dead'>" ++ [0x2605; 0x20; 0x6b7b; 0x4ea1]
           ++ lit "</div>" in
  let playerIcon := roleIconHtml (ROLE_ICON proto (player_role p)) in
  markup "<div class='player-name'>" ++ esc (player_name p) ++ lit "</div>"
    ++ markup "<div class='player-role'>" ++ playerIcon ++ lit " "
    ++ esc (player_role_jp p) ++ lit "</div>"
    ++ statusText.

Definition aliveItemHtml (proto : option jsstring)
    (charDescriptions : gmap jsstring jsstring)
    (game_over : bool) (p : AliveEntry) : jsstring :=
  let title :=
    titleAttr (charDescriptions ∪ inheritedDescriptions proto)
      (alive_name p) in
  let icon := listIcon proto game_over (alive_role p) in
  lit "<li" ++ title ++ markup "><span class='dot dot-alive'></span>" ++ icon
    ++ esc (alive_name p) ++ lit "</li>".

Definition deathItemHtml (proto : option jsstring) (game_over : bool)
    (d : DeathEntry) : jsstring :=
  let icon := listIcon proto game_over (death_role d) in
  let causeLabel :=
    (match death_alignment d with
     | Some a => if truthy a then esc a ++ lit " " else []
     | None => []
     end)
    ++ lit "D" ++ numberToString (death_day d) ++ esc (death_cause d) in
  markup "<li><span class='dot dot-dead'></span>" ++ icon
    ++ esc (death_name d)
    ++ markup "<span class='death-cause'>" ++ causeLabel
    ++ lit "</span></li>".

(** What [renderSidebar(state)] writes, given the properties of
    [charDescriptions] itself and the string that the script has stored in
    [Object.prototype.innerHTML], if any. *)
Definition renderSidebarDoc (proto : option jsstring)
    (charDescriptions : gmap jsstring jsstring)
    (state : GameState) : sidebarDoc :=
  {| dayPhase :=
       TextContent (lit "Day " ++ numberToString (day state) ++ lit " / "
                      ++ phase_jp state);
     playerInfo :=
       match player state with
       | Some p => InnerHTML (playerInfoHtml proto p)
       | None => TextContent [0xff08; 0x672a; 0x8a2d; 0x5b9a; 0xff09]
       end;
     aliveHeader :=
       TextContent ([0x751f; 0x5b58; 0x8005; 0x20]
                      ++ decimal (Z.of_nat (length (alive state)))
                      ++ [0x540d]);
     aliveList :=
       InnerHTML
         (concat (map (aliveItemHtml proto charDescriptions
                         (game_over state))
                    (alive state)));
     deadHeader :=
       if bool_decide (0 < length (deaths state))%nat
       then TextContent ([0x6b7b; 0x4ea1; 0x8005; 0x20]
                           ++ decimal (Z.of_nat (length (deaths state)))
                           ++ [0x540d])
       else TextContent [0x6b7b; 0x4ea1; 0x8005];
     deadList :=
       if bool_decide (0 < length (deaths state))%nat
       then InnerHTML
              (concat (map (deathItemHtml proto (game_over state))
                         (deaths state)))
       else InnerHTML NO_INFO;
     privateList :=
       if bool_decide (0 < length (private_info state))%nat
       then InnerHTML
              (concat (map (λ line, lit "<li>" ++ esc line ++ lit "</li>")
                         (private_info state)))
       else InnerHTML NO_INFO |}.

End Sidebar.

(** The state with the roles of the two lists taken out. *)
Definition hideRoles (state : GameState) : GameState :=
  {| day := day state; phase_jp := phase_jp state; player := player state;
     alive := map (λ p, {| alive_name := alive_name p; alive_role := None |})
                  (alive state);
     deaths := map (λ d, {| death_name := death_name d;
                            death_day := death_day d;
                            death_cause := death_cause d;
                            death_alignment := death_alignment d;
                            death_role := None |})
                   (deaths state);
     private_info := private_info state;
     game_over := game_over state |}.

(** The example state with the role of Alice filled in. *)
Definition example_state_roles : GameState :=
  {| day := 1; phase_jp := lit "day"; player := None;
     alive := [{| alive_name := lit "Alice";
                  alive_role := Some (lit "werewolf") |};
               {| alive_name := lit "Bob"; alive_role := None |}];
     deaths := []; private_info := []; game_over := false |}.

(** The same state once the game is over. *)
Definition example_state_over : GameState :=
  {| day := 1; phase_jp := lit "day"; player := None;
     alive := [{| alive_name := lit "Alice";
                  alive_role := Some (lit "werewolf") |};
               {| alive_name := lit "Bob"; alive_role := None |}];
     deaths := []; private_info := []; game_over := true |}.

(* ================================================================== *)
(** * Part II: theorems                                                 *)
(* ================================================================== *)

(** ** Strings *)

Lemma js_split_nonempty sep text : js_split sep text ≠ [].
Proof.
  destruct text as [|c rest]; simpl; [done|].
  destruct (c =? sep); [done|]. by destruct (js_split sep rest).
Qed.

Lemma js_join_cons sep p q ps :
  js_join sep (p :: q :: ps) = p ++ (sep :: js_join sep (q :: ps)).
Proof. reflexivity. Qed.

Lemma js_join_split sep text : js_join sep (js_split sep text) = text.
Proof.
  induction text as [|c rest IH]; [done|]. cbn [js_split].
  pose proof (js_split_nonempty sep rest) as Hn.
  destruct (N.eqb_spec c sep) as [->|Hne].
  - destruct (js_split sep rest) as [|q ps]; [done|].
    rewrite js_join_cons. by rewrite IH.
  - destruct (js_split sep rest) as [|q ps]; [done|].
    destruct ps as [|q' ps].
    + simpl in *. by rewrite IH.
    + rewrite js_join_cons. rewrite js_join_cons in IH. by rewrite <- IH.
Qed.

Lemma js_split_no_sep sep text :
  Forall (λ line, sep ∉ line) (js_split sep text).
Proof.
  induction text as [|c rest IH]; simpl.
  - repeat constructor. by intros ?%elem_of_nil.
  - destruct (N.eqb_spec c sep) as [->|Hne].
    + constructor; [by intros ?%elem_of_nil | done].
    + pose proof (js_split_nonempty sep rest) as Hn.
      destruct (js_split sep rest) as [|q ps]; [done|].
      inversion IH; subst. constructor; [|done].
      intros [?|?]%elem_of_cons; congruence.
Qed.

Lemma trimStart_nil_iff s : trimStart s = [] ↔ forallb isSpace s = true.
Proof.
  induction s as [|c rest IH]; simpl; [done|].
  destruct (isSpace c); simpl; [done|]. split; discriminate.
Qed.

Lemma trimStart_head s c rest : trimStart s = c :: rest → isSpace c = false.
Proof.
  induction s as [|d s IH]; simpl; [done|].
  destruct (isSpace d) eqn:E; [done|]. by intros [= <- _].
Qed.

Lemma forallb_rev {A} (f : A → bool) l : forallb f (rev l) = forallb f l.
Proof.
  induction l as [|x l IH]; simpl; [done|].
  rewrite forallb_app, IH. simpl. rewrite andb_true_r. apply andb_comm.
Qed.

Lemma isEmpty_true s : isEmpty s = true ↔ s = [].
Proof. by destruct s. Qed.

Lemma trim_empty_iff s : isEmpty (trim s) = true ↔ forallb isSpace s = true.
Proof.
  unfold trim, trimEnd. rewrite isEmpty_true. split.
  { intros E. apply (f_equal (@rev N)) in E.
    rewrite rev_involutive in E. simpl in E.
    apply trimStart_nil_iff in E. rewrite forallb_rev in E.
    destruct (trimStart s) as [|c rest] eqn:Es; [by apply trimStart_nil_iff|].
    apply trimStart_head in Es. simpl in E. rewrite Es in E. discriminate. }
  intros Hs. apply trimStart_nil_iff in Hs. by rewrite Hs.
Qed.

Lemma startsWith_iff s p : startsWith s p = true ↔ ∃ r, s = p ++ r.
Proof.
  revert s. induction p as [|c p IH]; intros s; simpl.
  - split; [intros _; by exists s | done].
  - destruct s as [|d s]; [split; [done|intros [r Hr]; done]|].
    rewrite andb_true_iff, N.eqb_eq, IH. split.
    + intros [-> [r ->]]. eauto.
    + intros [r [= -> ->]]. eauto.
Qed.

Lemma endsWith_snoc s c : endsWith (s ++ [c]) [c] = true.
Proof. unfold endsWith. rewrite rev_app_distr. simpl. by rewrite N.eqb_refl. Qed.

Lemma endsWith_last s c : endsWith s [c] = true ↔ last s = Some c.
Proof.
  unfold endsWith. simpl. rewrite <- (rev_involutive s) at 2.
  destruct (rev s) as [|d r]; simpl; [done|].
  rewrite last_snoc, andb_true_r, N.eqb_eq. split; congruence.
Qed.

Lemma slice_0_m1_snoc s c : slice_0_m1 (s ++ [c]) = s.
Proof.
  unfold slice_0_m1. rewrite length_app. simpl.
  replace (length s + 1 - 1)%nat with (length s) by lia.
  by rewrite take_app_length.
Qed.

Lemma stripClose_closed w : stripClose (w ++ [CLOSE_QUOTE]) = w.
Proof. unfold stripClose. by rewrite endsWith_snoc, slice_0_m1_snoc. Qed.

Lemma stripClose_open content :
  last content ≠ Some CLOSE_QUOTE → stripClose content = content.
Proof.
  intros Hl. unfold stripClose.
  destruct (endsWith content [CLOSE_QUOTE]) eqn:E; [|done].
  by apply endsWith_last in E.
Qed.
(** ** The speech pattern *)

Lemma isLineTerminator_isSpace c :
  isLineTerminator c = true → isSpace c = true.
Proof. unfold isSpace. intros ->. apply orb_true_r. Qed.

Lemma dotPlusToEnd_iff s :
  dotPlusToEnd s = true ↔ s ≠ [] ∧ Forall (λ c, isLineTerminator c = false) s.
Proof.
  unfold dotPlusToEnd. rewrite andb_true_iff, negb_true_iff.
  rewrite forallb_forall, Forall_forall.
  split; intros [Hn Hall]; split.
  - by destruct s.
  - intros c Hc. apply negb_true_iff, Hall. by apply list_elem_of_In.
  - by destruct s.
  - intros c Hc. apply negb_true_iff, Hall. by apply list_elem_of_In.
Qed.

Lemma dotPlusToEnd_cons_false c s :
  isLineTerminator c = false → dotPlusToEnd (c :: s) = false →
  dotPlusToEnd s = false.
Proof.
  unfold dotPlusToEnd. simpl. intros ->. simpl. intros ->. apply andb_false_r.
Qed.

Lemma speechMatch_from_stuck acc rest :
  dotPlusToEnd rest = false → speechMatch_from acc rest = None.
Proof.
  revert acc. induction rest as [|c rest IH]; intros acc Hd; [done|].
  simpl. destruct (isSpace c) eqn:Hs.
  - destruct (N.eqb_spec c OPEN_QUOTE) as [->|_]; [done|done].
  - assert (isLineTerminator c = false) as Hlt.
    { destruct (isLineTerminator c) eqn:E; [|done].
      apply isLineTerminator_isSpace in E. congruence. }
    rewrite (dotPlusToEnd_cons_false _ _ Hlt Hd), andb_false_r. by apply IH,
      (dotPlusToEnd_cons_false c).
Qed.

Lemma speechMatch_from_spec acc rest name content :
  speechMatch_from acc rest = Some (name, content) ↔
  ∃ mid, name = rev acc ++ mid ∧ rest = mid ++ (OPEN_QUOTE :: content)
         ∧ Forall (λ c, isSpace c = false) mid ∧ (OPEN_QUOTE ∉ mid)
         ∧ dotPlusToEnd content = true.
Proof.
  revert acc. induction rest as [|c rest IH]; intros acc.
  - split; [done|]. intros (mid & _ & Hr & _). by destruct mid.
  - simpl. destruct ((c =? OPEN_QUOTE) && dotPlusToEnd rest) eqn:Hclose.
    + apply andb_true_iff in Hclose as [->%N.eqb_eq Hd]. split.
      * intros [= <- <-]. exists [].
        split_and!; [by rewrite app_nil_r | done | constructor
                    | by intros ?%elem_of_nil | done].
      * intros (mid & -> & Hr & _ & Hno & _).
        destruct mid as [|d mid]; simpl in Hr.
        -- injection Hr as <-. by rewrite app_nil_r.
        -- injection Hr as <- _. exfalso. apply Hno. by left.
    + destruct (isSpace c) eqn:Hs.
      * split; [done|]. intros (mid & _ & Hr & Hall & _ & Hd).
        destruct mid as [|d mid]; simpl in Hr.
        -- injection Hr as -> ->. rewrite N.eqb_refl, Hd in Hclose. done.
        -- injection Hr as <- _. inversion Hall; congruence.
      * rewrite IH. split.
        -- intros (mid & -> & -> & Hall & Hno & Hd). exists (c :: mid).
           simpl. rewrite <- app_assoc.
           split_and!; [done | done | by constructor | | done].
           intros [<-|?]%elem_of_cons; [|done].
           rewrite N.eqb_refl in Hclose. simpl in Hclose.
           assert (dotPlusToEnd (mid ++ (OPEN_QUOTE :: content)) = true);
             [|congruence].
           apply dotPlusToEnd_iff. split; [by destruct mid|].
           apply Forall_app. split.
           ++ eapply Forall_impl; [exact Hall|]. simpl. intros x Hx.
              destruct (isLineTerminator x) eqn:E; [|done].
              apply isLineTerminator_isSpace in E. congruence.
           ++ constructor; [done|]. by apply dotPlusToEnd_iff in Hd as [_ ?].
        -- intros (mid & -> & Hr & Hall & Hno & Hd).
           destruct mid as [|d mid]; simpl in Hr.
           ++ injection Hr as -> ->. rewrite N.eqb_refl, Hd in Hclose. done.
           ++ injection Hr as <- ->. exists mid. simpl. rewrite <- app_assoc.
              split_and!; [done | done | by inversion Hall | | done].
              intros ?. apply Hno. by right.
Qed.

Lemma speechMatch_spec line name content :
  speechMatch line = Some (name, content) ↔ speechShape line name content.
Proof.
  unfold speechMatch, speechShape. destruct line as [|c rest].
  - split; [done|]. intros (Hl & Hn & _). by destruct name.
  - destruct (isSpace c) eqn:Hs.
    + split; [done|]. intros (Hl & Hn & Hall & _).
      destruct name as [|d name]; [done|]. injection Hl as <- _.
      inversion Hall; congruence.
    + rewrite speechMatch_from_spec. split.
      * intros (mid & -> & -> & Hall & Hno & Hd).
        apply dotPlusToEnd_iff in Hd as [? ?]. simpl.
        split_and!; [done | done | by constructor | done | done | done].
      * intros (Hl & Hn & Hall & Hno & Hc & Hlt).
        destruct name as [|d name]; [done|]. injection Hl as <- ->.
        exists name. simpl in *.
        split_and!; [done | done | by inversion Hall | done |].
        by apply dotPlusToEnd_iff.
Qed.

Lemma speechMatch_None line :
  speechMatch line = None ↔ ¬ ∃ name content, speechShape line name content.
Proof.
  split.
  - intros Hn (name & content & Hs). apply speechMatch_spec in Hs. congruence.
  - intros Hn. destruct (speechMatch line) as [[name content]|] eqn:E; [|done].
    exfalso. apply Hn. exists name, content. by apply speechMatch_spec.
Qed.

(** ** The loop of the parser *)

Lemma parseScene_loop_app lines blocks :
  parseScene_loop lines blocks = blocks ++ omap parseLine lines.
Proof.
  revert blocks. induction lines as [|line lines IH]; intros blocks.
  - simpl. by rewrite app_nil_r.
  - change (omap parseLine (line :: lines))
      with (match parseLine line with
            | Some b => b :: omap parseLine lines
            | None => omap parseLine lines
            end).
    simpl. destruct (parseLine line) as [b|]; rewrite IH; [|done].
    by rewrite <- app_assoc.
Qed.

Lemma omap_parseLine lines :
  omap parseLine lines
  = map classifyLine (filter (λ l, isEmpty (trim l) = false) lines).
Proof.
  induction lines as [|line lines IH]; [done|].
  change (omap parseLine (line :: lines))
    with (match parseLine line with
          | Some b => b :: omap parseLine lines
          | None => omap parseLine lines
          end).
  rewrite filter_cons, IH. unfold parseLine.
  destruct (isEmpty (trim line)) eqn:E.
  - by rewrite decide_False.
  - by rewrite decide_True.
Qed.

Lemma parseLine_None_iff line :
  parseLine line = None ↔ Forall (λ c, isSpace c = true) line.
Proof.
  unfold parseLine. rewrite Forall_forall.
  destruct (isEmpty (trim line)) eqn:E.
  - apply trim_empty_iff in E. rewrite forallb_forall in E. split; [|done].
    intros _ c Hc. by apply E, list_elem_of_In.
  - split; [done|]. intros Hall. exfalso.
    assert (isEmpty (trim line) = true); [|congruence].
    apply trim_empty_iff, forallb_forall. intros c Hc.
    by apply Hall, list_elem_of_In.
Qed.

Lemma parseLine_nonblank line :
  ¬ blankLine line → parseLine line = Some (classifyLine line).
Proof.
  intros Hnb. unfold parseLine.
  destruct (isEmpty (trim line)) eqn:E; [|done].
  exfalso. apply Hnb. apply parseLine_None_iff. unfold parseLine. by rewrite E.
Qed.

Lemma filter_nonblank (lines : list jsstring) :
  filter (λ l, isEmpty (trim l) = false) lines
  = filter (λ l, ¬ blankLine l) lines.
Proof.
  apply list_filter_iff. intros l. unfold blankLine.
  rewrite <- parseLine_None_iff. unfold parseLine.
  destruct (isEmpty (trim l)); split; intros Hx; congruence.
Qed.


Lemma classifyLine_no_speech line :
  speechMatch line = None →
  classifyLine line
  = if startsWith line [HBAR; HBAR] then Separator line else Narration line.
Proof. unfold classifyLine. by intros ->. Qed.

(** The examples of the specification. *)
Example parse_closed_speech :
  parseScene (lit "Alice" ++ [OPEN_QUOTE] ++ lit "Hello" ++ [CLOSE_QUOTE])
  = [Speech (lit "Alice") (lit "Hello")].
Proof. reflexivity. Qed.

Example parse_open_speech :
  parseScene (lit "Alice" ++ [OPEN_QUOTE] ++ lit "Hello")
  = [Speech (lit "Alice") (lit "Hello")].
Proof. reflexivity. Qed.

Example parse_separator :
  parseScene ([HBAR; HBAR] ++ lit "Night falls" ++ [HBAR; HBAR])
  = [Separator ([HBAR; HBAR] ++ lit "Night falls" ++ [HBAR; HBAR])].
Proof. reflexivity. Qed.

Example parse_carriage_return :
  parseScene (lit "Alice" ++ [OPEN_QUOTE] ++ lit "Hello" ++ [CLOSE_QUOTE; CR; LF]
              ++ lit "Bob" ++ [OPEN_QUOTE] ++ lit "Hi" ++ [CLOSE_QUOTE])
  = [Narration (lit "Alice" ++ [OPEN_QUOTE] ++ lit "Hello" ++ [CLOSE_QUOTE; CR]);
     Speech (lit "Bob") (lit "Hi")].
Proof. reflexivity. Qed.

(** C2: for every content string, [parseScene] yields one block for each
    line that is not blank, in the order of the lines, and none for a blank
    line (a line of white space only); the lines are the pieces of the
    content between line feeds; the empty string yields no block; equal
    contents yield equal block sequences. *)
Theorem parseScene_one_block_per_line (text text' : jsstring) :
  text' = text →
  let lines := js_split LF text in
  js_join LF lines = text
  ∧ Forall (λ l, LF ∉ l) lines
  ∧ parseScene text = map classifyLine (filter (λ l, ¬ blankLine l) lines)
  ∧ length (parseScene text) = length (filter (λ l, ¬ blankLine l) lines)
  ∧ parseScene [] = []
  ∧ parseScene text' = parseScene text.
Proof.
  intros ->. cbv zeta.
  assert (parseScene text
          = map classifyLine (filter (λ l, ¬ blankLine l) (js_split LF text)))
    as Heq.
  { unfold parseScene. rewrite parseScene_loop_app, omap_parseLine. simpl.
    by rewrite filter_nonblank. }
  split_and!; [apply js_join_split | apply js_split_no_sep | done | | done | done].
  by rewrite Heq, length_map.
Qed.

Lemma parseScene_one_block_per_line_witness :
  example_scene = example_scene
  ∧ parseScene example_scene
    = [Speech (lit "Alice") (lit "Hello");
       Separator ([HBAR; HBAR] ++ lit "Night falls" ++ [HBAR; HBAR]);
       Narration (lit "The village sleeps.")]
  ∧ length (parseScene example_scene)
    = length (filter (λ l, ¬ blankLine l) (js_split LF example_scene)).
Proof.
  split; [reflexivity|]. split; [reflexivity|].
  exact (proj1 (proj2 (proj2 (proj2
    (parseScene_one_block_per_line example_scene example_scene eq_refl))))).
Defined.

(** C3 (amended): for every line that is not blank, [parseScene] applies
    the first rule that matches. (1) When the line is a run without white
    space (the shortest one: no opening marker after its first unit), the
    opening marker and a non-empty remainder free of line terminators
    (CR, U+2028, U+2029), it yields Speech of the run, with the remainder
    less one closing marker at its end when there is one and the remainder
    itself otherwise. (2) Otherwise, when the line begins with the two
    horizontal bars, it yields Separator of the whole line. (3) Otherwise it
    yields Narration of the whole line. *)
Theorem parseLine_first_match (line : jsstring) :
  ¬ blankLine line →
  (∀ name text, speechShape line name (text ++ [CLOSE_QUOTE]) →
     parseLine line = Some (Speech name text))
  ∧ (∀ name content, speechShape line name content →
       last content ≠ Some CLOSE_QUOTE →
       parseLine line = Some (Speech name content))
  ∧ ((¬ ∃ name content, speechShape line name content) →
       [HBAR; HBAR] `prefix_of` line →
       parseLine line = Some (Separator line))
  ∧ ((¬ ∃ name content, speechShape line name content) →
       ¬ [HBAR; HBAR] `prefix_of` line →
       parseLine line = Some (Narration line)).
Proof.
  intros Hnb. rewrite (parseLine_nonblank _ Hnb). unfold classifyLine.
  split_and!.
  - intros name text Hs%speechMatch_spec. by rewrite Hs, stripClose_closed.
  - intros name content Hs%speechMatch_spec Hl.
    by rewrite Hs, stripClose_open.
  - intros Hn%speechMatch_None Hp. rewrite Hn.
    apply startsWith_iff in Hp. by rewrite Hp.
  - intros Hn%speechMatch_None Hp. rewrite Hn.
    destruct (startsWith line [HBAR; HBAR]) eqn:E; [|done].
    by apply startsWith_iff in E.
Qed.

Lemma parseLine_first_match_witness :
  ¬ blankLine (lit "Alice" ++ [OPEN_QUOTE] ++ lit "Hello" ++ [CLOSE_QUOTE])
  ∧ parseLine (lit "Alice" ++ [OPEN_QUOTE] ++ lit "Hello" ++ [CLOSE_QUOTE])
    = Some (Speech (lit "Alice") (lit "Hello")).
Proof.
  assert (¬ blankLine
            (lit "Alice" ++ [OPEN_QUOTE] ++ lit "Hello" ++ [CLOSE_QUOTE]))
    as Hnb by compute_done.
  split; [exact Hnb|].
  apply (proj1 (parseLine_first_match _ Hnb)).
  apply speechMatch_spec. reflexivity.
Defined.

(** A speech line that ends in a carriage return is a narration. *)
Lemma speechOfAnyRemainder_carriage_return :
  ¬ speechOfAnyRemainder (lit "Alice") (lit "Hello" ++ [CLOSE_QUOTE; CR]).
Proof.
  intros Hs. destruct Hs as [text Ht]; [done | compute_done | done |].
  vm_compute in Ht. discriminate.
Qed.

(** C10 (amended): for every line made of a run without white space, with
    no opening marker after its first unit, followed by the opening marker
    and nothing else, [parseScene] yields no Speech: it yields Separator of
    the whole line when the line begins with the two horizontal bars, and
    Narration of the whole line otherwise. *)
Theorem emptyRemainder_not_speech (run : jsstring) :
  Forall (λ c, isSpace c = false) run → OPEN_QUOTE ∉ tail run →
  let line := run ++ [OPEN_QUOTE] in
  ([HBAR; HBAR] `prefix_of` line → parseLine line = Some (Separator line))
  ∧ (¬ [HBAR; HBAR] `prefix_of` line → parseLine line = Some (Narration line)).
Proof.
  intros Hrun Hno line.
  assert (¬ blankLine line) as Hnb.
  { unfold blankLine, line. rewrite Forall_app, Forall_singleton.
    intros [_ Ho]. vm_compute in Ho. discriminate. }
  assert (speechMatch line = None) as Hns.
  { apply speechMatch_None.
    intros (name & content & Hl & Hn & _ & _ & Hc & _). unfold line in Hl.
    destruct (rev content) as [|x c'] eqn:Er.
    { apply (f_equal (@rev N)) in Er. rewrite rev_involutive in Er. done. }
    apply (f_equal (@rev N)) in Er. rewrite rev_involutive in Er. simpl in Er.
    subst content.
    change (name ++ OPEN_QUOTE :: rev c' ++ [x])
      with (name ++ (OPEN_QUOTE :: rev c') ++ [x]) in Hl.
    rewrite app_assoc in Hl. apply app_inj_tail in Hl as [-> _].
    apply Hno. destruct name as [|d name]; [done|]. simpl.
    apply elem_of_app. right. by left. }
  rewrite (parseLine_nonblank _ Hnb), (classifyLine_no_speech _ Hns).
  split; intros Hp.
  - apply startsWith_iff in Hp. by rewrite Hp.
  - destruct (startsWith line [HBAR; HBAR]) eqn:E; [|done].
    by apply startsWith_iff in E.
Qed.

(** The two bars and the marker are a separator; a run that holds an
    opening marker gives a speech of its part before that marker. *)
Lemma narrationOfEmptyRemainder_fails :
  ¬ narrationOfEmptyRemainder [HBAR; HBAR]
  ∧ ¬ narrationOfEmptyRemainder (lit "A" ++ [OPEN_QUOTE] ++ lit "B").
Proof.
  split; intros Hn.
  - specialize (Hn ltac:(compute_done)).
    vm_compute in Hn. discriminate.
  - specialize (Hn ltac:(compute_done)).
    vm_compute in Hn. discriminate.
Qed.

Lemma emptyRemainder_not_speech_witness :
  (Forall (λ c, isSpace c = false) (lit "Alice")
   ∧ OPEN_QUOTE ∉ tail (lit "Alice"))
  ∧ parseLine (lit "Alice" ++ [OPEN_QUOTE])
    = Some (Narration (lit "Alice" ++ [OPEN_QUOTE])).
Proof.
  assert (Forall (λ c, isSpace c = false) (lit "Alice")) as H1
    by compute_done.
  assert (OPEN_QUOTE ∉ tail (lit "Alice")) as H2 by compute_done.
  split; [split; [exact H1|exact H2]|].
  apply (proj2 (emptyRemainder_not_speech (lit "Alice") H1 H2)).
  compute_done.
Defined.

(** ** The annotation of a speaker name *)

Lemma annotationBody_closed ann :
  RPAREN ∉ ann → annotationBody (ann ++ [RPAREN]) = true.
Proof.
  induction ann as [|c ann IH]; intros Hno; simpl.
  - done.
  - destruct (N.eqb_spec c RPAREN) as [->|_].
    + exfalso. apply Hno. by left.
    + apply IH. intros ?. apply Hno. by right.
Qed.

Lemma annotationBody_early q rest :
  RPAREN ∈ q → rest ≠ [] → annotationBody (q ++ rest) = false.
Proof.
  induction q as [|c q IH]; intros Hin Hr; [by apply elem_of_nil in Hin|].
  simpl. destruct (N.eqb_spec c RPAREN) as [->|Hne].
  - by destruct q, rest.
  - apply IH; [|done]. by apply elem_of_cons in Hin as [?|?].
Qed.

Lemma annotationAt_inside c q rest :
  (c = LPAREN → RPAREN ∈ q) → rest ≠ [] →
  annotationAt (c :: q ++ rest) = false.
Proof.
  intros Hc Hr. simpl. destruct (N.eqb_spec c LPAREN) as [->|_]; [|done].
  simpl. by apply annotationBody_early; [apply Hc|].
Qed.

Lemma stripAnnotation_annotated base ann :
  closedParens base → RPAREN ∉ ann →
  stripAnnotation (base ++ (LPAREN :: ann) ++ [RPAREN]) = base.
Proof.
  intros Hcl Hno. induction base as [|c base IH].
  - simpl. by rewrite annotationBody_closed.
  - change (stripAnnotation ((c :: base) ++ (LPAREN :: ann) ++ [RPAREN]))
      with (if annotationAt (c :: base ++ (LPAREN :: ann) ++ [RPAREN]) then []
            else c :: stripAnnotation (base ++ (LPAREN :: ann) ++ [RPAREN])).
    rewrite annotationAt_inside.
    + f_equal. apply IH. intros p q ->. apply (Hcl (c :: p) q). done.
    + intros ->. apply (Hcl [] base). done.
    + done.
Qed.

Lemma closedParens_no_paren base : LPAREN ∉ base → closedParens base.
Proof.
  intros Hno p q ->. exfalso. apply Hno. apply elem_of_app. right. by left.
Qed.


Example canonical_of_annotated :
  stripAnnotation (lit "Alice" ++ [LPAREN] ++ lit "Seer" ++ [RPAREN])
  = lit "Alice".
Proof. reflexivity. Qed.

Example canonical_of_plain : stripAnnotation (lit "Alice") = lit "Alice".
Proof. reflexivity. Qed.

(** C9 (amended): for every Speech block whose speaker name ends in a
    parenthetical annotation (full-width parentheses, no closing one inside,
    every earlier opening one closed before it), the annotation is stripped
    to obtain the canonical identity, and the rendered markup uses that
    canonical identity for the description, the portrait and the colour and
    also as the speaker name that is shown: the annotation does not appear
    in the markup. *)
Theorem renderBlock_canonical_name `{Browser}
    (charDescriptions : gmap jsstring jsstring) (base ann text : jsstring) :
  closedParens base → RPAREN ∉ ann →
  let name := base ++ (LPAREN :: ann) ++ [RPAREN] in
  stripAnnotation name = base
  ∧ renderBlock charDescriptions (Speech name text)
    = lineSpeechHtml charDescriptions base base base base text.
Proof.
  intros Hcl Hno name.
  assert (stripAnnotation name = base) as Hs
    by by apply stripAnnotation_annotated.
  split; [done|]. simpl. by rewrite Hs.
Qed.

Lemma renderBlock_canonical_name_witness :
  (closedParens (lit "Alice") ∧ RPAREN ∉ lit "Seer")
  ∧ stripAnnotation (lit "Alice" ++ (LPAREN :: lit "Seer") ++ [RPAREN])
    = lit "Alice".
Proof.
  assert (closedParens (lit "Alice")) as H1
    by (apply closedParens_no_paren; compute_done).
  assert (RPAREN ∉ lit "Seer") as H2 by compute_done.
  split; [split; [exact H1|exact H2]|].
  exact (proj1 (@renderBlock_canonical_name exampleBrowser ∅
                  (lit "Alice") (lit "Seer") (lit "Hi") H1 H2)).
Defined.

(** The markup of a speech of "Alice（Seer）" shows "Alice". *)
Lemma showsAnnotatedName_fails :
  ¬ @showsAnnotatedName exampleBrowser ∅ (lit "Alice") (lit "Seer") (lit "Hi").
Proof.
  unfold showsAnnotatedName. vm_compute. discriminate.
Qed.

(** ** The fetch list *)

Lemma toFetch_eq loaded sceneList activeScene :
  toFetch loaded sceneList activeScene
  = filter (λ name, name ∉ loaded) sceneList
    ++ match activeScene with
       | Some a => if truthy a && bool_decide (a ∈ loaded) then [a] else []
       | None => []
       end.
Proof.
  unfold toFetch. destruct activeScene as [a|]; simpl; [|by rewrite app_nil_r].
  destruct (truthy a && bool_decide (a ∈ loaded)) eqn:E; simpl;
    [|by rewrite app_nil_r].
  apply andb_true_iff in E as [_ Hin%bool_decide_eq_true].
  rewrite bool_decide_false; [done|].
  intros [Hn _]%list_elem_of_filter. done.
Qed.

Lemma truthy_iff s : truthy s = true ↔ s ≠ [].
Proof. by destruct s. Qed.

Lemma elem_of_toFetch loaded sceneList activeScene n :
  n ∈ toFetch loaded sceneList activeScene ↔
  (n ∈ sceneList ∧ n ∉ loaded)
  ∨ (activeScene = Some n ∧ n ≠ [] ∧ n ∈ loaded).
Proof.
  rewrite toFetch_eq, elem_of_app, list_elem_of_filter.
  split; intros [Hl|Hr]; [left; tauto| |left; tauto|].
  - right. destruct activeScene as [a|]; [|by apply elem_of_nil in Hr].
    destruct (truthy a && bool_decide (a ∈ loaded)) eqn:E;
      [|by apply elem_of_nil in Hr].
    apply list_elem_of_singleton in Hr as ->.
    apply andb_true_iff in E as [Ht%truthy_iff Hin%bool_decide_eq_true]. done.
  - right. destruct Hr as (-> & Hne & Hin).
    apply truthy_iff in Hne. rewrite Hne, bool_decide_true by done.
    by apply list_elem_of_singleton.
Qed.

Lemma toFetch_NoDup loaded sceneList activeScene :
  NoDup sceneList → NoDup (toFetch loaded sceneList activeScene).
Proof.
  intros Hnd. rewrite toFetch_eq. apply NoDup_app. split_and!.
  - by apply NoDup_filter.
  - intros n [Hn _]%list_elem_of_filter Hin.
    destruct activeScene as [a|]; [|by apply elem_of_nil in Hin].
    destruct (truthy a && bool_decide (a ∈ loaded)) eqn:E;
      [|by apply elem_of_nil in Hin].
    apply list_elem_of_singleton in Hin as ->.
    by apply andb_true_iff in E as [_ ?%bool_decide_eq_true].
  - destruct activeScene as [a|]; [|constructor].
    destruct (truthy a && bool_decide (a ∈ loaded)); [|constructor].
    apply NoDup_singleton.
Qed.

Example fetch_new_scene :
  toFetch {[lit "s1"; lit "s2"]} [lit "s1"; lit "s2"; lit "s3"] None
  = [lit "s3"].
Proof. by vm_compute. Qed.

Example fetch_active_scene :
  toFetch {[lit "s1"; lit "s2"]} [lit "s1"; lit "s2"; lit "s3"]
    (Some (lit "s1"))
  = [lit "s3"; lit "s1"].
Proof. by vm_compute. Qed.

(** ** Lists of handles and the invariant *)

Lemma filter_ne_absent (h : nat) (l : list nat) :
  h ∉ l → filter (λ c, c ≠ h) l = l.
Proof.
  induction l as [|x l IH]; intros Hn; [done|].
  rewrite filter_cons, decide_True.
  - f_equal. apply IH. intros ?. apply Hn. by right.
  - intros ->. apply Hn. by left.
Qed.

Lemma find_none_iff {A} (f : A → bool) (l : list A) :
  find f l = None ↔ ∀ x, x ∈ l → f x = false.
Proof.
  induction l as [|y l IH]; simpl.
  - split; [|done]. by intros _ x ?%elem_of_nil.
  - destruct (f y) eqn:E.
    + split; [done|]. intros Hall. rewrite Hall in E; [done|by left].
    + rewrite IH. split.
      * intros Hall x [->|?]%elem_of_cons; auto.
      * intros Hall x Hx. apply Hall. by right.
Qed.

Lemma find_some_elem {A} (f : A → bool) (l : list A) x :
  find f l = Some x → x ∈ l ∧ f x = true.
Proof. intros [?%list_elem_of_In ?]%find_some. done. Qed.

Lemma lookup_snoc_length {A} (l : list A) (x : A) :
  (l ++ [x]) !! length l = Some x.
Proof. by rewrite lookup_app_r, Nat.sub_diag. Qed.

Lemma alter_snoc_length {A} (f : A → A) (l : list A) (x : A) :
  alter f (length l) (l ++ [x]) = l ++ [f x].
Proof.
  replace (length l) with (length l + 0)%nat at 1 by lia.
  by rewrite alter_app_r.
Qed.

Lemma omap_ext_elem {A B} (f g : A → option B) (l : list A) :
  (∀ x, x ∈ l → f x = g x) → omap f l = omap g l.
Proof.
  induction l as [|x l IH]; intros Hext; [done|].
  change (omap f (x :: l))
    with (match f x with Some y => y :: omap f l | None => omap f l end).
  change (omap g (x :: l))
    with (match g x with Some y => y :: omap g l | None => omap g l end).
  rewrite (Hext x) by (by left). rewrite IH; [done|].
  intros y Hy. apply Hext. by right.
Qed.

Lemma wf_unfold v :
  wf v ↔
  (∀ name div, sceneDivs v !! name = Some div →
     div ∈ scenes v
     ∧ dataset_scene <$> elements v !! div = Some (Some name)
     ∧ el_id <$> elements v !! div = Some [])
  ∧ (∀ h, h ∈ scenes v → (h < length (elements v))%nat)
  ∧ NoDup (scenes v)
  ∧ (∀ h1 h2, h1 ∈ scenes v → h2 ∈ scenes v →
       isIndicator v h1 = true → isIndicator v h2 = true → h1 = h2).
Proof.
  unfold wf, map_Forall. rewrite !Forall_forall.
  split; intros (H1 & H2 & H3 & H4); split_and!; try done.
  - intros h1 h2 Hh1 Hh2. specialize (H4 h1 Hh1).
    rewrite Forall_forall in H4. by apply H4.
  - intros h1 Hh1. apply Forall_forall. intros h2 Hh2. by apply H4.
Qed.

Lemma fresh_handle (v : viewer) :
  wf v → length (elements v) ∉ scenes v.
Proof.
  intros (_ & Hlt & _)%wf_unfold Hin. apply Hlt in Hin. lia.
Qed.


(** The five branches of [applyScene], for the facts that hold in each by
    computation. *)
Ltac applyScene_cases v sc :=
  unfold applyScene;
  destruct (sceneDivs v !! scene_name sc) as [?|];
    [|destruct (inheritedProperty (protoInnerHTML v) (scene_name sc))
        as [[| |?s]|]; [| |destruct (truthy s)|]];
  try discriminate; intros [= <-].

Section ViewerFacts.
Context `{Browser}.

(** ** What each step leaves alone, and what it adds to the trace *)

Lemma fetches_app es1 es2 : fetches (es1 ++ es2) = fetches es1 ++ fetches es2.
Proof. unfold fetches. apply omap_app. Qed.

Lemma fetches_map_Fetch urls : fetches (map Fetch urls) = urls.
Proof. induction urls as [|u urls IH]; [done|]. simpl. by rewrite <- IH at 2. Qed.

(** A property that every applied scene keeps is kept by the loop. *)
Lemma applyScenes_preserves (P : viewer → Prop) results v :
  (∀ w sc w', P w → applyScene w sc = Some w' → P w') →
  P v → P (snd (applyScenes results v)).
Proof.
  intros Hstep. revert v.
  induction results as [|sc results IH]; intros v Hv; [done|].
  simpl. destruct (applyScene v sc) as [v'|] eqn:E; [|done].
  by apply IH, (Hstep v sc).
Qed.

Lemma applyScene_trace v sc v' : applyScene v sc = Some v' → trace v' = trace v.
Proof. by applyScene_cases v sc. Qed.

Lemma applyScene_userScrolledUp v sc v' :
  applyScene v sc = Some v' → userScrolledUp v' = userScrolledUp v.
Proof. by applyScene_cases v sc. Qed.

Lemma applyScenes_trace results v :
  trace (snd (applyScenes results v)) = trace v.
Proof.
  apply (applyScenes_preserves (λ w, trace w = trace v)); [|done].
  intros w sc w' Hw Ha. by rewrite (applyScene_trace _ _ _ Ha).
Qed.

Lemma applyScenes_userScrolledUp results v :
  userScrolledUp (snd (applyScenes results v)) = userScrolledUp v.
Proof.
  apply (applyScenes_preserves (λ w, userScrolledUp w = userScrolledUp v));
    [|done].
  intros w sc w' Hw Ha. by rewrite (applyScene_userScrolledUp _ _ _ Ha).
Qed.

(** What [applyScene] leaves alone. *)
Lemma applyScene_frame v sc v' :
  applyScene v sc = Some v' →
  lastHash v' = lastHash v
  ∧ isTyping v' = isTyping v
  ∧ disconnected v' = disconnected v
  ∧ sidebar v' = sidebar v
  ∧ charDescriptions v' = charDescriptions v.
Proof. by applyScene_cases v sc. Qed.

Lemma applyScenes_frame results v :
  lastHash (snd (applyScenes results v)) = lastHash v
  ∧ isTyping (snd (applyScenes results v)) = isTyping v
  ∧ disconnected (snd (applyScenes results v)) = disconnected v
  ∧ sidebar (snd (applyScenes results v)) = sidebar v
  ∧ charDescriptions (snd (applyScenes results v)) = charDescriptions v.
Proof.
  apply (applyScenes_preserves
           (λ w, lastHash w = lastHash v ∧ isTyping w = isTyping v
                 ∧ disconnected w = disconnected v ∧ sidebar w = sidebar v
                 ∧ charDescriptions w = charDescriptions v)); [|done].
  intros w sc w' (<- & <- & <- & <- & <-) Ha. by apply applyScene_frame in Ha.
Qed.

(** The four ways in which [loadScenes] ends. *)
Lemma loadScenes_cases srv sceneList activeScene v :
  let names := toFetch (loadedScenes v) sceneList activeScene in
  let v0 := emit (map (fun name => Fetch (sceneUrl name)) names) v in
  (names = [] ∧ loadScenes srv sceneList activeScene v = v)
  ∨ (names ≠ []
     ∧ mapM (fun name => api_scene srv (sceneUrl name)) names = None
     ∧ loadScenes srv sceneList activeScene v = emit [ConsoleError] v0)
  ∨ (names ≠ []
     ∧ ∃ results,
         mapM (fun name => api_scene srv (sceneUrl name)) names = Some results
         ∧ ((fst (applyScenes results v0) = Fulfilled
             ∧ loadScenes srv sceneList activeScene v
               = scrollToBottom (snd (applyScenes results v0)))
            ∨ (fst (applyScenes results v0) = Rejected
               ∧ loadScenes srv sceneList activeScene v
                 = emit [ConsoleError] (snd (applyScenes results v0))))).
Proof.
  intros names v0. unfold loadScenes. fold names. fold v0.
  case_bool_decide as Hlen.
  { left. split; [by apply nil_length_inv|done]. }
  assert (names ≠ []) as Hne by (by intros Hn; rewrite Hn in Hlen).
  right. destruct (mapM _ names) as [results|]; [right|by left].
  split; [done|]. exists results. split; [done|].
  destruct (applyScenes results v0) as [[|] w]; [by left|by right].
Qed.

Lemma scrollToBottom_frame v :
  lastHash (scrollToBottom v) = lastHash v
  ∧ isTyping (scrollToBottom v) = isTyping v
  ∧ disconnected (scrollToBottom v) = disconnected v
  ∧ sidebar (scrollToBottom v) = sidebar v
  ∧ loadedScenes (scrollToBottom v) = loadedScenes v
  ∧ sceneDivs (scrollToBottom v) = sceneDivs v
  ∧ elements (scrollToBottom v) = elements v
  ∧ scenes (scrollToBottom v) = scenes v.
Proof. unfold scrollToBottom. by destruct (userScrolledUp v). Qed.

Lemma scrollToBottom_trace v :
  ∃ tail, trace (scrollToBottom v) = trace v ++ tail ∧ fetches tail = [].
Proof.
  unfold scrollToBottom. destruct (userScrolledUp v).
  - exists []. by rewrite app_nil_r.
  - by exists [ScrollToBottom].
Qed.

(** The trace of [loadScenes]: one request per name of the fetch list, in
    order, and then no further request. *)
Lemma loadScenes_trace srv sceneList activeScene v :
  ∃ tail,
    trace (loadScenes srv sceneList activeScene v)
    = trace v
      ++ map (fun name => Fetch (sceneUrl name))
             (toFetch (loadedScenes v) sceneList activeScene)
      ++ tail
    ∧ fetches tail = [].
Proof.
  destruct (loadScenes_cases srv sceneList activeScene v)
    as [[-> ->]|[(_ & _ & ->)|(_ & results & _ & [[_ ->]|[_ ->]])]].
  - exists []. simpl. by rewrite app_nil_r.
  - exists [ConsoleError]. simpl. by rewrite <- app_assoc.
  - destruct (scrollToBottom_trace
                (snd (applyScenes results
                        (emit (map (fun name => Fetch (sceneUrl name))
                                 (toFetch (loadedScenes v) sceneList
                                    activeScene)) v))))
      as (tail & -> & Htail).
    exists tail. rewrite applyScenes_trace. simpl. by rewrite <- app_assoc.
  - exists [ConsoleError]. cbn [trace emit]. rewrite applyScenes_trace.
    simpl. by rewrite <- app_assoc.
Qed.

Lemma loadScenes_frame srv sceneList activeScene v :
  lastHash (loadScenes srv sceneList activeScene v) = lastHash v
  ∧ isTyping (loadScenes srv sceneList activeScene v) = isTyping v
  ∧ disconnected (loadScenes srv sceneList activeScene v) = disconnected v
  ∧ sidebar (loadScenes srv sceneList activeScene v) = sidebar v.
Proof.
  destruct (loadScenes_cases srv sceneList activeScene v)
    as [[_ ->]|[(_ & _ & ->)|(_ & results & _ & [[_ ->]|[_ ->]])]];
    [done|done| |].
  - destruct (scrollToBottom_frame
                (snd (applyScenes results
                        (emit (map (fun name => Fetch (sceneUrl name))
                                 (toFetch (loadedScenes v) sceneList
                                    activeScene)) v))))
      as (-> & -> & -> & -> & _).
    by destruct (applyScenes_frame results
                   (emit (map (fun name => Fetch (sceneUrl name))
                            (toFetch (loadedScenes v) sceneList activeScene))
                      v)) as (-> & -> & -> & -> & _).
  - cbn [lastHash isTyping disconnected sidebar emit].
    by destruct (applyScenes_frame results
                   (emit (map (fun name => Fetch (sceneUrl name))
                            (toFetch (loadedScenes v) sceneList activeScene))
                      v)) as (-> & -> & -> & -> & _).
Qed.

Lemma renderTypingIndicator_frame typingData v :
  lastHash (renderTypingIndicator typingData v) = lastHash v
  ∧ isTyping (renderTypingIndicator typingData v) = isTyping v
  ∧ disconnected (renderTypingIndicator typingData v) = disconnected v
  ∧ sidebar (renderTypingIndicator typingData v) = sidebar v
  ∧ loadedScenes (renderTypingIndicator typingData v) = loadedScenes v
  ∧ sceneDivs (renderTypingIndicator typingData v) = sceneDivs v.
Proof.
  unfold renderTypingIndicator.
  destruct (typingNpc typingData) as [n|];
    destruct (getElementById (lit "typing-indicator") v) as [e|];
    try done; unfold scrollToBottom; simpl;
    by destruct (userScrolledUp v).
Qed.

Lemma renderTypingIndicator_trace typingData v :
  ∃ tail,
    trace (renderTypingIndicator typingData v) = trace v ++ tail
    ∧ fetches tail = [].
Proof.
  unfold renderTypingIndicator.
  destruct (typingNpc typingData) as [n|];
    destruct (getElementById (lit "typing-indicator") v) as [e|];
    try (exists []; by rewrite app_nil_r);
    unfold scrollToBottom; simpl; destruct (userScrolledUp v);
    try (exists []; by rewrite app_nil_r); by exists [ScrollToBottom].
Qed.

(** ** [update] and [poll] case by case *)

Lemma update_rejected srv v :
  api_state srv = None ∨ api_scenes srv = None →
  update srv v = (Rejected, emit refreshRequests v).
Proof.
  unfold update. intros [-> | ->]; [done|]. by destruct (api_state srv).
Qed.

Lemma update_fulfilled srv v state sceneList :
  api_state srv = Some state → api_scenes srv = Some sceneList →
  update srv v
  = (Fulfilled,
     let typingData := typingPayload srv in
     let typing := bool_decide (is_Some (typingNpc typingData)) in
     renderTypingIndicator typingData
       (loadScenes srv sceneList
          (if typing then typingData ≫= scene else None)
          (renderSidebar state
             (set_isTyping typing (emit refreshRequests v))))).
Proof. unfold update. by intros -> ->. Qed.

Lemma update_outcome srv v :
  fst (update srv v) = Rejected ↔ api_state srv = None ∨ api_scenes srv = None.
Proof.
  destruct (api_state srv) as [state|] eqn:Es;
    [destruct (api_scenes srv) as [sceneList|] eqn:El|].
  - rewrite (update_fulfilled _ _ _ _ Es El). simpl.
    split; [done|]. by intros [?|?].
  - rewrite update_rejected by auto. simpl. split; auto.
  - rewrite update_rejected by auto. simpl. split; auto.
Qed.

Lemma update_trace srv v :
  ∃ tail, trace (snd (update srv v)) = trace v ++ refreshRequests ++ tail.
Proof.
  destruct (api_state srv) as [state|] eqn:Es;
    [destruct (api_scenes srv) as [sceneList|] eqn:El|].
  - rewrite (update_fulfilled _ _ _ _ Es El). cbv zeta. cbn [snd].
    destruct (renderTypingIndicator_trace (typingPayload srv)
      (loadScenes srv sceneList
         (if bool_decide (is_Some (typingNpc (typingPayload srv)))
          then typingPayload srv ≫= scene else None)
         (renderSidebar state
            (set_isTyping (bool_decide (is_Some (typingNpc (typingPayload srv))))
               (emit refreshRequests v))))) as (t1 & -> & _).
    destruct (loadScenes_trace srv sceneList
         (if bool_decide (is_Some (typingNpc (typingPayload srv)))
          then typingPayload srv ≫= scene else None)
         (renderSidebar state
            (set_isTyping (bool_decide (is_Some (typingNpc (typingPayload srv))))
               (emit refreshRequests v)))) as (t2 & -> & _).
    simpl. eexists. rewrite <- !app_assoc. simpl. reflexivity.
  - rewrite update_rejected by auto. by exists [].
  - rewrite update_rejected by auto. by exists [].
Qed.

Lemma update_frame srv v :
  lastHash (snd (update srv v)) = lastHash v
  ∧ disconnected (snd (update srv v)) = disconnected v.
Proof.
  destruct (api_state srv) as [state|] eqn:Es;
    [destruct (api_scenes srv) as [sceneList|] eqn:El|];
    [|by rewrite update_rejected by auto..].
  rewrite (update_fulfilled _ _ _ _ Es El). cbv zeta. cbn [snd].
  match goal with |- context [renderTypingIndicator ?t ?w] =>
    destruct (renderTypingIndicator_frame t w) as (-> & _ & -> & _) end.
  match goal with |- context [loadScenes ?s ?l ?a ?w] =>
    destruct (loadScenes_frame s l a w) as (-> & _ & -> & _) end.
  done.
Qed.


Lemma poll_failed srv v :
  api_hash srv = None →
  poll srv v
  = schedule (markDisconnected (emit [Fetch (lit "/api/hash")] v)).
Proof. unfold poll. by intros ->. Qed.

Lemma poll_unchanged srv v hash :
  api_hash srv = Some hash → lastHash v = Some hash →
  poll srv v = schedule (afterHash v).
Proof.
  unfold poll. intros -> Hl. cbn [lastHash emit set_disconnected].
  by rewrite Hl, bool_decide_false by (by intros ?).
Qed.

Lemma poll_changed srv v hash :
  api_hash srv = Some hash → lastHash v ≠ Some hash →
  poll srv v
  = schedule
      (match fst (update srv (set_lastHash (Some hash) (afterHash v))) with
       | Rejected =>
           markDisconnected
             (snd (update srv (set_lastHash (Some hash) (afterHash v))))
       | Fulfilled => snd (update srv (set_lastHash (Some hash) (afterHash v)))
       end).
Proof.
  unfold poll. intros -> Hl. cbn [lastHash emit set_disconnected].
  rewrite bool_decide_true by (by intros ?).
  fold (afterHash v).
  by destruct (update srv (set_lastHash (Some hash) (afterHash v)))
    as [[|] v1].
Qed.



Lemma poll_unchanged_trace srv v hash :
  api_hash srv = Some hash → lastHash v = Some hash →
  lastHash (poll srv v) = lastHash v
  ∧ trace (poll srv v)
    = trace v ++ [Fetch (lit "/api/hash"); RemoveDisconnected;
                  SetTimeout (pollInterval v)].
Proof.
  intros Hh Hl. rewrite (poll_unchanged _ _ _ Hh Hl). split; [done|].
  simpl. by rewrite <- !app_assoc.
Qed.

Lemma poll_changed_trace srv v hash :
  api_hash srv = Some hash → lastHash v ≠ Some hash →
  lastHash (poll srv v) = Some hash
  ∧ ∃ tail,
      trace (poll srv v)
      = trace v ++ [Fetch (lit "/api/hash"); RemoveDisconnected]
        ++ refreshRequests ++ tail
        ++ [SetTimeout (pollInterval (poll srv v))].
Proof.
  intros Hh Hl. rewrite (poll_changed _ _ _ Hh Hl).
  set (v0 := set_lastHash (Some hash) (afterHash v)).
  destruct (update_frame srv v0) as [Hlast _].
  destruct (update_trace srv v0) as (tail & Htr).
  unfold schedule, markDisconnected.
  destruct (fst (update srv v0));
    cbn [lastHash trace emit set_disconnected]; rewrite Hlast, Htr;
    (split; [done|]).
  - exists tail. cbn [trace afterHash set_lastHash emit set_disconnected v0].
    by rewrite <- !app_assoc.
  - exists (tail ++ [AddDisconnected]).
    cbn [trace afterHash set_lastHash emit set_disconnected v0].
    by rewrite <- !app_assoc.
Qed.

Lemma poll_failed_trace srv v :
  api_hash srv = None →
  disconnected (poll srv v) = true
  ∧ lastHash (poll srv v) = lastHash v
  ∧ trace (poll srv v)
    = trace v ++ [Fetch (lit "/api/hash"); AddDisconnected;
                  SetTimeout (pollInterval v)].
Proof.
  intros Hh. rewrite (poll_failed _ _ Hh). split_and!; [done|done|].
  simpl. by rewrite <- !app_assoc.
Qed.

Lemma poll_disconnected srv v :
  disconnected (poll srv v) = true ↔
  api_hash srv = None
  ∨ ∃ hash, api_hash srv = Some hash ∧ lastHash v ≠ Some hash
            ∧ (api_state srv = None ∨ api_scenes srv = None).
Proof.
  destruct (api_hash srv) as [hash|] eqn:Hh.
  - destruct (decide (lastHash v = Some hash)) as [Hl|Hl].
    + rewrite (poll_unchanged _ _ _ Hh Hl). simpl. split; [done|].
      intros [?|(h & [= <-] & ? & _)]; done.
    + rewrite (poll_changed _ _ _ Hh Hl).
      set (v0 := set_lastHash (Some hash) (afterHash v)).
      destruct (update_frame srv v0) as [_ Hd].
      pose proof (update_outcome srv v0) as Ho.
      destruct (fst (update srv v0)); simpl.
      * rewrite Hd. simpl. split; [done|].
        intros [?|(h & _ & _ & Hf)]; [done|]. by apply Ho in Hf.
      * split; [|done]. intros _. right. exists hash. split_and!; [done..|].
        by apply Ho.
  - rewrite (poll_failed _ _ Hh). simpl. split; auto.
Qed.

Lemma poll_schedules srv v :
  ∃ es, trace (poll srv v)
        = trace v ++ Fetch (lit "/api/hash") :: es
          ++ [SetTimeout (pollInterval (poll srv v))].
Proof.
  destruct (api_hash srv) as [hash|] eqn:Hh.
  - destruct (decide (lastHash v = Some hash)) as [Hl|Hl].
    + destruct (poll_unchanged_trace srv v hash Hh Hl) as (_ & ->).
      exists [RemoveDisconnected]. by rewrite (poll_unchanged _ _ _ Hh Hl).
    + destruct (poll_changed_trace srv v hash Hh Hl) as (_ & tail & ->).
      by exists (RemoveDisconnected :: refreshRequests ++ tail).
  - destruct (poll_failed_trace srv v Hh) as (_ & _ & ->).
    exists [AddDisconnected]. by rewrite (poll_failed _ _ Hh).
Qed.

(** A refresh that was rejected is not tried again at the next turn when
    the fingerprint is still the same: the new fingerprint was stored before
    the refresh started. *)
Lemma failed_refresh_not_retried srv srv' v hash :
  api_hash srv = Some hash → lastHash v ≠ Some hash →
  api_hash srv' = Some hash →
  fetches (trace (poll srv' (poll srv v)))
  = fetches (trace (poll srv v)) ++ [lit "/api/hash"].
Proof.
  intros Hh Hl Hh'.
  destruct (poll_changed_trace srv v hash Hh Hl) as (Hlast & _).
  destruct (poll_unchanged_trace srv' (poll srv v) hash Hh' Hlast) as (_ & ->).
  by rewrite fetches_app.
Qed.

(** ** Inherited properties *)

Lemma str_eqb_eq s t : str_eqb s t = true ↔ s = t.
Proof.
  revert t. induction s as [|c s IH]; intros [|d t]; simpl; try done.
  rewrite andb_true_iff, N.eqb_eq, IH. split; [by intros [-> ->]|].
  by intros [= -> ->].
Qed.

Lemma str_eqb_neq s t : str_eqb s t = false ↔ s ≠ t.
Proof.
  rewrite <- not_true_iff_false. by rewrite str_eqb_eq.
Qed.

Lemma existsb_str_eqb key l : existsb (str_eqb key) l = true ↔ key ∈ l.
Proof.
  rewrite existsb_exists. split.
  - intros (x & Hx & ->%str_eqb_eq). by apply list_elem_of_In.
  - intros Hin. exists key. split; [by apply list_elem_of_In|].
    by apply str_eqb_eq.
Qed.

(** What the lookup finds, by the kind of the key. *)
Lemma inheritedProperty_spec proto name :
  match inheritedProperty proto name with
  | Some PrototypeMethod | Some ThePrototype => inheritedName name
  | Some (PrototypeString s) =>
      ¬ inheritedName name ∧ name = lit "innerHTML" ∧ proto = Some s
  | None => ¬ inheritedName name
  end.
Proof.
  unfold inheritedProperty, inheritedName.
  destruct (str_eqb name (lit "__proto__")) eqn:E1.
  { left. by apply str_eqb_eq. }
  apply str_eqb_neq in E1.
  destruct (existsb (str_eqb name) OBJECT_PROTOTYPE_METHODS) eqn:E2.
  { right. by apply existsb_str_eqb. }
  assert (name ∉ OBJECT_PROTOTYPE_METHODS) as Hn.
  { intros Hin%existsb_str_eqb. congruence. }
  destruct (str_eqb name (lit "innerHTML")) eqn:E3.
  - apply str_eqb_eq in E3. destruct proto as [s|]; simpl.
    + split_and!; [|done..]. by intros [?|?].
    + by intros [?|?].
  - by intros [?|?].
Qed.

Lemma inheritedProperty_inherited proto name :
  inheritedName name →
  inheritedProperty proto name = Some PrototypeMethod
  ∨ inheritedProperty proto name = Some ThePrototype.
Proof.
  intros Hi. pose proof (inheritedProperty_spec proto name) as Hs.
  destruct (inheritedProperty proto name) as [[| |s]|]; [by left|by right|..].
  - by destruct Hs.
  - done.
Qed.

Lemma lookup_list_to_map_omap {A B} (f : jsstring → option A)
    (g : jsstring → A → B) (l : list jsstring) (key : jsstring) :
  (list_to_map (omap (λ k, (λ x, (k, g k x)) <$> f k) l) : gmap jsstring B)
    !! key
  = if decide (key ∈ l) then g key <$> f key else None.
Proof.
  induction l as [|k l IH]; [by rewrite decide_False by apply not_elem_of_nil|].
  change (omap (λ k, (λ x, (k, g k x)) <$> f k) (k :: l))
    with (match (λ x, (k, g k x)) <$> f k with
          | Some y => y :: omap (λ k, (λ x, (k, g k x)) <$> f k) l
          | None => omap (λ k, (λ x, (k, g k x)) <$> f k) l
          end).
  destruct (decide (key = k)) as [->|Hne].
  - rewrite decide_True by by left.
    destruct (f k) as [b|] eqn:E; simpl.
    + by rewrite lookup_insert_eq.
    + rewrite IH, ?E. by destruct (decide (k ∈ l)).
  - destruct (f k) as [b|]; simpl.
    + rewrite lookup_insert_ne by done. rewrite IH.
      destruct (decide (key ∈ l)) as [Hin|Hin].
      * by rewrite decide_True by by right.
      * rewrite decide_False; [done|]. by intros [?|?]%elem_of_cons.
    + rewrite IH. destruct (decide (key ∈ l)) as [Hin|Hin].
      * by rewrite decide_True by by right.
      * rewrite decide_False; [done|]. by intros [?|?]%elem_of_cons.
Qed.

(** The dictionary that the renderer is given is what the lookup
    [charDescriptions[key]] finds: the property of the object itself, or
    else the inherited value as a string. *)
Lemma visibleDescriptions_lookup v key :
  visibleDescriptions v !! key
  = match charDescriptions v !! key with
    | Some d => Some d
    | None =>
        inheritedText key <$> inheritedProperty (protoInnerHTML v) key
    end.
Proof.
  unfold visibleDescriptions. rewrite lookup_union.
  destruct (charDescriptions v !! key) as [d|]; [by rewrite union_Some_l|].
  rewrite (left_id_L None union).
  unfold inheritedDescriptions.
  rewrite (lookup_list_to_map_omap
             (λ k, inheritedProperty (protoInnerHTML v) k) inheritedText).
  destruct (decide _) as [Hin|Hin]; [done|].
    pose proof (inheritedProperty_spec (protoInnerHTML v) key) as Hs.
    destruct (inheritedProperty (protoInnerHTML v) key) as [[| |s]|];
      [| | |done]; exfalso; apply Hin.
  - destruct Hs as [->|?]; [by left|]. by do 2 right.
  - destruct Hs as [->|?]; [by left|]. by do 2 right.
  - destruct Hs as (_ & -> & _). right. by left.
Qed.

Lemma noBlockFound_not_inherited v name :
  noBlockFound v name → ¬ inheritedName name.
Proof.
  intros [_ Hn]. pose proof (inheritedProperty_spec (protoInnerHTML v) name).
  destruct (inheritedProperty (protoInnerHTML v) name) as [[| |s]|];
    [done|done|tauto|done].
Qed.

(** ** [applyScene], case by case *)

Lemma applyScene_existing v sc div :
  sceneDivs v !! scene_name sc = Some div →
  applyScene v sc
  = Some (set_loadedScenes ({[scene_name sc]} ∪ loadedScenes v)
            (set_elements
               (alter (set_innerHTML (sceneHtml v sc)) div (elements v)) v)).
Proof. unfold applyScene. by intros ->. Qed.

Lemma createSceneDiv_new v name html :
  wf v →
  createSceneDiv name html v
  = set_sceneDivs (<[name := length (elements v)]> (sceneDivs v))
      (set_scenes (scenes v ++ [length (elements v)])
         (set_elements (elements v ++ [sceneBlock name html]) v)).
Proof.
  intros Hwf. unfold createSceneDiv, createElement, update_element, appendChild.
  cbn [elements scenes sceneDivs loadedScenes set_elements set_scenes
       set_sceneDivs set_loadedScenes].
  rewrite !alter_snoc_length, (filter_ne_absent _ _ (fresh_handle v Hwf)).
  reflexivity.
Qed.

Lemma applyScene_new v sc :
  wf v → noBlockFound v (scene_name sc) →
  applyScene v sc
  = Some (set_loadedScenes ({[scene_name sc]} ∪ loadedScenes v)
            (set_sceneDivs
               (<[scene_name sc := length (elements v)]> (sceneDivs v))
               (set_scenes (scenes v ++ [length (elements v)])
                  (set_elements
                     (elements v
                      ++ [sceneBlock (scene_name sc) (sceneHtml v sc)])
                     v)))).
Proof.
  intros Hwf [Hnone Hin]. unfold applyScene. rewrite Hnone.
  fold (sceneHtml v sc).
  destruct (inheritedProperty (protoInnerHTML v) (scene_name sc))
    as [[| |s]|]; [done|done| |];
    [rewrite Hin|]; by rewrite (createSceneDiv_new _ _ _ Hwf).
Qed.

(** A scene named like a method of every object: the markup goes to the
    method, nothing is displayed, and the scene counts as loaded. *)
Lemma applyScene_method v sc :
  sceneDivs v !! scene_name sc = None →
  inheritedProperty (protoInnerHTML v) (scene_name sc) = Some PrototypeMethod →
  applyScene v sc
  = Some (set_loadedScenes ({[scene_name sc]} ∪ loadedScenes v) v).
Proof. unfold applyScene. by intros -> ->. Qed.

(** A scene named [__proto__]: the markup goes to [Object.prototype]. *)
Lemma applyScene_prototype v sc :
  sceneDivs v !! scene_name sc = None →
  inheritedProperty (protoInnerHTML v) (scene_name sc) = Some ThePrototype →
  applyScene v sc
  = Some (set_loadedScenes ({[scene_name sc]} ∪ loadedScenes v)
            (set_protoInnerHTML (Some (sceneHtml v sc)) v)).
Proof. unfold applyScene. by intros -> ->. Qed.

(** A scene named [innerHTML] after that: the write to a string throws. *)
Lemma applyScene_throws v sc s :
  sceneDivs v !! scene_name sc = None →
  inheritedProperty (protoInnerHTML v) (scene_name sc)
  = Some (PrototypeString s) →
  truthy s = true →
  applyScene v sc = None.
Proof. unfold applyScene. by intros -> -> ->. Qed.

Lemma applyScene_None v sc :
  applyScene v sc = None →
  scene_name sc = lit "innerHTML"
  ∧ sceneDivs v !! scene_name sc = None
  ∧ ∃ s, protoInnerHTML v = Some s ∧ s ≠ [].
Proof.
  unfold applyScene.
  pose proof (inheritedProperty_spec (protoInnerHTML v) (scene_name sc)) as Hs.
  destruct (sceneDivs v !! scene_name sc) as [div|]; [done|].
  destruct (inheritedProperty (protoInnerHTML v) (scene_name sc))
    as [[| |s]|]; [done|done| |done].
  destruct (truthy s) eqn:E; [|done]. intros _.
  destruct Hs as (_ & -> & Hp). split_and!; [done..|].
  exists s. split; [done|]. by apply truthy_iff.
Qed.

(** Every way in which [applyScene] returns. *)
Lemma applyScene_Some v sc v' :
  wf v → applyScene v sc = Some v' →
  (∃ div, sceneDivs v !! scene_name sc = Some div
          ∧ v' = set_loadedScenes ({[scene_name sc]} ∪ loadedScenes v)
                   (set_elements
                      (alter (set_innerHTML (sceneHtml v sc)) div (elements v))
                      v))
  ∨ (noBlockFound v (scene_name sc)
     ∧ v' = set_loadedScenes ({[scene_name sc]} ∪ loadedScenes v)
              (set_sceneDivs
                 (<[scene_name sc := length (elements v)]> (sceneDivs v))
                 (set_scenes (scenes v ++ [length (elements v)])
                    (set_elements
                       (elements v
                        ++ [sceneBlock (scene_name sc) (sceneHtml v sc)])
                       v))))
  ∨ (sceneDivs v !! scene_name sc = None ∧ inheritedName (scene_name sc)
     ∧ (v' = set_loadedScenes ({[scene_name sc]} ∪ loadedScenes v) v
        ∨ v' = set_loadedScenes ({[scene_name sc]} ∪ loadedScenes v)
                 (set_protoInnerHTML (Some (sceneHtml v sc)) v))).
Proof.
  intros Hwf Ha.
  destruct (sceneDivs v !! scene_name sc) as [div|] eqn:E.
  { left. exists div. split; [done|].
    rewrite (applyScene_existing _ _ _ E) in Ha. by injection Ha. }
  right.
  pose proof (inheritedProperty_spec (protoInnerHTML v) (scene_name sc)) as Hs.
  destruct (inheritedProperty (protoInnerHTML v) (scene_name sc))
    as [[| |s]|] eqn:Ei.
  - right. rewrite (applyScene_method _ _ E Ei) in Ha. injection Ha as <-.
    split_and!; [done..|by left].
  - right. rewrite (applyScene_prototype _ _ E Ei) in Ha. injection Ha as <-.
    split_and!; [done..|by right].
  - destruct (truthy s) eqn:Et.
    { by rewrite (applyScene_throws _ _ _ E Ei Et) in Ha. }
    assert (noBlockFound v (scene_name sc)) as Hn
      by (split; [done|by rewrite Ei]).
    left. split; [done|].
    rewrite (applyScene_new _ _ Hwf Hn) in Ha. by injection Ha.
  - assert (noBlockFound v (scene_name sc)) as Hn
      by (split; [done|by rewrite Ei]).
    left. split; [done|].
    rewrite (applyScene_new _ _ Hwf Hn) in Ha. by injection Ha.
Qed.

Lemma isIndicator_ext v v' h :
  el_id <$> elements v' !! h = el_id <$> elements v !! h →
  isIndicator v' h = isIndicator v h.
Proof.
  unfold isIndicator.
  destruct (elements v' !! h), (elements v !! h); simpl; congruence.
Qed.

Lemma lookup_alter_innerHTML {A} (proj : element → A) html div
    (l : list element) d :
  (∀ e, proj (set_innerHTML html e) = proj e) →
  proj <$> alter (set_innerHTML html) div l !! d = proj <$> l !! d.
Proof.
  intros Hp. destruct (decide (d = div)) as [->|Hne].
  - rewrite list_lookup_alter, decide_True by done.
    destruct (l !! div) as [e|]; [|done].
    cbn. by rewrite Hp.
  - by rewrite list_lookup_alter_ne.
Qed.

Lemma wf_applyScene v sc v' : wf v → applyScene v sc = Some v' → wf v'.
Proof.
  intros Hwf Ha. pose proof Hwf as (Hdivs & Hlt & Hnd & Hind)%wf_unfold.
  destruct (applyScene_Some _ _ _ Hwf Ha)
    as [(div & E & ->)|[(Hn & ->)|(_ & _ & [-> | ->])]]; [| |done|done];
    apply wf_unfold.
  - cbn [elements scenes sceneDivs set_elements set_loadedScenes].
    split_and!; [|by rewrite length_alter|done|].
    + intros name d Hd. destruct (Hdivs name d Hd) as (? & ? & ?).
      by rewrite !lookup_alter_innerHTML.
    + intros h1 h2 Hh1 Hh2.
      assert (∀ h, isIndicator
                     (set_loadedScenes ({[scene_name sc]} ∪ loadedScenes v)
                        (set_elements
                           (alter (set_innerHTML (sceneHtml v sc)) div
                              (elements v)) v)) h
                   = isIndicator v h) as Hsame.
      { intros h. apply isIndicator_ext.
        cbn [elements set_elements set_loadedScenes].
        by rewrite lookup_alter_innerHTML. }
      rewrite !Hsame. by apply Hind.
  - cbn [elements scenes sceneDivs set_elements set_loadedScenes
         set_sceneDivs set_scenes].
    assert (∀ w, elements w
                 = elements v ++ [sceneBlock (scene_name sc) (sceneHtml v sc)]
                 → ∀ h, h ∈ scenes v → isIndicator w h = isIndicator v h)
      as Hold.
    { intros w Hw h Hh%Hlt. apply isIndicator_ext.
      by rewrite Hw, lookup_app_l. }
    assert (∀ w, elements w
                 = elements v ++ [sceneBlock (scene_name sc) (sceneHtml v sc)]
                 → isIndicator w (length (elements v)) = false) as Hnew.
    { intros w Hw. unfold isIndicator. by rewrite Hw, lookup_snoc_length. }
    split_and!.
    + intros name d [[<- <-]|[Hne Hd]]%lookup_insert_Some.
      * split_and!; [apply elem_of_app; right; by left|..];
          by rewrite lookup_snoc_length.
      * destruct (Hdivs name d Hd) as (Hin & ? & ?).
        rewrite lookup_app_l by by apply Hlt.
        split_and!; [apply elem_of_app; by left|done|done].
    + rewrite length_app. simpl.
      intros h [Hh%Hlt|Hh%list_elem_of_singleton]%elem_of_app; lia.
    + apply NoDup_app. split_and!; [done| |apply NoDup_singleton].
      intros h Hh%Hlt Hh'%list_elem_of_singleton. lia.
    + intros h1 h2 [Hh1|Hh1%list_elem_of_singleton]%elem_of_app
                   [Hh2|Hh2%list_elem_of_singleton]%elem_of_app; subst;
        match goal with |- context [isIndicator ?w _] => set (w0 := w) end.
      * rewrite (Hold w0 eq_refl h1 Hh1), (Hold w0 eq_refl h2 Hh2).
        by apply Hind.
      * intros _. by rewrite (Hnew w0 eq_refl).
      * by rewrite (Hnew w0 eq_refl).
      * done.
Qed.

Lemma wf_applyScenes results v :
  wf v → wf (snd (applyScenes results v)).
Proof.
  apply applyScenes_preserves. intros w sc w' Hw Ha.
  by apply (wf_applyScene w sc).
Qed.

Lemma sceneOrder_applyScene v sc v' :
  wf v → applyScene v sc = Some v' →
  sceneOrder v'
  = sceneOrder v
    ++ (if decide (scene_name sc ∈ dom (sceneDivs v)
                   ∨ inheritedName (scene_name sc))
        then [] else [scene_name sc]).
Proof.
  intros Hwf Ha. pose proof Hwf as (_ & Hlt & _)%wf_unfold.
  unfold sceneOrder.
  destruct (applyScene_Some _ _ _ Hwf Ha)
    as [(div & E & ->)|[(Hn & ->)|(_ & Hi & [-> | ->])]].
  - rewrite decide_True by (left; apply elem_of_dom; eauto).
    rewrite app_nil_r.
    cbn [elements scenes set_elements set_loadedScenes].
    apply omap_ext_elem. intros h _.
    pose proof (lookup_alter_innerHTML dataset_scene (sceneHtml v sc) div
                  (elements v) h (λ _, eq_refl)) as Hl.
    destruct (alter _ div (elements v) !! h), (elements v !! h);
      simpl in *; congruence.
  - pose proof (noBlockFound_not_inherited _ _ Hn) as Hni.
    destruct Hn as [E _].
    rewrite decide_False
      by (intros [Hd|?]; [by apply not_elem_of_dom in E|done]).
    cbn [elements scenes set_elements set_loadedScenes set_sceneDivs
         set_scenes].
    rewrite omap_app. f_equal.
    + apply omap_ext_elem. intros h Hh.
      by rewrite lookup_app_l by by apply Hlt.
    + simpl. by rewrite lookup_snoc_length.
  - rewrite decide_True by by right. by rewrite app_nil_r.
  - rewrite decide_True by by right. by rewrite app_nil_r.
Qed.

Lemma dom_sceneDivs_applyScene v sc v' :
  wf v → applyScene v sc = Some v' →
  dom (sceneDivs v')
  = (if decide (inheritedName (scene_name sc)) then ∅ else {[scene_name sc]})
    ∪ dom (sceneDivs v).
Proof.
  intros Hwf Ha.
  destruct (applyScene_Some _ _ _ Hwf Ha)
    as [(div & E & ->)|[(Hn & ->)|(_ & Hi & [-> | ->])]];
    cbn [sceneDivs set_elements set_loadedScenes set_sceneDivs set_scenes
         set_protoInnerHTML].
  - destruct (decide (inheritedName (scene_name sc)));
      [by rewrite union_empty_l_L|].
    symmetry. apply subseteq_union_1_L, singleton_subseteq_l.
    apply elem_of_dom. eauto.
  - rewrite decide_False by by apply (noBlockFound_not_inherited v).
    by rewrite dom_insert_L.
  - by rewrite decide_True, union_empty_l_L.
  - by rewrite decide_True, union_empty_l_L.
Qed.

Lemma firstAppearances_seen seen n names :
  n ∈ seen → firstAppearances ({[n]} ∪ seen) names = firstAppearances seen names.
Proof.
  intros Hn. f_equal. by apply subseteq_union_1_L, singleton_subseteq_l.
Qed.

(** When no scene of the batch throws, the scenes on display are the old
    ones followed by the new names that are not inherited, in the order of
    their first appearance. *)
Lemma sceneOrder_applyScenes results v :
  wf v → fst (applyScenes results v) = Fulfilled →
  sceneOrder (snd (applyScenes results v))
  = sceneOrder v
    ++ firstAppearances (dom (sceneDivs v))
         (filter (λ n, ¬ inheritedName n) (map scene_name results)).
Proof.
  revert v. induction results as [|sc results IH]; intros v Hwf Hf.
  - simpl. by rewrite app_nil_r.
  - simpl in *. destruct (applyScene v sc) as [v'|] eqn:Ha; [|done].
    rewrite (IH v' (wf_applyScene _ _ _ Hwf Ha) Hf).
    rewrite (sceneOrder_applyScene _ _ _ Hwf Ha).
    rewrite (dom_sceneDivs_applyScene _ _ _ Hwf Ha).
    rewrite filter_cons.
    destruct (decide (inheritedName (scene_name sc))) as [Hi|Hi].
    + rewrite (decide_True (P := _ ∨ _)) by by right.
      rewrite (decide_False (P := ¬ _)) by by intros Hn; apply Hn.
      by rewrite app_nil_r, union_empty_l_L.
    + rewrite (decide_True (P := ¬ _)) by done. cbn [firstAppearances].
      destruct (decide (scene_name sc ∈ dom (sceneDivs v))) as [Hin|Hin].
      * rewrite (decide_True (P := _ ∨ _)) by by left.
        by rewrite app_nil_r, firstAppearances_seen.
      * rewrite (decide_False (P := _ ∨ _)) by by intros [?|?].
        by rewrite <- app_assoc.
Qed.

Lemma scenes_applyScene_prefix v sc v' :
  wf v → applyScene v sc = Some v' →
  scenes v `prefix_of` scenes v'
  ∧ sceneDivs v ⊆ sceneDivs v'.
Proof.
  intros Hwf Ha.
  destruct (applyScene_Some _ _ _ Hwf Ha)
    as [(div & E & ->)|[([E _] & ->)|(_ & Hi & [-> | ->])]];
    [done| |done|done].
  cbn [scenes sceneDivs set_elements set_loadedScenes set_sceneDivs
       set_scenes].
  split; [by apply prefix_app_r | by apply insert_subseteq].
Qed.

Lemma scenes_applyScenes_prefix results v :
  wf v →
  scenes v `prefix_of` scenes (snd (applyScenes results v))
  ∧ sceneDivs v ⊆ sceneDivs (snd (applyScenes results v)).
Proof.
  intros Hwf.
  enough (wf (snd (applyScenes results v))
          ∧ scenes v `prefix_of` scenes (snd (applyScenes results v))
          ∧ sceneDivs v ⊆ sceneDivs (snd (applyScenes results v)))
    as (_ & ? & ?) by done.
  apply (applyScenes_preserves
           (λ w, wf w ∧ scenes v `prefix_of` scenes w
                 ∧ sceneDivs v ⊆ sceneDivs w)); [|done].
  intros w sc w' (Hw & Hp & Hs) Ha.
  destruct (scenes_applyScene_prefix _ _ _ Hw Ha) as [Hp' Hs'].
  split_and!; [by apply (wf_applyScene w sc)|by etrans..].
Qed.

(** ** The typing indicator *)

Lemma getElementById_indicator v :
  getElementById (lit "typing-indicator") v = find (isIndicator v) (scenes v).
Proof. reflexivity. Qed.

Lemma sceneDiv_not_indicator v name div :
  wf v → sceneDivs v !! name = Some div → isIndicator v div = false.
Proof.
  intros (Hdivs & _)%wf_unfold Hd. destruct (Hdivs _ _ Hd) as (_ & _ & Hid).
  unfold isIndicator. destruct (elements v !! div) as [e|]; [|done].
  injection Hid as ->. reflexivity.
Qed.

Lemma renderTypingIndicator_idle typingData v :
  typingNpc typingData = None →
  renderTypingIndicator typingData v
  = match getElementById (lit "typing-indicator") v with
    | Some e => removeChild e v
    | None => v
    end.
Proof. unfold renderTypingIndicator. by intros ->. Qed.

Lemma renderTypingIndicator_existing typingData v n e :
  typingNpc typingData = Some n →
  getElementById (lit "typing-indicator") v = Some e →
  renderTypingIndicator typingData v
  = scrollToBottom
      (set_elements
         (alter (set_innerHTML (typingIndicatorHtml (stripAnnotation n))) e
            (alter (set_className (lit "typing-indicator")) e (elements v)))
         (set_scenes (filter (λ c, c ≠ e) (scenes v) ++ [e]) v)).
Proof. unfold renderTypingIndicator. by intros -> ->. Qed.

Lemma renderTypingIndicator_new typingData v n :
  wf v → typingNpc typingData = Some n →
  getElementById (lit "typing-indicator") v = None →
  renderTypingIndicator typingData v
  = scrollToBottom
      (set_elements (elements v ++ [typingIndicator (stripAnnotation n)])
         (set_scenes (scenes v ++ [length (elements v)]) v)).
Proof.
  intros Hwf Hn He. unfold renderTypingIndicator. rewrite Hn, He.
  unfold createElement, update_element, appendChild.
  cbn [elements scenes set_elements set_scenes fst snd].
  rewrite !alter_snoc_length, (filter_ne_absent _ _ (fresh_handle v Hwf)).
  reflexivity.
Qed.

Lemma wf_scrollToBottom v : wf v → wf (scrollToBottom v).
Proof. unfold scrollToBottom. by destruct (userScrolledUp v). Qed.

Lemma wf_renderTypingIndicator typingData v :
  wf v → wf (renderTypingIndicator typingData v).
Proof.
  intros Hwf. pose proof Hwf as (Hdivs & Hlt & Hnd & Hind)%wf_unfold.
  destruct (typingNpc typingData) as [n|] eqn:Hn;
    destruct (getElementById (lit "typing-indicator") v) as [e|] eqn:He.
  - rewrite (renderTypingIndicator_existing _ _ _ _ Hn He).
    apply wf_scrollToBottom, wf_unfold.
    rewrite getElementById_indicator in He.
    apply find_some_elem in He as [Hin Hie].
    cbn [elements scenes sceneDivs set_elements set_scenes].
    assert (∀ w, elements w
              = alter (set_innerHTML (typingIndicatorHtml (stripAnnotation n)))
                  e (alter (set_className (lit "typing-indicator")) e
                       (elements v))
              → ∀ h, isIndicator w h = isIndicator v h) as Hsame.
    { intros w Hw h. apply isIndicator_ext. rewrite Hw.
      rewrite lookup_alter_innerHTML by done.
      destruct (decide (h = e)) as [->|Hne].
      - rewrite list_lookup_alter, decide_True by done.
        by destruct (elements v !! e).
      - by rewrite list_lookup_alter_ne. }
    split_and!.
    + intros name d Hd. destruct (Hdivs _ _ Hd) as (Hdin & Hds & Hid).
      assert (d ≠ e) as Hne.
      { intros ->. rewrite (sceneDiv_not_indicator _ _ _ Hwf Hd) in Hie. done. }
      rewrite !list_lookup_alter_ne by done.
      split_and!; [|done|done]. apply elem_of_app. left.
      by apply list_elem_of_filter.
    + rewrite !length_alter.
      intros h [[_ Hh]%list_elem_of_filter|Hh%list_elem_of_singleton]%elem_of_app;
        subst; by apply Hlt.
    + apply NoDup_app. split_and!; [by apply NoDup_filter| |apply NoDup_singleton].
      intros h [Hne _]%list_elem_of_filter Hh%list_elem_of_singleton. done.
    + intros h1 h2 Hh1 Hh2.
      match goal with |- context [isIndicator ?w _] => set (w0 := w) end.
      rewrite (Hsame w0 eq_refl h1), (Hsame w0 eq_refl h2).
      apply Hind.
      * apply elem_of_app in Hh1
          as [[_ ?]%list_elem_of_filter|?%list_elem_of_singleton]; by subst.
      * apply elem_of_app in Hh2
          as [[_ ?]%list_elem_of_filter|?%list_elem_of_singleton]; by subst.
  - rewrite (renderTypingIndicator_new _ _ _ Hwf Hn He).
    apply wf_scrollToBottom, wf_unfold.
    rewrite getElementById_indicator in He.
    pose proof (proj1 (find_none_iff _ _) He) as Hnone.
    cbn [elements scenes sceneDivs set_elements set_scenes].
    assert (∀ w, elements w
                 = elements v ++ [typingIndicator (stripAnnotation n)]
                 → ∀ h, h ∈ scenes v → isIndicator w h = false) as Hold.
    { intros w Hw h Hh. rewrite <- (Hnone h Hh). apply isIndicator_ext.
      rewrite Hw, lookup_app_l; [done|by apply Hlt]. }
    split_and!.
    + intros name d Hd. destruct (Hdivs _ _ Hd) as (Hdin & Hds & Hid).
      rewrite lookup_app_l by by apply Hlt.
      split_and!; [|done|done]. apply elem_of_app. by left.
    + rewrite length_app. simpl.
      intros h [Hh%Hlt|Hh%list_elem_of_singleton]%elem_of_app; lia.
    + apply NoDup_app. split_and!; [done| |apply NoDup_singleton].
      intros h Hh%Hlt Hh'%list_elem_of_singleton. lia.
    + intros h1 h2 [Hh1|Hh1%list_elem_of_singleton]%elem_of_app
                   [Hh2|Hh2%list_elem_of_singleton]%elem_of_app; subst;
        match goal with |- context [isIndicator ?w _] => set (w0 := w) end.
      * by rewrite (Hold w0 eq_refl h1 Hh1).
      * by rewrite (Hold w0 eq_refl h1 Hh1).
      * intros _. by rewrite (Hold w0 eq_refl h2 Hh2).
      * done.
  - rewrite (renderTypingIndicator_idle _ _ Hn), He.
    rewrite getElementById_indicator in He.
    apply find_some_elem in He as [Hin Hie].
    apply wf_unfold. unfold removeChild.
    cbn [elements scenes sceneDivs set_scenes].
    split_and!.
    + intros name d Hd. destruct (Hdivs _ _ Hd) as (Hdin & Hds & Hid).
      split_and!; [|done|done]. apply list_elem_of_filter. split; [|done].
      intros ->. rewrite (sceneDiv_not_indicator _ _ _ Hwf Hd) in Hie. done.
    + intros h [_ Hh]%list_elem_of_filter. by apply Hlt.
    + by apply NoDup_filter.
    + intros h1 h2 [_ Hh1]%list_elem_of_filter [_ Hh2]%list_elem_of_filter.
      by apply Hind.
  - by rewrite (renderTypingIndicator_idle _ _ Hn), He.
Qed.

Lemma indicator_removed typingData v :
  wf v → typingNpc typingData = None →
  getElementById (lit "typing-indicator") (renderTypingIndicator typingData v)
  = None.
Proof.
  intros (_ & _ & _ & Hind)%wf_unfold Hn.
  rewrite (renderTypingIndicator_idle _ _ Hn).
  destruct (getElementById (lit "typing-indicator") v) as [e|] eqn:He; [|done].
  rewrite getElementById_indicator in *.
  apply find_some_elem in He as [Hin Hie].
  apply find_none_iff. unfold removeChild. cbn [scenes set_scenes].
  intros h [Hne Hh]%list_elem_of_filter.
  change (isIndicator v h = false).
  destruct (isIndicator v h) eqn:E; [|done].
  exfalso. apply Hne. by apply Hind.
Qed.


(** ** The invariant along a cycle *)

Lemma wf_initial disc : wf (initial_viewer disc).
Proof.
  apply wf_unfold. cbn. split_and!; [done| |constructor|].
  - by intros h ?%elem_of_nil.
  - by intros h1 h2 ?%elem_of_nil.
Qed.

Lemma wf_loadScenes srv sceneList activeScene v :
  wf v → wf (loadScenes srv sceneList activeScene v).
Proof.
  intros Hwf.
  destruct (loadScenes_cases srv sceneList activeScene v)
    as [[_ ->]|[(_ & _ & ->)|(_ & results & _ & [[_ ->]|[_ ->]])]];
    [done|done| |].
  - by apply wf_scrollToBottom, wf_applyScenes.
  - by apply (wf_applyScenes results
                (emit (map (fun name => Fetch (sceneUrl name))
                         (toFetch (loadedScenes v) sceneList activeScene)) v)).
Qed.

(** [update] is its three requests followed by its callback. *)
Lemma update_split srv v :
  update srv v
  = updateSettle srv
      (emit [Fetch (lit "/api/state"); Fetch (lit "/api/scenes");
             Fetch (lit "/api/typing")] v).
Proof. reflexivity. Qed.

Lemma wf_updateSettle srv v : wf v → wf (snd (updateSettle srv v)).
Proof.
  intros Hwf. unfold updateSettle.
  destruct (api_state srv) as [state|]; [|done].
  destruct (api_scenes srv) as [sceneList|]; [|done].
  cbn [snd]. by apply wf_renderTypingIndicator, wf_loadScenes.
Qed.

Lemma wf_update srv v : wf v → wf (snd (update srv v)).
Proof. intros Hwf. rewrite update_split. by apply wf_updateSettle. Qed.

Lemma wf_init characters srv v : wf v → wf (init characters srv v).
Proof.
  intros Hwf. unfold init. apply wf_updateSettle. by destruct characters.
Qed.

Lemma wf_poll srv v : wf v → wf (poll srv v).
Proof.
  intros Hwf. destruct (api_hash srv) as [hash|] eqn:Hh.
  - destruct (decide (lastHash v = Some hash)) as [Hl|Hl].
    + by rewrite (poll_unchanged _ _ _ Hh Hl).
    + rewrite (poll_changed _ _ _ Hh Hl).
      pose proof (wf_update srv (set_lastHash (Some hash) (afterHash v)) Hwf).
      by destruct (fst (update srv (set_lastHash (Some hash) (afterHash v)))).
  - by rewrite (poll_failed _ _ Hh).
Qed.

(** The invariant holds all along a run of the script. *)
Lemma reachable_wf v : reachable v → wf v.
Proof.
  induction 1 as [disc|characters srv v _ IH|data v _ IH|b v _ IH
                 |srv v _ IH|srv v _ IH].
  - apply wf_initial.
  - by apply wf_init.
  - exact IH.
  - exact IH.
  - by apply wf_update.
  - by apply wf_poll.
Qed.

Lemma loadScenes_sidebar_trace srv sceneList activeScene v e :
  e ∈ trace v → e ∈ trace (loadScenes srv sceneList activeScene v).
Proof.
  intros He. destruct (loadScenes_trace srv sceneList activeScene v)
    as (tail & -> & _). apply elem_of_app. by left.
Qed.


(** ** The synchronizer and the polling loop *)

(** C1 (amended): for every viewer, scene list and active scene (possibly
    null), the fetch list of [loadScenes] contains exactly the names of the
    list that are not loaded and the active scene when it is not null, not
    the empty string and loaded; the active scene is then listed once, after
    the new scenes, and the list has no duplicate when the scene list has
    none; [loadScenes] requests the scenes of that list, in order, and
    nothing else, and does nothing at all when the list is empty. So a scene
    that is loaded and is not the active scene is never fetched again. *)
Theorem loadScenes_fetch_set (srv : server) (v : viewer)
    (sceneList : list jsstring) (activeScene : option jsstring) :
  let loaded := loadedScenes v in
  let fetched := toFetch loaded sceneList activeScene in
  (∀ n, n ∈ fetched ↔
        (n ∈ sceneList ∧ n ∉ loaded)
        ∨ (activeScene = Some n ∧ n ≠ [] ∧ n ∈ loaded))
  ∧ (NoDup sceneList → NoDup fetched)
  ∧ (∀ a, activeScene = Some a → a ≠ [] → a ∈ loaded →
          fetched = filter (λ n, n ∉ loaded) sceneList ++ [a]
          ∧ a ∉ filter (λ n, n ∉ loaded) sceneList)
  ∧ (∀ n, n ∈ fetched → n ∈ loaded → activeScene = Some n)
  ∧ fetches (trace (loadScenes srv sceneList activeScene v))
    = fetches (trace v) ++ map sceneUrl fetched
  ∧ (fetched = [] → loadScenes srv sceneList activeScene v = v).
Proof.
  intros loaded fetched. split_and!.
  - intros n. apply elem_of_toFetch.
  - apply toFetch_NoDup.
  - intros a -> Ha%truthy_iff Hin. unfold fetched. rewrite toFetch_eq.
    rewrite Ha, bool_decide_true by done. split; [done|].
    by intros [? _]%list_elem_of_filter.
  - intros n [[_ Hn]|(Ha & _)]%elem_of_toFetch Hin; done.
  - destruct (loadScenes_trace srv sceneList activeScene v) as (tail & -> & Ht).
    rewrite !fetches_app, Ht, app_nil_r. f_equal. fold loaded. fold fetched.
    rewrite <- (fetches_map_Fetch (map sceneUrl fetched)) at 1.
    by rewrite map_map.
  - intros Hf. unfold loadScenes. fold loaded. fold fetched. by rewrite Hf.
Qed.

(** C4: in every turn of [poll] whose fingerprint request succeeds, when
    the fingerprint equals the stored one the turn sends no other request,
    keeps the stored fingerprint and schedules the next turn; when it
    differs (also when none is stored yet) the new fingerprint is stored, the
    three requests of a refresh (state, scene list, typing) are sent, and the
    next turn is scheduled at the end. *)
Theorem poll_change_detection (srv : server) (v : viewer) (hash : jsstring) :
  api_hash srv = Some hash →
  (lastHash v = Some hash →
     poll srv v = schedule (afterHash v)
     ∧ lastHash (poll srv v) = lastHash v
     ∧ trace (poll srv v)
       = trace v ++ [Fetch (lit "/api/hash"); RemoveDisconnected;
                     SetTimeout (pollInterval v)])
  ∧ (lastHash v ≠ Some hash →
     (let refreshed := update srv (set_lastHash (Some hash) (afterHash v)) in
      poll srv v
      = schedule (match fst refreshed with
                  | Rejected => markDisconnected (snd refreshed)
                  | Fulfilled => snd refreshed
                  end))
     ∧ lastHash (poll srv v) = Some hash
     ∧ ∃ tail,
         trace (poll srv v)
         = trace v ++ [Fetch (lit "/api/hash"); RemoveDisconnected]
           ++ refreshRequests ++ tail
           ++ [SetTimeout (pollInterval (poll srv v))])
  ∧ (lastHash v = None → lastHash (poll srv v) = Some hash).
Proof.
  intros Hh. split_and!.
  - intros Hl. destruct (poll_unchanged_trace srv v hash Hh Hl) as (? & ?).
    split_and!; [by apply (poll_unchanged _ _ hash)|done|done].
  - intros Hl. split; [by apply poll_changed|by apply poll_changed_trace].
  - intros Hl. apply poll_changed_trace; [done|]. by rewrite Hl.
Qed.

(** C7: in every turn of [poll] whose fingerprint request fails, the
    indicator shows "disconnected", the stored fingerprint is kept, no
    refresh request is sent and the next turn is scheduled; in any later
    turn whose fingerprint request succeeds, the class "disconnected" is
    removed as soon as the fingerprint has arrived, and it is still absent
    at the end of that turn unless a refresh started by the turn was
    rejected. *)
Theorem poll_fetch_failure (srv : server) (v : viewer) :
  api_hash srv = None →
  disconnected (poll srv v) = true
  ∧ lastHash (poll srv v) = lastHash v
  ∧ trace (poll srv v)
    = trace v ++ [Fetch (lit "/api/hash"); AddDisconnected;
                  SetTimeout (pollInterval v)]
  ∧ (∀ (srv' : server) (v' : viewer) (hash : jsstring),
       api_hash srv' = Some hash →
       (∃ tail, trace (poll srv' v')
                = trace v' ++ [Fetch (lit "/api/hash"); RemoveDisconnected]
                  ++ tail)
       ∧ (fst (update srv' (set_lastHash (Some hash) (afterHash v')))
          = Fulfilled → disconnected (poll srv' v') = false)
       ∧ (lastHash v' = Some hash → disconnected (poll srv' v') = false)).
Proof.
  intros Hh. destruct (poll_failed_trace srv v Hh) as (Hd & Hl & Ht).
  split_and!; [done..|].
  intros srv' v' hash Hh'. split_and!.
  - destruct (decide (lastHash v' = Some hash)) as [Hl'|Hl'].
    + destruct (poll_unchanged_trace srv' v' hash Hh' Hl') as (_ & ->).
      by eexists.
    + destruct (poll_changed_trace srv' v' hash Hh' Hl') as (_ & tail & ->).
      by eexists.
  - intros Hf. destruct (disconnected (poll srv' v')) eqn:E; [|done].
    apply poll_disconnected in E as [?|(h & Hh2 & _ & Hr)]; [congruence|].
    assert (h = hash) as -> by congruence.
    apply (update_outcome srv' (set_lastHash (Some hash) (afterHash v'))) in Hr.
    congruence.
  - intros Hl'. destruct (disconnected (poll srv' v')) eqn:E; [|done].
    apply poll_disconnected in E as [?|(h & Hh2 & Hne & _)]; congruence.
Qed.

(** C8 (amended): when a scene content request fails during a refresh, the
    failure is logged and swallowed and the refresh goes on to the typing
    indicator (no scene of that batch is applied). When the state request or
    the scene-list request fails, the refresh is rejected after its three
    requests: nothing is rendered, nothing is logged, and a turn of [poll]
    that started it shows the indicator as disconnected; so the indicator is
    on at the end of a turn exactly when the fingerprint request failed or
    the refresh started by the turn was rejected. Every turn of [poll] ends
    by scheduling the next one. *)
Theorem refresh_failure_handling (srv : server) (v : viewer) :
  (∀ state sceneList,
     api_state srv = Some state → api_scenes srv = Some sceneList →
     let typingData := typingPayload srv in
     let typing := bool_decide (is_Some (typingNpc typingData)) in
     let v1 := renderSidebar state
                 (set_isTyping typing (emit refreshRequests v)) in
     let names := toFetch (loadedScenes v1) sceneList
                    (if typing then typingData ≫= scene else None) in
     mapM (fun name => api_scene srv (sceneUrl name)) names = None →
     update srv v
     = (Fulfilled,
        renderTypingIndicator typingData
          (emit [ConsoleError]
             (emit (map (fun name => Fetch (sceneUrl name)) names) v1))))
  ∧ (api_state srv = None ∨ api_scenes srv = None →
       update srv v = (Rejected, emit refreshRequests v))
  ∧ (disconnected (poll srv v) = true ↔
       api_hash srv = None
       ∨ ∃ hash, api_hash srv = Some hash ∧ lastHash v ≠ Some hash
                 ∧ (api_state srv = None ∨ api_scenes srv = None))
  ∧ (∃ es, trace (poll srv v)
           = trace v ++ Fetch (lit "/api/hash") :: es
             ++ [SetTimeout (pollInterval (poll srv v))]).
Proof.
  split_and!.
  - intros state sceneList Hs Hl typingData typing v1 names Hfail.
    rewrite (update_fulfilled _ _ _ _ Hs Hl). cbv zeta.
    fold typingData. fold typing. fold v1. f_equal. f_equal.
    unfold loadScenes. fold names. rewrite Hfail.
    destruct names as [|n l]; [done|]. by rewrite bool_decide_false.
  - apply update_rejected.
  - apply poll_disconnected.
  - apply poll_schedules.
Qed.

(** What [applyScene] does to the document, by what the test
    [sceneDivs[scene.name]] finds.  A block of the name itself receives the
    new markup where it stands, and the children of [$scenes], the handles
    and all other elements stay as they were.  When the test finds nothing,
    a new element is created, appended after all children, and becomes the
    handle of the name.  When it finds what every object inherits under
    that name, nothing in the document changes.  In the three cases the
    name is marked as loaded. *)
Lemma applyScene_blocks (v : viewer) (scene : SceneData) (v' : viewer) :
  wf v → applyScene v scene = Some v' →
  let name := scene_name scene in
  let html := sceneHtml v scene in
  (∀ div, sceneDivs v !! name = Some div →
     scenes v' = scenes v
     ∧ sceneDivs v' = sceneDivs v
     ∧ length (elements v') = length (elements v)
     ∧ elements v' !! div = set_innerHTML html <$> elements v !! div
     ∧ innerHTML <$> elements v' !! div = Some html
     ∧ ∀ h, h ≠ div → elements v' !! h = elements v !! h)
  ∧ (noBlockFound v name →
     ∃ div, (div ∉ scenes v)
            ∧ (elements v !! div = None)
            ∧ scenes v' = scenes v ++ [div]
            ∧ sceneDivs v' = <[name := div]> (sceneDivs v)
            ∧ elements v' !! div = Some (sceneBlock name html)
            ∧ ∀ h, h ≠ div → elements v' !! h = elements v !! h)
  ∧ (sceneDivs v !! name = None → inheritedName name →
     scenes v' = scenes v ∧ sceneDivs v' = sceneDivs v
     ∧ elements v' = elements v)
  ∧ name ∈ loadedScenes v'.
Proof.
  intros Hwf Ha name html. pose proof Hwf as (Hdivs & Hlt & _)%wf_unfold.
  split_and!.
  - intros div E. rewrite (applyScene_existing _ _ _ E) in Ha.
    injection Ha as <-.
    cbn [elements scenes sceneDivs set_elements set_loadedScenes].
    destruct (Hdivs _ _ E) as (Hin%Hlt & _).
    apply lookup_lt_is_Some in Hin as [e He].
    split_and!; [done|done|by rewrite length_alter| | |].
    + by rewrite list_lookup_alter, decide_True.
    + by rewrite list_lookup_alter, decide_True, He.
    + intros h Hne. by rewrite list_lookup_alter_ne.
  - intros E. exists (length (elements v)).
    rewrite (applyScene_new _ _ Hwf E) in Ha. injection Ha as <-.
    cbn [elements scenes sceneDivs set_elements set_loadedScenes
         set_sceneDivs set_scenes].
    split_and!; [by apply fresh_handle|by apply lookup_ge_None|done|done
                |apply lookup_snoc_length|].
    intros h Hne. destruct (decide (h < length (elements v))%nat).
    + by rewrite lookup_app_l.
    + rewrite !lookup_ge_None_2; [done|lia|]. rewrite length_app. simpl. lia.
  - intros E Hi.
    destruct (applyScene_Some _ _ _ Hwf Ha)
      as [(div & E' & _)|[(Hn & _)|(_ & _ & [-> | ->])]]; [| |done|done].
    + unfold name in E. congruence.
    + by apply noBlockFound_not_inherited in Hn.
  - destruct (applyScene_Some _ _ _ Hwf Ha)
      as [(div & _ & ->)|[(_ & ->)|(_ & _ & [-> | ->])]];
      cbn [loadedScenes set_loadedScenes];
      apply elem_of_union; left; by apply elem_of_singleton.
Qed.

(** C5: a scene named like a method that every object inherits has no
    handle, and yet no block is appended for it.  On the viewer as it
    starts, [applyScene] takes the scene [constructor] through the branch
    of the scenes that have a block: the markup is written to a property
    of the function found under that name, the children of [$scenes] and
    the handles stay empty, no scene is displayed, and the name is marked
    as loaded, so that the scene is not requested again. *)
Theorem applyScene_inherited_name :
  let v := initial_viewer false in
  let v' := set_loadedScenes ({[lit "constructor"]} ∪ loadedScenes v) v in
  sceneDivs v !! lit "constructor" = None
  ∧ applyScene v scene_constructor = Some v'
  ∧ sceneOrder v' = []
  ∧ scenes v' = scenes v
  ∧ sceneDivs v' = sceneDivs v
  ∧ lit "constructor" ∈ loadedScenes v'
  ∧ toFetch (loadedScenes v') [lit "constructor"] None = [].
Proof.
  intros v v'. split_and!; [done| |done|done|done| |].
  - by apply applyScene_method.
  - apply elem_of_union. left. by apply elem_of_singleton.
  - assert (lit "constructor" ∈ loadedScenes v') as Hin
      by (apply elem_of_union; left; by apply elem_of_singleton).
    destruct (toFetch (loadedScenes v') [lit "constructor"] None)
      as [|n l] eqn:E; [done|].
    assert (n ∈ toFetch (loadedScenes v') [lit "constructor"] None) as Hn
      by (rewrite E; by left).
    apply elem_of_toFetch in Hn as [[Hn Hl]|(? & _)]; [|done].
    apply list_elem_of_singleton in Hn as ->. done.
Qed.


(** C6 (amended): in every refresh whose state request and scene-list
    request succeed, on a viewer whose document is well formed, if the
    typing request fails or its payload is absent or has no npc, the viewer
    is idle for that cycle: the refresh is fulfilled, the typing flag is
    false, no typing indicator is left in the document, the sidebar shows
    the new state and the scenes are synchronized with no active scene.
    Whether a refresh is rejected depends on the state and scene-list
    requests only, never on the typing request. *)
Theorem update_typing_idle (srv : server) (v : viewer) (state : GameState)
    (sceneList : list jsstring) :
  wf v → api_state srv = Some state → api_scenes srv = Some sceneList →
  typingNpc (typingPayload srv) = None →
  let v1 := loadScenes srv sceneList None
              (renderSidebar state
                 (set_isTyping false (emit refreshRequests v))) in
  update srv v = (Fulfilled, renderTypingIndicator None v1)
  ∧ isTyping (snd (update srv v)) = false
  ∧ getElementById (lit "typing-indicator") (snd (update srv v)) = None
  ∧ sidebar (snd (update srv v)) = Some state
  ∧ RenderSidebar state ∈ trace (snd (update srv v))
  ∧ loadedScenes (snd (update srv v)) = loadedScenes v1
  ∧ sceneDivs (snd (update srv v)) = sceneDivs v1
  ∧ elements (snd (update srv v)) = elements v1
  ∧ wf (snd (update srv v))
  ∧ (∀ (srv' : server) (v' : viewer),
       fst (update srv' v') = Rejected ↔
       api_state srv' = None ∨ api_scenes srv' = None).
Proof.
  intros Hwf Hs Hl Hn v1.
  assert (update srv v = (Fulfilled, renderTypingIndicator None v1)) as Hu.
  { rewrite (update_fulfilled _ _ _ _ Hs Hl). cbv zeta. rewrite Hn.
    rewrite bool_decide_false by (by intros [? ?]).
    f_equal. rewrite !(renderTypingIndicator_idle _ _ Hn).
    by rewrite (renderTypingIndicator_idle None). }
  assert (wf v1) as Hwf1 by by apply wf_loadScenes.
  rewrite Hu. cbn [snd].
  destruct (renderTypingIndicator_frame None v1)
    as (_ & Hty & _ & Hsb & Hld & Hsd).
  destruct (loadScenes_frame srv sceneList None
              (renderSidebar state
                 (set_isTyping false (emit refreshRequests v))))
    as (_ & Hty1 & _ & Hsb1).
  split_and!.
  - done.
  - rewrite Hty. unfold v1. by rewrite Hty1.
  - by apply indicator_removed.
  - rewrite Hsb. unfold v1. by rewrite Hsb1.
  - destruct (renderTypingIndicator_trace None v1) as (tail & -> & _).
    apply elem_of_app. left. apply loadScenes_sidebar_trace.
    cbn. apply elem_of_app. right. by left.
  - done.
  - done.
  - rewrite (renderTypingIndicator_idle None) by done.
    by destruct (getElementById (lit "typing-indicator") v1).
  - by apply wf_renderTypingIndicator.
  - intros srv' v'. apply update_outcome.
Qed.


End ViewerFacts.

(** ** Closed instances *)

Example wf_viewer_typing : bool_decide (wf viewer_typing) = true.
Proof. by vm_compute. Qed.

(** A scene listed twice is fetched twice; an active scene whose name is
    the empty string is not fetched again. *)
Lemma fetchSetAsListed_fails :
  ¬ fetchSetAsListed ∅ [lit "s3"; lit "s3"] None
  ∧ ¬ fetchSetAsListed {[ [] ]} [] (Some []).
Proof.
  split.
  - intros [_ Hnd]. vm_compute in Hnd. apply NoDup_cons in Hnd as [Hn _].
    apply Hn. by left.
  - intros [Hm _]. destruct (Hm []) as [_ Hin].
    assert (toFetch {[ [] ]} [] (Some []) = []) as Ht by (by vm_compute).
    rewrite Ht in Hin. eapply elem_of_nil, Hin. right.
    split; [done|]. by apply elem_of_singleton.
Qed.

Lemma poll_change_detection_witness :
  api_hash server_typing = Some (lit "h1")
  ∧ lastHash (@poll exampleBrowser server_typing (initial_viewer false))
    = Some (lit "h1").
Proof.
  split; [reflexivity|].
  refine (proj1 (proj2 (proj1 (proj2
            (@poll_change_detection exampleBrowser server_typing
               (initial_viewer false) (lit "h1") eq_refl)) _))).
  discriminate.
Defined.

Lemma poll_fetch_failure_witness :
  api_hash server_down = None
  ∧ disconnected (@poll exampleBrowser server_down viewer_typing) = true.
Proof.
  split; [reflexivity|].
  exact (proj1 (@poll_fetch_failure exampleBrowser server_down viewer_typing
                  eq_refl)).
Defined.

(** The state request fails after a fingerprint that answered. *)
Lemma onlyFingerprintDisconnects_fails :
  ¬ @onlyFingerprintDisconnects exampleBrowser server_state_down
      (initial_viewer false).
Proof.
  intros Hc. specialize (Hc ltac:(by eexists)). vm_compute in Hc. discriminate.
Qed.

(** Every request fails while Bob is shown as typing. *)
Lemma typingFailureIsIdle_fails :
  ¬ @typingFailureIsIdle exampleBrowser server_down viewer_typing.
Proof.
  intros Hc. destruct (Hc eq_refl) as [Hty _]. vm_compute in Hty. discriminate.
Qed.

Lemma update_typing_idle_witness :
  (wf viewer_typing
   ∧ api_state server_idle = Some example_state
   ∧ api_scenes server_idle = Some [lit "s1"]
   ∧ typingNpc (typingPayload server_idle) = None)
  ∧ isTyping (snd (@update exampleBrowser server_idle viewer_typing)) = false
  ∧ getElementById (lit "typing-indicator")
      (snd (@update exampleBrowser server_idle viewer_typing)) = None.
Proof.
  assert (wf viewer_typing) as Hwf
    by (apply (@wf_poll exampleBrowser), wf_initial).
  split; [split_and!; [exact Hwf|reflexivity..]|].
  destruct (@update_typing_idle exampleBrowser server_idle viewer_typing
              example_state [lit "s1"] Hwf eq_refl eq_refl eq_refl)
    as (_ & Hty & Hind & _).
  split; [exact Hty|exact Hind].
Defined.

(** ** The colour of a name *)

Lemma toInt32_mod z : (toInt32 z mod 2 ^ 32 = z mod 2 ^ 32)%Z.
Proof.
  unfold toInt32. cbv zeta.
  destruct (z mod 2 ^ 32 <? 2 ^ 31)%Z.
  - apply Z.mod_mod. lia.
  - rewrite <- (Z.mod_mod z (2 ^ 32)) at 2 by lia.
    replace (z mod 2 ^ 32 - 2 ^ 32)%Z
      with (z mod 2 ^ 32 + (-1) * 2 ^ 32)%Z by lia.
    by rewrite Z.mod_add by lia.
Qed.

Lemma shl32_5_mod z : (shl32 z 5 mod 2 ^ 32 = (32 * z) mod 2 ^ 32)%Z.
Proof.
  unfold shl32. rewrite toInt32_mod, Z.shiftl_mul_pow2 by lia.
  change (2 ^ 5)%Z with 32%Z.
  rewrite Z.mul_mod, toInt32_mod, <- Z.mul_mod by lia. f_equal. lia.
Qed.

Lemma nameToColor_step_mod h h' c :
  (h mod 2 ^ 32 = h' mod 2 ^ 32)%Z →
  ((Z.of_N c + (shl32 h 5 - h)) mod 2 ^ 32
   = (Z.of_N c + 31 * h') mod 2 ^ 32)%Z.
Proof.
  intros Hh.
  rewrite Z.add_mod, Zminus_mod, shl32_5_mod by lia.
  rewrite (Z.mul_mod 32 h), Hh, <- (Z.mul_mod 32 h') by lia.
  rewrite <- Zminus_mod, <- Z.add_mod by lia. f_equal. lia.
Qed.

Lemma nameToColor_hash_mod_from name h h' :
  (h mod 2 ^ 32 = h' mod 2 ^ 32)%Z →
  (fold_left (fun hash c => Z.of_N c + (shl32 hash 5 - hash)) name h
     mod 2 ^ 32
   = fold_left (fun h c => Z.of_N c + 31 * h) name h' mod 2 ^ 32)%Z.
Proof.
  revert h h'. induction name as [|c name IH]; intros h h' Hh; [done|].
  simpl. apply IH. by apply nameToColor_step_mod.
Qed.

Lemma hue_is_mod h : (Z.rem (Z.rem h 360 + 360) 360 = h mod 360)%Z.
Proof.
  pose proof (Z.rem_bound_abs h 360 ltac:(lia)) as Hb.
  rewrite Z.rem_mod_nonneg by lia.
  rewrite (Z.rem_eq h 360) by lia.
  replace (h - 360 * (h ÷ 360) + 360)%Z
    with (h + (1 - h ÷ 360) * 360)%Z by lia.
  apply Z.mod_add. lia.
Qed.

(** X1: the hue that [nameToColor] writes is always one of 0..359, also
    when the 32-bit hash is negative: it is the hash modulo 360.  The hash
    itself is, modulo 2^32, the polynomial hash with multiplier 31 of the
    code units of the name, and the colour is [hsl(hue, 45%, 65%)] with that
    hue in decimal. *)
Theorem nameToColor_hue_residue (name : jsstring) :
  (0 ≤ nameToColor_hue name < 360)%Z
  ∧ nameToColor_hue name = (nameToColor_hash name mod 360)%Z
  ∧ (nameToColor_hash name mod 2 ^ 32 = hash31 name mod 2 ^ 32)%Z
  ∧ nameToColor name
    = lit "hsl(" ++ decimal (nameToColor_hash name mod 360) ++ lit ", 45%, 65%)".
Proof.
  assert (nameToColor_hue name = (nameToColor_hash name mod 360)%Z) as Hh
    by apply hue_is_mod.
  split; [rewrite Hh; apply Z.mod_pos_bound; lia|].
  split; [exact Hh|].
  split; [by apply nameToColor_hash_mod_from|].
  unfold nameToColor. by rewrite Hh.
Qed.

(** ** One annotation at most is stripped *)

Lemma annotationBody_true s :
  annotationBody s = true → ∃ ann, s = ann ++ [RPAREN] ∧ RPAREN ∉ ann.
Proof.
  induction s as [|c rest IH]; [done|]. simpl.
  destruct (N.eqb_spec c RPAREN) as [->|Hne].
  - intros ->%isEmpty_true. exists []. split; [done|]. by intros ?%elem_of_nil.
  - intros (ann & -> & Hno)%IH. exists (c :: ann). split; [done|].
    intros [?|?]%elem_of_cons; done.
Qed.

Lemma stripAnnotation_cons c rest :
  stripAnnotation (c :: rest)
  = if annotationAt (c :: rest) then [] else c :: stripAnnotation rest.
Proof. reflexivity. Qed.

Lemma stripAnnotation_cases name :
  stripAnnotation name = name
  ∨ ∃ base ann, name = base ++ (LPAREN :: ann) ++ [RPAREN]
                ∧ (RPAREN ∉ ann) ∧ stripAnnotation name = base.
Proof.
  induction name as [|c rest IH]; [by left|].
  rewrite stripAnnotation_cons.
  destruct (annotationAt (c :: rest)) eqn:E.
  - right. simpl in E. apply andb_true_iff in E as [->%N.eqb_eq Hb].
    apply annotationBody_true in Hb as (ann & -> & Hno). by exists [], ann.
  - destruct IH as [->|(base & ann & -> & Hno & ->)]; [by left|].
    right. by exists (c :: base), ann.
Qed.

(** X2: the replacement of the annotation pattern in [stripAnnotation]
    returns a prefix of the name: either the name itself, or the name
    without exactly one trailing annotation [（...）] whose inside holds no
    closing parenthesis.  A name that does not end in [）], or that holds no
    [（], is returned as it is. *)
Theorem stripAnnotation_one_suffix (name : jsstring) :
  stripAnnotation name `prefix_of` name
  ∧ (stripAnnotation name = name
     ∨ ∃ base ann, name = base ++ (LPAREN :: ann) ++ [RPAREN]
                   ∧ (RPAREN ∉ ann) ∧ stripAnnotation name = base)
  ∧ (last name ≠ Some RPAREN → stripAnnotation name = name)
  ∧ (LPAREN ∉ name → stripAnnotation name = name).
Proof.
  pose proof (stripAnnotation_cases name) as Hc. split_and!.
  - destruct Hc as [->|(base & ann & -> & _ & ->)]; [done|].
    by apply prefix_app_r.
  - exact Hc.
  - intros Hl. destruct Hc as [?|(base & ann & -> & _ & _)]; [done|].
    exfalso. apply Hl.
    change (base ++ (LPAREN :: ann) ++ [RPAREN])
      with (base ++ (LPAREN :: ann ++ [RPAREN])).
    rewrite app_comm_cons, app_assoc. apply last_snoc.
  - intros Hn. destruct Hc as [?|(base & ann & -> & _ & _)]; [done|].
    exfalso. apply Hn. apply elem_of_app. right. by left.
Qed.

(** ** Scenes that grow by whole lines *)

Lemma js_split_app sep a b :
  js_split sep (a ++ sep :: b) = js_split sep a ++ js_split sep b.
Proof.
  induction a as [|c a IH].
  - simpl. by rewrite N.eqb_refl.
  - cbn [app js_split]. rewrite IH.
    pose proof (js_split_nonempty sep a) as Hn.
    destruct (c =? sep); [done|].
    by destruct (js_split sep a).
Qed.

Lemma parseScene_app a b :
  parseScene (a ++ LF :: b) = parseScene a ++ parseScene b.
Proof.
  unfold parseScene. rewrite js_split_app, !parseScene_loop_app. simpl.
  apply omap_app.
Qed.

Lemma parseScene_trailing_newline a : parseScene (a ++ [LF]) = parseScene a.
Proof. rewrite parseScene_app. by rewrite app_nil_r. Qed.

Section MarkupFacts.
Context `{Browser}.

Lemma renderSceneBlocks_from charDescriptions blocks html :
  fold_left (fun html b => html ++ renderBlock charDescriptions b) blocks html
  = html ++ concat (map (renderBlock charDescriptions) blocks).
Proof.
  revert html. induction blocks as [|b blocks IH]; intros html; simpl.
  - by rewrite app_nil_r.
  - by rewrite IH, <- app_assoc.
Qed.

Lemma renderSceneBlocks_concat charDescriptions blocks :
  renderSceneBlocks charDescriptions blocks
  = concat (map (renderBlock charDescriptions) blocks).
Proof. unfold renderSceneBlocks. by rewrite renderSceneBlocks_from. Qed.

(** X3: a scene that grows by whole lines keeps the blocks and the markup
    it had: parsing (and rendering) the old text followed by a line feed and
    more text gives the old blocks (markup) followed by those of the new
    text; a trailing line feed adds nothing; and the markup of a scene is
    the concatenation of the markup of its non-blank lines, in order. *)
Theorem scene_growth (charDescriptions : gmap jsstring jsstring)
    (old more : jsstring) :
  parseScene (old ++ LF :: more) = parseScene old ++ parseScene more
  ∧ renderSceneBlocks charDescriptions (parseScene (old ++ LF :: more))
    = renderSceneBlocks charDescriptions (parseScene old)
      ++ renderSceneBlocks charDescriptions (parseScene more)
  ∧ parseScene (old ++ [LF]) = parseScene old
  ∧ renderSceneBlocks charDescriptions (parseScene old)
    = concat (map (λ line, renderBlock charDescriptions (classifyLine line))
                (filter (λ l, ¬ blankLine l) (js_split LF old))).
Proof.
  split_and!.
  - apply parseScene_app.
  - by rewrite parseScene_app, !renderSceneBlocks_concat, map_app, concat_app.
  - apply parseScene_trailing_newline.
  - rewrite renderSceneBlocks_concat. unfold parseScene.
    rewrite parseScene_loop_app, omap_parseLine, filter_nonblank. simpl.
    by rewrite map_map.
Qed.

End MarkupFacts.

(** ** What a block can hold *)

Lemma stripClose_sub content :
  ∃ tail, content = stripClose content ++ tail.
Proof.
  unfold stripClose. destruct (endsWith content [CLOSE_QUOTE]).
  - exists (drop (length content - 1) content). unfold slice_0_m1.
    by rewrite take_drop.
  - exists []. by rewrite app_nil_r.
Qed.

Lemma classifyLine_ok line :
  ¬ blankLine line → LF ∉ line → blockOk (classifyLine line).
Proof.
  intros Hnb Hlf. unfold classifyLine.
  destruct (speechMatch line) as [[name content]|] eqn:E.
  - apply speechMatch_spec in E as (_ & Hn & Hsp & _ & _ & Hlt).
    simpl. split_and!; [done|done|].
    destruct (stripClose_sub content) as (tail & Ht).
    rewrite Ht in Hlt. by apply Forall_app in Hlt as [? _].
  - destruct (startsWith line [HBAR; HBAR]) eqn:Es; simpl.
    + split_and!; [by apply startsWith_iff|done|done].
    + split_and!; [|done|done]. intros Hp%startsWith_iff. congruence.
Qed.

(** X4: what [parseScene] puts into a block: the speaker of a speech is
    not empty and holds no white space, the text of a speech holds no line
    terminator; a separator starts with the two bars, a narration does not;
    the text of a separator or narration is not blank and holds no line
    feed. *)
Theorem parseScene_blocks_ok (text : jsstring) :
  Forall blockOk (parseScene text).
Proof.
  unfold parseScene. rewrite parseScene_loop_app, omap_parseLine. simpl.
  apply Forall_map, Forall_forall. intros line [Hnb Hin]%list_elem_of_filter.
  apply classifyLine_ok.
  - intros Hb. apply parseLine_None_iff in Hb. unfold parseLine in Hb.
    by rewrite Hnb in Hb.
  - pose proof (js_split_no_sep LF text) as Hs. rewrite Forall_forall in Hs.
    by apply Hs.
Qed.

(** ** The cache and the document *)

Lemma omap_filter_ne {B} (f : nat → option B) (e : nat) (l : list nat) :
  f e = None → omap f (filter (λ c, c ≠ e) l) = omap f l.
Proof.
  intros He. induction l as [|x l IH]; [done|].
  rewrite filter_cons.
  change (omap f (x :: l))
    with (match f x with Some y => y :: omap f l | None => omap f l end).
  destruct (decide (x ≠ e)) as [Hne|Heq].
  - change (omap f (x :: filter (λ c, c ≠ e) l))
      with (match f x with
            | Some y => y :: omap f (filter (λ c, c ≠ e) l)
            | None => omap f (filter (λ c, c ≠ e) l)
            end).
    by rewrite IH.
  - apply dec_stable in Heq as ->. by rewrite He, IH.
Qed.

Section CacheFacts.
Context `{Browser}.

Lemma loadedScenes_applyScene v sc v' :
  applyScene v sc = Some v' →
  loadedScenes v' = {[scene_name sc]} ∪ loadedScenes v.
Proof. by applyScene_cases v sc. Qed.

Lemma loadedScenes_applyScenes results v :
  fst (applyScenes results v) = Fulfilled →
  loadedScenes (snd (applyScenes results v))
  = list_to_set (map scene_name results) ∪ loadedScenes v.
Proof.
  revert v. induction results as [|sc results IH]; intros v Hf; simpl in *.
  - by rewrite union_empty_l_L.
  - destruct (applyScene v sc) as [v'|] eqn:Ha; [|done].
    rewrite (IH v' Hf), (loadedScenes_applyScene _ _ _ Ha), (assoc_L (∪)).
    by rewrite (comm_L (∪) (list_to_set _) {[scene_name sc]}).
Qed.

Lemma loadedScenes_applyScenes_mono results v :
  loadedScenes v ⊆ loadedScenes (snd (applyScenes results v)).
Proof.
  apply (applyScenes_preserves (λ w, loadedScenes v ⊆ loadedScenes w));
    [|done].
  intros w sc w' Hw Ha. rewrite (loadedScenes_applyScene _ _ _ Ha).
  etrans; [exact Hw|]. apply union_subseteq_r.
Qed.

Lemma indicator_no_scene v h :
  docInv v → h ∈ scenes v → isIndicator v h = true →
  elements v !! h ≫= dataset_scene = None.
Proof.
  intros (Hwf & _ & Hback) Hh Hi.
  destruct (elements v !! h ≫= dataset_scene) as [name|] eqn:E; [|done].
  pose proof (Hback _ _ Hh E) as Hd.
  rewrite (sceneDiv_not_indicator _ _ _ Hwf Hd) in Hi. done.
Qed.

Lemma docInv_applyScene v sc v' :
  docInv v → applyScene v sc = Some v' → docInv v'.
Proof.
  intros (Hwf & Hdom & Hback) Ha. split_and!.
  - by apply (wf_applyScene v sc).
  - intros n.
    rewrite (dom_sceneDivs_applyScene _ _ _ Hwf Ha),
      (loadedScenes_applyScene _ _ _ Ha), !elem_of_union, Hdom,
      elem_of_singleton.
    destruct (decide (inheritedName (scene_name sc))) as [Hi|Hi].
    + rewrite elem_of_empty. split; [tauto|].
      intros [[->|?] ?]; tauto.
    + rewrite elem_of_singleton. split; [|tauto].
      intros [->|?]; tauto.
  - pose proof Hwf as (_ & Hlt & _)%wf_unfold.
    destruct (applyScene_Some _ _ _ Hwf Ha)
      as [(div & E & ->)|[([E _] & ->)|(_ & _ & [-> | ->])]];
      [| |done|done].
    + cbn [elements scenes sceneDivs set_elements set_loadedScenes].
      intros h name Hh Hds. apply Hback; [done|].
      pose proof (lookup_alter_innerHTML dataset_scene (sceneHtml v sc) div
                    (elements v) h (λ _, eq_refl)) as Hl.
      destruct (alter _ div (elements v) !! h), (elements v !! h);
        simpl in *; congruence.
    + cbn [elements scenes sceneDivs set_elements set_loadedScenes
           set_sceneDivs set_scenes].
      intros h name [Hh|Hh%list_elem_of_singleton]%elem_of_app Hds.
      * rewrite lookup_app_l in Hds by by apply Hlt.
        pose proof (Hback _ _ Hh Hds) as Hd.
        rewrite lookup_insert_ne; [done|]. intros <-. congruence.
      * subst h. rewrite lookup_snoc_length in Hds. injection Hds as <-.
        by rewrite lookup_insert_eq.
Qed.

Lemma docInv_applyScenes results v :
  docInv v → docInv (snd (applyScenes results v)).
Proof.
  apply applyScenes_preserves. intros w sc w' Hw Ha.
  by apply (docInv_applyScene w sc).
Qed.

Lemma docInv_scrollToBottom v : docInv v → docInv (scrollToBottom v).
Proof. unfold scrollToBottom. by destruct (userScrolledUp v). Qed.

Lemma docInv_loadScenes srv sceneList activeScene v :
  docInv v → docInv (loadScenes srv sceneList activeScene v).
Proof.
  intros Hi.
  destruct (loadScenes_cases srv sceneList activeScene v)
    as [[_ ->]|[(_ & _ & ->)|(_ & results & _ & [[_ ->]|[_ ->]])]];
    [done|done| |].
  - by apply docInv_scrollToBottom, docInv_applyScenes.
  - by apply (docInv_applyScenes results
                (emit (map (fun name => Fetch (sceneUrl name))
                         (toFetch (loadedScenes v) sceneList activeScene)) v)).
Qed.

(** The typing indicator comes and goes without touching the scenes. *)
Lemma renderTypingIndicator_scenes typingData v :
  docInv v →
  docInv (renderTypingIndicator typingData v)
  ∧ sceneOrder (renderTypingIndicator typingData v) = sceneOrder v
  ∧ (∀ name div, sceneDivs v !! name = Some div →
       elements (renderTypingIndicator typingData v) !! div
       = elements v !! div).
Proof.
  intros Hi. pose proof Hi as (Hwf & Hdom & Hback).
  pose proof Hwf as (Hdivs & Hlt & _)%wf_unfold.
  destruct (renderTypingIndicator_frame typingData v)
    as (_ & _ & _ & _ & Hld & Hsd).
  assert (wf (renderTypingIndicator typingData v)) as Hwf'
    by by apply wf_renderTypingIndicator.
  destruct (typingNpc typingData) as [n|] eqn:Hn;
    destruct (getElementById (lit "typing-indicator") v) as [e|] eqn:He.
  - (* the indicator is there and is moved to the end *)
    pose proof He as He'. rewrite getElementById_indicator in He'.
    apply find_some_elem in He' as [Hin Hie].
    pose proof (indicator_no_scene v e Hi Hin Hie) as Hnone.
    assert (∀ h, elements (renderTypingIndicator typingData v) !! h
                 ≫= dataset_scene
                 = elements v !! h ≫= dataset_scene) as Hds.
    { intros h. rewrite (renderTypingIndicator_existing _ _ _ _ Hn He).
      destruct (scrollToBottom_frame
        (set_elements
           (alter (set_innerHTML (typingIndicatorHtml (stripAnnotation n))) e
              (alter (set_className (lit "typing-indicator")) e (elements v)))
           (set_scenes (filter (λ c, c ≠ e) (scenes v) ++ [e]) v)))
        as (_ & _ & _ & _ & _ & _ & -> & _).
      cbn [elements set_elements set_scenes].
      destruct (decide (h = e)) as [->|Hne].
      - rewrite !list_lookup_alter, !decide_True by done.
        by destruct (elements v !! e).
      - by rewrite !list_lookup_alter_ne. }
    assert (scenes (renderTypingIndicator typingData v)
            = filter (λ c, c ≠ e) (scenes v) ++ [e]) as Hsc.
    { rewrite (renderTypingIndicator_existing _ _ _ _ Hn He).
      by destruct (scrollToBottom_frame
        (set_elements
           (alter (set_innerHTML (typingIndicatorHtml (stripAnnotation n))) e
              (alter (set_className (lit "typing-indicator")) e (elements v)))
           (set_scenes (filter (λ c, c ≠ e) (scenes v) ++ [e]) v)))
        as (_ & _ & _ & _ & _ & _ & _ & ->). }
    split_and!.
    + split_and!; [done|by rewrite Hsd, Hld|].
      intros h name Hh Hd. rewrite Hsd. rewrite Hds in Hd.
      apply Hback; [|done]. rewrite Hsc in Hh.
      apply elem_of_app in Hh as [[_ ?]%list_elem_of_filter|Hh]; [done|].
      apply list_elem_of_singleton in Hh. congruence.
    + unfold sceneOrder. rewrite Hsc.
      rewrite (omap_ext_elem _ (λ h, elements v !! h ≫= dataset_scene))
        by (intros; apply Hds).
      rewrite omap_app, omap_filter_ne by done. simpl.
      by rewrite Hnone, app_nil_r.
    + intros name div Hd.
      rewrite (renderTypingIndicator_existing _ _ _ _ Hn He).
      destruct (scrollToBottom_frame
        (set_elements
           (alter (set_innerHTML (typingIndicatorHtml (stripAnnotation n))) e
              (alter (set_className (lit "typing-indicator")) e (elements v)))
           (set_scenes (filter (λ c, c ≠ e) (scenes v) ++ [e]) v)))
        as (_ & _ & _ & _ & _ & _ & -> & _).
      cbn [elements set_elements set_scenes].
      assert (div ≠ e) as Hne.
      { intros ->. rewrite (sceneDiv_not_indicator _ _ _ Hwf Hd) in Hie. done. }
      by rewrite !list_lookup_alter_ne.
  - (* a new indicator is appended *)
    pose proof (renderTypingIndicator_new _ _ _ Hwf Hn He) as Heq.
    destruct (scrollToBottom_frame
        (set_elements (elements v ++ [typingIndicator (stripAnnotation n)])
           (set_scenes (scenes v ++ [length (elements v)]) v)))
      as (_ & _ & _ & _ & _ & _ & Hel & Hsc).
    rewrite <- Heq in Hel, Hsc.
    cbn [elements scenes set_elements set_scenes] in Hel, Hsc.
    split_and!.
    + split_and!; [done|by rewrite Hsd, Hld|].
      intros h name Hh Hd. rewrite Hsd. rewrite Hsc in Hh. rewrite Hel in Hd.
      apply elem_of_app in Hh as [Hh|Hh%list_elem_of_singleton].
      * rewrite lookup_app_l in Hd by by apply Hlt. by apply Hback.
      * subst h. by rewrite lookup_snoc_length in Hd.
    + unfold sceneOrder. rewrite Hsc, Hel, omap_app. simpl.
      rewrite lookup_snoc_length. simpl. rewrite app_nil_r.
      apply omap_ext_elem. intros h Hh. by rewrite lookup_app_l by by apply Hlt.
    + intros name div Hd. rewrite Hel.
      destruct (Hdivs _ _ Hd) as (Hdin & _). by rewrite lookup_app_l by by apply Hlt.
  - (* the indicator is removed *)
    rewrite (renderTypingIndicator_idle _ _ Hn), He in *.
    pose proof He as He'. rewrite getElementById_indicator in He'.
    apply find_some_elem in He' as [Hin Hie].
    pose proof (indicator_no_scene v e Hi Hin Hie) as Hnone.
    unfold removeChild in *. cbn [elements scenes sceneDivs set_scenes] in *.
    split_and!.
    + split_and!; [done|done|].
      intros h name [_ Hh]%list_elem_of_filter Hd. by apply Hback.
    + unfold sceneOrder. cbn [elements scenes set_scenes].
      by apply omap_filter_ne.
    + done.
  - by rewrite (renderTypingIndicator_idle _ _ Hn), He.
Qed.

Lemma docInv_updateSettle srv v :
  docInv v → docInv (snd (updateSettle srv v)).
Proof.
  intros Hi. unfold updateSettle.
  destruct (api_state srv) as [state|]; [|done].
  destruct (api_scenes srv) as [sceneList|]; [|done].
  cbn [snd]. by apply renderTypingIndicator_scenes, docInv_loadScenes.
Qed.

Lemma docInv_update srv v : docInv v → docInv (snd (update srv v)).
Proof. intros Hi. rewrite update_split. by apply docInv_updateSettle. Qed.

Lemma docInv_init characters srv v : docInv v → docInv (init characters srv v).
Proof.
  intros Hi. unfold init. apply docInv_updateSettle. by destruct characters.
Qed.

Lemma docInv_poll srv v : docInv v → docInv (poll srv v).
Proof.
  intros Hi. destruct (api_hash srv) as [hash|] eqn:Hh.
  - destruct (decide (lastHash v = Some hash)) as [Hl|Hl].
    + by rewrite (poll_unchanged _ _ _ Hh Hl).
    + rewrite (poll_changed _ _ _ Hh Hl).
      pose proof (docInv_update srv (set_lastHash (Some hash) (afterHash v)) Hi).
      by destruct (fst (update srv (set_lastHash (Some hash) (afterHash v)))).
  - by rewrite (poll_failed _ _ Hh).
Qed.

Lemma docInv_initial disc : docInv (initial_viewer disc).
Proof.
  split_and!; [apply wf_initial| |by intros h name ?%elem_of_nil].
  intros name. cbn [sceneDivs loadedScenes initial_viewer].
  rewrite dom_empty_L, !elem_of_empty. tauto.
Qed.

(** The agreement holds all along a run of the script. *)
Lemma reachable_docInv v : reachable v → docInv v.
Proof.
  induction 1 as [disc|characters srv v _ IH|data v _ IH|b v _ IH
                 |srv v _ IH|srv v _ IH].
  - apply docInv_initial.
  - by apply docInv_init.
  - exact IH.
  - exact IH.
  - by apply docInv_update.
  - by apply docInv_poll.
Qed.

End CacheFacts.

(** ** What is on display *)

Lemma NoDup_omap_on {A B} (f : A → option B) (l : list A) :
  NoDup l →
  (∀ x y b, x ∈ l → y ∈ l → f x = Some b → f y = Some b → x = y) →
  NoDup (omap f l).
Proof.
  induction l as [|x l IH]; intros Hnd Hinj; [constructor|].
  apply NoDup_cons in Hnd as [Hx Hnd].
  change (omap f (x :: l))
    with (match f x with Some y => y :: omap f l | None => omap f l end).
  assert (NoDup (omap f l)) as IH'.
  { apply IH; [done|]. intros a b c Ha Hb. apply Hinj; by right. }
  destruct (f x) as [b|] eqn:E; [|done].
  apply NoDup_cons. split; [|done].
  intros (y & Hy & Hfy)%list_elem_of_omap.
  assert (x = y) as -> by (apply (Hinj x y b); [by left|by right|done|done]).
  done.
Qed.

Lemma find_unique {A} (f : A → bool) (l : list A) (e : A) :
  e ∈ l → f e = true → (∀ x, x ∈ l → f x = true → x = e) →
  find f l = Some e.
Proof.
  induction l as [|y l IH]; intros He Hfe Hu; [by apply elem_of_nil in He|].
  simpl. destruct (f y) eqn:E.
  - f_equal. apply Hu; [by left|done].
  - apply IH; [|done|].
    + apply elem_of_cons in He as [->|?]; [congruence|done].
    + intros x Hx. apply Hu. by right.
Qed.

Lemma sceneOrder_docInv v :
  docInv v →
  NoDup (sceneOrder v)
  ∧ (∀ n, n ∈ sceneOrder v ↔ n ∈ loadedScenes v ∧ ¬ inheritedName n).
Proof.
  intros (Hwf & Hdom & Hback).
  pose proof Hwf as (Hdivs & _ & Hnd & _)%wf_unfold. split.
  - apply NoDup_omap_on; [done|]. intros h1 h2 n Hh1 Hh2 H1 H2.
    pose proof (Hback _ _ Hh1 H1). pose proof (Hback _ _ Hh2 H2). congruence.
  - intros n. unfold sceneOrder. rewrite list_elem_of_omap, <- Hdom, elem_of_dom.
    split.
    + intros (h & Hh & Hf). exists h. by apply Hback.
    + intros [div Hd]. destruct (Hdivs _ _ Hd) as (Hin & Hds & _).
      exists div. split; [done|].
      destruct (elements v !! div) as [e|]; simpl in *; congruence.
Qed.

Section DisplayFacts.
Context `{Browser}.

Lemma sceneOrder_applyScenes_prefix results v :
  wf v → sceneOrder v `prefix_of` sceneOrder (snd (applyScenes results v)).
Proof.
  intros Hwf.
  enough (wf (snd (applyScenes results v))
          ∧ sceneOrder v `prefix_of` sceneOrder (snd (applyScenes results v)))
    as [_ ?] by done.
  apply (applyScenes_preserves
           (λ w, wf w ∧ sceneOrder v `prefix_of` sceneOrder w)); [|done].
  intros w sc w' [Hw Hp] Ha. split; [by apply (wf_applyScene w sc)|].
  rewrite (sceneOrder_applyScene _ _ _ Hw Ha).
  etrans; [exact Hp|]. by apply prefix_app_r.
Qed.

Lemma sceneOrder_loadScenes srv sceneList activeScene v :
  wf v →
  sceneOrder v `prefix_of` sceneOrder (loadScenes srv sceneList activeScene v)
  ∧ loadedScenes v ⊆ loadedScenes (loadScenes srv sceneList activeScene v)
  ∧ sceneDivs v ⊆ sceneDivs (loadScenes srv sceneList activeScene v).
Proof.
  intros Hwf.
  destruct (loadScenes_cases srv sceneList activeScene v)
    as [[_ ->]|[(_ & _ & ->)|(_ & results & _ & Hend)]]; [done|done|].
  set (v0 := emit _ v) in Hend.
  assert (wf v0) as Hwf0 by done.
  pose proof (sceneOrder_applyScenes_prefix results v0 Hwf0) as Hp.
  pose proof (loadedScenes_applyScenes_mono results v0) as Hl.
  destruct (scenes_applyScenes_prefix results v0 Hwf0) as [_ Hs].
  destruct Hend as [[_ ->]|[_ ->]]; [|done].
  destruct (scrollToBottom_frame (snd (applyScenes results v0)))
    as (_ & _ & _ & _ & Hld & Hsd & Hel & Hsc).
  unfold sceneOrder at 2. rewrite Hld, Hsd, Hel, Hsc.
  by fold (sceneOrder (snd (applyScenes results v0))).
Qed.

Lemma updateSettle_keeps_scenes srv v :
  docInv v →
  sceneOrder v `prefix_of` sceneOrder (snd (updateSettle srv v))
  ∧ loadedScenes v ⊆ loadedScenes (snd (updateSettle srv v))
  ∧ sceneDivs v ⊆ sceneDivs (snd (updateSettle srv v)).
Proof.
  intros Hi. unfold updateSettle.
  destruct (api_state srv) as [state|]; [|done].
  destruct (api_scenes srv) as [sceneList|]; [|done].
  cbv zeta. cbn [snd].
  set (td := match api_typing srv with Some t => t | None => None end).
  set (v1 := renderSidebar state _).
  set (a := if bool_decide _ then _ else _).
  assert (docInv v1) as Hi1 by done.
  pose proof (docInv_loadScenes srv sceneList a v1 Hi1) as Hi2.
  destruct (renderTypingIndicator_scenes td _ Hi2) as (_ & -> & _).
  destruct (renderTypingIndicator_frame td (loadScenes srv sceneList a v1))
    as (_ & _ & _ & _ & -> & ->).
  apply (sceneOrder_loadScenes srv sceneList a v1). by destruct Hi1.
Qed.

Lemma update_keeps_scenes srv v :
  docInv v →
  sceneOrder v `prefix_of` sceneOrder (snd (update srv v))
  ∧ loadedScenes v ⊆ loadedScenes (snd (update srv v))
  ∧ sceneDivs v ⊆ sceneDivs (snd (update srv v)).
Proof.
  intros Hi. exact (updateSettle_keeps_scenes srv (emit refreshRequests v) Hi).
Qed.

Lemma init_keeps_scenes characters srv v :
  docInv v →
  sceneOrder v `prefix_of` sceneOrder (init characters srv v)
  ∧ loadedScenes v ⊆ loadedScenes (init characters srv v)
  ∧ sceneDivs v ⊆ sceneDivs (init characters srv v).
Proof.
  intros Hi. unfold init.
  match goal with |- context [updateSettle srv ?w] =>
    assert (docInv w) as Hw by (by destruct characters);
    pose proof (updateSettle_keeps_scenes srv w Hw) as Hk end.
  by destruct characters.
Qed.

Lemma poll_keeps_scenes_inv srv v :
  docInv v →
  sceneOrder v `prefix_of` sceneOrder (poll srv v)
  ∧ loadedScenes v ⊆ loadedScenes (poll srv v)
  ∧ sceneDivs v ⊆ sceneDivs (poll srv v).
Proof.
  intros Hi. destruct (api_hash srv) as [hash|] eqn:Hh.
  - destruct (decide (lastHash v = Some hash)) as [Hl|Hl].
    + by rewrite (poll_unchanged _ _ _ Hh Hl).
    + rewrite (poll_changed _ _ _ Hh Hl).
      pose proof (update_keeps_scenes srv
                    (set_lastHash (Some hash) (afterHash v)) Hi) as Hk.
      by destruct (fst (update srv (set_lastHash (Some hash) (afterHash v)))).
  - by rewrite (poll_failed _ _ Hh).
Qed.

(** X5: in every viewer that the script can reach, starting with [init],
    no scene is displayed twice, and the scenes on display, which are the
    scenes that have a block in [sceneDivs], are the loaded scenes whose
    name is not [__proto__] or the name of a method that every object
    inherits.  A loaded scene with such a name is never on display. *)
Theorem displayed_scenes_are_loaded (v : viewer) :
  reachable v →
  NoDup (sceneOrder v)
  ∧ (∀ n, n ∈ sceneOrder v ↔ n ∈ loadedScenes v ∧ ¬ inheritedName n)
  ∧ (∀ n, n ∈ dom (sceneDivs v) ↔ n ∈ loadedScenes v ∧ ¬ inheritedName n).
Proof.
  intros Hi%reachable_docInv. destruct (sceneOrder_docInv v Hi) as [? ?].
  split_and!; [done|done|]. by destruct Hi as (_ & ? & _).
Qed.

(** X6: [init], a turn of [poll] and a refresh by [update] never remove or
    reorder a scene, on any viewer that the script can reach: the scenes
    displayed before are a prefix of those displayed after, the loaded set
    only grows, and every name keeps its block. *)
Theorem scenes_only_grow (srv : server) (v : viewer) :
  reachable v →
  (sceneOrder v `prefix_of` sceneOrder (poll srv v)
   ∧ loadedScenes v ⊆ loadedScenes (poll srv v)
   ∧ sceneDivs v ⊆ sceneDivs (poll srv v))
  ∧ (sceneOrder v `prefix_of` sceneOrder (snd (update srv v))
     ∧ loadedScenes v ⊆ loadedScenes (snd (update srv v))
     ∧ sceneDivs v ⊆ sceneDivs (snd (update srv v)))
  ∧ (∀ characters,
       sceneOrder v `prefix_of` sceneOrder (init characters srv v)
       ∧ loadedScenes v ⊆ loadedScenes (init characters srv v)
       ∧ sceneDivs v ⊆ sceneDivs (init characters srv v)).
Proof.
  intros Hi%reachable_docInv.
  split; [by apply poll_keeps_scenes_inv|].
  split; [by apply update_keeps_scenes|].
  intros characters. by apply init_keeps_scenes.
Qed.

(** X7: when the typing status names an NPC, on any viewer that the script
    can reach, [renderTypingIndicator] leaves exactly one typing indicator,
    as the last child of [$scenes], found by its id, with the class and the
    markup of the NPC's base name.  The other children keep their order,
    the element of every scene block is as it was, and so are the scenes on
    display, the handles and the loaded set. *)
Theorem typing_indicator_last (typingData : option TypingStatus)
    (v : viewer) (n : jsstring) :
  reachable v → typingNpc typingData = Some n →
  let v' := renderTypingIndicator typingData v in
  ∃ e, last (scenes v') = Some e
       ∧ getElementById (lit "typing-indicator") v' = Some e
       ∧ (∀ h, h ∈ scenes v' → isIndicator v' h = true → h = e)
       ∧ innerHTML <$> elements v' !! e
         = Some (typingIndicatorHtml (stripAnnotation n))
       ∧ className <$> elements v' !! e = Some (lit "typing-indicator")
       ∧ scenes v' = filter (λ c, c ≠ e) (scenes v) ++ [e]
       ∧ (∀ name div, sceneDivs v !! name = Some div →
            div ≠ e ∧ elements v' !! div = elements v !! div)
       ∧ sceneOrder v' = sceneOrder v
       ∧ sceneDivs v' = sceneDivs v
       ∧ loadedScenes v' = loadedScenes v.
Proof.
  intros Hi%reachable_docInv Hn v'. pose proof Hi as (Hwf & _).
  destruct (renderTypingIndicator_scenes typingData v Hi) as (Hi' & Hso & Hblk).
  destruct (renderTypingIndicator_frame typingData v)
    as (_ & _ & _ & _ & Hld & Hsd).
  pose proof Hi' as ((_ & _ & _ & Huniq)%wf_unfold & _).
  fold v' in Hi', Hso, Hld, Hsd, Huniq.
  assert (∃ e, scenes v' = filter (λ c, c ≠ e) (scenes v) ++ [e]
               ∧ innerHTML <$> elements v' !! e
                 = Some (typingIndicatorHtml (stripAnnotation n))
               ∧ className <$> elements v' !! e = Some (lit "typing-indicator")
               ∧ isIndicator v' e = true) as (e & Hsc & Hhtml & Hcls & Hie).
  { destruct (getElementById (lit "typing-indicator") v) as [e|] eqn:He.
    - exists e. unfold v'.
      rewrite (renderTypingIndicator_existing _ _ _ _ Hn He).
      destruct (scrollToBottom_frame
        (set_elements
           (alter (set_innerHTML (typingIndicatorHtml (stripAnnotation n))) e
              (alter (set_className (lit "typing-indicator")) e (elements v)))
           (set_scenes (filter (λ c, c ≠ e) (scenes v) ++ [e]) v)))
        as (_ & _ & _ & _ & _ & _ & Hel & Hsc).
      unfold isIndicator. rewrite Hel, Hsc.
      cbn [elements scenes set_elements set_scenes].
      rewrite getElementById_indicator in He.
      apply find_some_elem in He as [Hin Hie]. unfold isIndicator in Hie.
      rewrite !list_lookup_alter, !decide_True by done.
      destruct (elements v !! e) as [x|]; [|done]. by split_and!.
    - exists (length (elements v)). unfold v'.
      rewrite (renderTypingIndicator_new _ _ _ Hwf Hn He).
      destruct (scrollToBottom_frame
        (set_elements (elements v ++ [typingIndicator (stripAnnotation n)])
           (set_scenes (scenes v ++ [length (elements v)]) v)))
        as (_ & _ & _ & _ & _ & _ & Hel & Hsc).
      unfold isIndicator. rewrite Hel, Hsc.
      cbn [elements scenes set_elements set_scenes].
      rewrite lookup_snoc_length.
      rewrite (filter_ne_absent _ _ (fresh_handle v Hwf)). by split_and!. }
  exists e.
  assert (e ∈ scenes v') as Hin
    by (rewrite Hsc; apply elem_of_app; right; by left).
  assert (∀ h, h ∈ scenes v' → isIndicator v' h = true → h = e) as Hu
    by (intros h Hh Hih; by apply Huniq).
  split_and!; [|by apply find_unique|done|done|done|done| |done..].
  - rewrite Hsc. apply last_snoc.
  - intros name div Hd. split; [|by apply (Hblk name)].
    intros ->. rewrite <- Hsd in Hd.
    destruct Hi' as (Hwf' & _).
    by rewrite (sceneDiv_not_indicator _ _ _ Hwf' Hd) in Hie.
Qed.

End DisplayFacts.

(** ** The events of one turn *)

Section TurnFacts.
Context `{Browser}.

Lemma scrollToBottom_events v :
  ∃ tail, trace (scrollToBottom v) = trace v ++ tail
          ∧ Forall (λ e, e = ScrollToBottom) tail.
Proof.
  unfold scrollToBottom. destruct (userScrolledUp v) eqn:E.
  - exists []. by rewrite app_nil_r.
  - exists [ScrollToBottom]. split; [done|]. by constructor.
Qed.

Lemma loadScenes_events srv sceneList activeScene v :
  ∃ tail, trace (loadScenes srv sceneList activeScene v) = trace v ++ tail
          ∧ Forall (loadEvent srv sceneList activeScene v) tail.
Proof.
  destruct (loadScenes_cases srv sceneList activeScene v)
    as [[_ ->]|Hcases].
  { exists []. by rewrite app_nil_r. }
  set (tf := toFetch (loadedScenes v) sceneList activeScene) in *.
  assert (Forall (loadEvent srv sceneList activeScene v)
            (map (λ name, Fetch (sceneUrl name)) tf)) as Hreq.
  { apply Forall_map, Forall_forall. intros n Hn. by exists n. }
  assert (∀ w tail,
            trace w = trace v ++ map (λ name, Fetch (sceneUrl name)) tf →
            Forall (λ e, e = ScrollToBottom ∨ e = ConsoleError) tail →
            ∃ tail', trace w ++ tail = trace v ++ tail'
                     ∧ Forall (loadEvent srv sceneList activeScene v) tail')
    as Hend.
  { intros w tail -> Ht.
    exists (map (λ name, Fetch (sceneUrl name)) tf ++ tail).
    split; [by rewrite app_assoc|]. apply Forall_app. split; [done|].
    eapply Forall_impl; [exact Ht|]. by intros e [-> | ->]. }
  destruct Hcases as [(_ & _ & ->)|(_ & results & _ & [[_ ->]|[_ ->]])].
  - apply (Hend (emit (map (λ name, Fetch (sceneUrl name)) tf) v)
             [ConsoleError]); [done|].
    constructor; [by right|done].
  - destruct (scrollToBottom_events
                (snd (applyScenes results
                        (emit (map (λ name, Fetch (sceneUrl name)) tf) v))))
      as (tail & -> & Htail).
    apply Hend; [by rewrite applyScenes_trace|].
    eapply Forall_impl; [exact Htail|]. intros e ->. by left.
  - apply (Hend (snd (applyScenes results
                        (emit (map (λ name, Fetch (sceneUrl name)) tf) v)))
             [ConsoleError]); [by rewrite applyScenes_trace|].
    constructor; [by right|done].
Qed.

Lemma renderTypingIndicator_events typingData v :
  ∃ tail, trace (renderTypingIndicator typingData v) = trace v ++ tail
          ∧ Forall (λ e, e = ScrollToBottom) tail.
Proof.
  unfold renderTypingIndicator.
  destruct (typingNpc typingData) as [n|];
    destruct (getElementById (lit "typing-indicator") v) as [e|];
    try (exists []; by rewrite app_nil_r);
    unfold scrollToBottom; simpl; destruct (userScrolledUp v) eqn:E;
    try (exists []; by rewrite app_nil_r);
    (exists [ScrollToBottom]; split; [done|by constructor]).
Qed.

Lemma updateSettle_fulfilled srv v state sceneList :
  api_state srv = Some state → api_scenes srv = Some sceneList →
  updateSettle srv v
  = (Fulfilled,
     renderTypingIndicator (typingPayload srv)
       (loadScenes srv sceneList (activeSceneOf srv)
          (renderSidebar state
             (set_isTyping
                (bool_decide (is_Some (typingNpc (typingPayload srv)))) v)))).
Proof. unfold updateSettle. by intros -> ->. Qed.

Lemma updateSettle_rejected srv v :
  api_state srv = None ∨ api_scenes srv = None →
  updateSettle srv v = (Rejected, v).
Proof.
  unfold updateSettle. intros [-> | ->]; [done|]. by destruct (api_state srv).
Qed.

Lemma updateSettle_events srv v :
  ∃ tail, trace (snd (updateSettle srv v)) = trace v ++ tail
          ∧ Forall (refreshEvent srv v) tail.
Proof.
  destruct (api_state srv) as [state|] eqn:Es;
    [destruct (api_scenes srv) as [sceneList|] eqn:El|];
    [|rewrite updateSettle_rejected by auto; exists [];
      by rewrite app_nil_r..].
  rewrite (updateSettle_fulfilled _ _ _ _ Es El). cbn [snd].
  set (v1 := renderSidebar state _).
  destruct (renderTypingIndicator_events (typingPayload srv)
              (loadScenes srv sceneList (activeSceneOf srv) v1))
    as (t2 & -> & Ht2).
  destruct (loadScenes_events srv sceneList (activeSceneOf srv) v1)
    as (t1 & -> & Ht1).
  exists (RenderSidebar state :: t1 ++ t2). split.
  - cbn [v1 trace renderSidebar emit set_sidebar set_isTyping].
    by rewrite <- !app_assoc.
  - constructor; [done|]. apply Forall_app. split.
    + eapply Forall_impl; [exact Ht1|]. intros e He.
      destruct e; try done; by exists sceneList.
    + eapply Forall_impl; [exact Ht2|]. intros e ->.
      by exists sceneList.
Qed.

Lemma update_events srv v :
  ∃ tail, trace (snd (update srv v)) = trace v ++ refreshRequests ++ tail
          ∧ Forall (refreshEvent srv v) tail.
Proof.
  destruct (updateSettle_events srv (emit refreshRequests v))
    as (tail & Htr & Ht).
  exists tail. split; [|exact Ht].
  rewrite update_split. change (emit _ v) with (emit refreshRequests v).
  rewrite Htr. cbn [trace emit]. by rewrite <- app_assoc.
Qed.

Lemma update_isTyping srv v :
  isTyping (snd (update srv v))
  = match api_state srv, api_scenes srv with
    | Some _, Some _ => bool_decide (is_Some (typingNpc (typingPayload srv)))
    | _, _ => isTyping v
    end.
Proof.
  destruct (api_state srv) as [state|] eqn:Es;
    [destruct (api_scenes srv) as [sceneList|] eqn:El|];
    [|by rewrite update_rejected by auto..].
  rewrite (update_fulfilled _ _ _ _ Es El). cbv zeta. cbn [snd].
  match goal with |- context [renderTypingIndicator ?t ?w] =>
    destruct (renderTypingIndicator_frame t w) as (_ & -> & _) end.
  match goal with |- context [loadScenes ?s ?l ?a ?w] =>
    destruct (loadScenes_frame s l a w) as (_ & -> & _) end.
  done.
Qed.

Lemma poll_isTyping srv v :
  isTyping (poll srv v)
  = match api_hash srv, api_state srv, api_scenes srv with
    | Some hash, Some _, Some _ =>
        if decide (lastHash v = Some hash) then isTyping v
        else bool_decide (is_Some (typingNpc (typingPayload srv)))
    | _, _, _ => isTyping v
    end.
Proof.
  destruct (api_hash srv) as [hash|] eqn:Hh.
  - destruct (decide (lastHash v = Some hash)) as [Hl|Hl].
    + rewrite (poll_unchanged _ _ _ Hh Hl).
      by destruct (api_state srv), (api_scenes srv).
    + rewrite (poll_changed _ _ _ Hh Hl).
      pose proof (update_isTyping srv
                    (set_lastHash (Some hash) (afterHash v))) as Hu.
      destruct (fst (update srv (set_lastHash (Some hash) (afterHash v))));
        cbn [isTyping schedule markDisconnected emit set_disconnected];
        rewrite Hu; by destruct (api_state srv), (api_scenes srv).
  - rewrite (poll_failed _ _ Hh). by destruct (api_state srv), (api_scenes srv).
Qed.

(** The events of a turn: the fingerprint request, then the class of the
    live indicator and what the refresh does, then the timer. *)
Lemma poll_events srv v :
  trace (poll srv v) = trace v ++ turnEvents srv v
  ∧ ∃ mid,
      turnEvents srv v
      = Fetch (lit "/api/hash") :: mid
        ++ [SetTimeout (pollInterval (poll srv v))]
      ∧ Forall (λ e, e ∈ RemoveDisconnected :: AddDisconnected
                         :: refreshRequests
                     ∨ refreshEvent srv v e) mid.
Proof.
  assert (∃ mid,
      trace (poll srv v)
      = trace v ++ Fetch (lit "/api/hash") :: mid
        ++ [SetTimeout (pollInterval (poll srv v))]
      ∧ Forall (λ e, e ∈ RemoveDisconnected :: AddDisconnected
                         :: refreshRequests
                     ∨ refreshEvent srv v e) mid) as (mid & Htr & Hmid).
  { destruct (api_hash srv) as [hash|] eqn:Hh.
    - destruct (decide (lastHash v = Some hash)) as [Hl|Hl].
      + destruct (poll_unchanged_trace srv v hash Hh Hl) as (_ & ->).
        exists [RemoveDisconnected].
        rewrite (poll_unchanged _ _ _ Hh Hl). split; [done|].
        constructor; [|done]. left. by left.
      + rewrite (poll_changed _ _ _ Hh Hl).
        set (v0 := set_lastHash (Some hash) (afterHash v)).
        destruct (update_events srv v0) as (tail & Htr & Htail).
        assert (Forall (λ e, e ∈ RemoveDisconnected :: AddDisconnected
                                 :: refreshRequests
                             ∨ refreshEvent srv v e)
                  (RemoveDisconnected :: refreshRequests ++ tail)) as Hall.
        { constructor; [left; by left|]. apply Forall_app. split.
          - apply Forall_forall. intros e He. left. by do 2 right.
          - eapply Forall_impl; [exact Htail|]. intros e He. by right. }
        destruct (fst (update srv v0)).
        * exists (RemoveDisconnected :: refreshRequests ++ tail).
          split; [|done]. unfold schedule. cbn [trace emit]. rewrite Htr.
          cbn [v0 trace afterHash set_lastHash emit set_disconnected].
          by rewrite <- !app_assoc.
        * exists ((RemoveDisconnected :: refreshRequests ++ tail)
                  ++ [AddDisconnected]).
          split.
          -- unfold schedule, markDisconnected.
             cbn [trace emit set_disconnected]. rewrite Htr.
             cbn [v0 trace afterHash set_lastHash emit set_disconnected].
             by rewrite <- !app_assoc.
          -- apply Forall_app. split; [done|]. constructor; [|done].
             left. right. by left.
    - destruct (poll_failed_trace srv v Hh) as (_ & _ & ->).
      exists [AddDisconnected]. rewrite (poll_failed _ _ Hh). split; [done|].
      constructor; [|done]. left. right. by left. }
  unfold turnEvents. rewrite Htr, drop_app_length. split; [done|].
  by exists mid.
Qed.

Lemma refreshEvent_not_timer srv v e :
  e ∈ RemoveDisconnected :: AddDisconnected :: refreshRequests
  ∨ refreshEvent srv v e →
  isTimer e = false.
Proof.
  intros [He|He].
  - repeat (apply elem_of_cons in He as [->|He]; [done|]).
    by apply elem_of_nil in He.
  - destruct e; try done. by destruct He as (? & _ & ?).
Qed.

(** X8: every turn of [poll] schedules the next turn exactly once, as its
    last action, whatever failed.  The delay is 1000 ms when the typing flag
    is set at the end of the turn and 3000 ms otherwise; the flag is the
    typing status of the refresh when the fingerprint changed and both the
    state and the scene list arrived, and the flag of before in every other
    case (also when the refresh was rejected). *)
Theorem poll_timer (srv : server) (v : viewer) :
  trace (poll srv v) = trace v ++ turnEvents srv v
  ∧ last (turnEvents srv v) = Some (SetTimeout (pollInterval (poll srv v)))
  ∧ filter (λ e, isTimer e = true) (turnEvents srv v)
    = [SetTimeout (pollInterval (poll srv v))]
  ∧ pollInterval (poll srv v)
    = (if isTyping (poll srv v) then 1000 else 3000)
  ∧ isTyping (poll srv v)
    = match api_hash srv, api_state srv, api_scenes srv with
      | Some hash, Some _, Some _ =>
          if decide (lastHash v = Some hash) then isTyping v
          else bool_decide (is_Some (typingNpc (typingPayload srv)))
      | _, _, _ => isTyping v
      end.
Proof.
  destruct (poll_events srv v) as (Htr & mid & Hev & Hmid).
  split_and!; [done| | |done|apply poll_isTyping].
  - rewrite Hev.
    change (Fetch (lit "/api/hash") :: mid ++ [SetTimeout (pollInterval (poll srv v))])
      with ((Fetch (lit "/api/hash") :: mid)
            ++ [SetTimeout (pollInterval (poll srv v))]).
    apply last_snoc.
  - rewrite Hev, filter_cons, decide_False by done.
    rewrite filter_app.
    replace (filter (λ e, isTimer e = true) mid) with (@nil event); [done|].
    symmetry. clear Hev. induction Hmid as [|e mid He _ IH]; [done|].
    rewrite filter_cons, decide_False; [done|].
    rewrite (refreshEvent_not_timer srv v e He). done.
Qed.

(** X10: the requests of a turn of [poll] go to the fingerprint, the
    state, the scene list, the typing status, or to a scene; a scene is
    requested only if the scene list names it and it is not loaded, or if it
    is loaded and is the scene of a typing status that names an NPC. *)
Theorem turn_requests (srv : server) (v : viewer) :
  Forall (λ url,
            url ∈ [lit "/api/hash"; lit "/api/state"; lit "/api/scenes";
                   lit "/api/typing"]
            ∨ ∃ sceneList n,
                api_scenes srv = Some sceneList ∧ url = sceneUrl n
                ∧ ((n ∈ sceneList ∧ n ∉ loadedScenes v)
                   ∨ (n ∈ loadedScenes v ∧ n ≠ []
                      ∧ is_Some (typingNpc (typingPayload srv))
                      ∧ typingPayload srv ≫= scene = Some n)))
         (fetches (turnEvents srv v)).
Proof.
  destruct (poll_events srv v) as (_ & mid & -> & Hmid).
  apply Forall_forall. intros url Hurl. unfold fetches in Hurl.
  apply list_elem_of_omap in Hurl as (e & He & Hf).
  destruct e; try done. injection Hf as ->.
  apply elem_of_cons in He as [[= ->]|He]; [left; by left|].
  apply elem_of_app in He as [He|He];
    [|by apply list_elem_of_singleton in He].
  rewrite Forall_forall in Hmid. destruct (Hmid _ He) as [Hr|Hr].
  - left. right.
    repeat (apply elem_of_cons in Hr as [Hr|Hr]; [done|]).
    unfold refreshRequests in Hr.
    repeat (apply elem_of_cons in Hr as [[= ->]|Hr];
            [repeat ((by left) || right)|]).
    by apply elem_of_nil in Hr.
  - right. destruct Hr as (sl & Hsl & n & -> & Hn).
    exists sl, n. split_and!; [done..|].
    apply elem_of_toFetch in Hn as [?|(Ha & Hne & Hl)]; [by left|].
    right. unfold activeSceneOf in Ha. case_bool_decide; [|done].
    by split_and!.
Qed.

End TurnFacts.

(** ** The cache after a load *)

Section LoadFacts.
Context `{Browser}.

(** Only a scene named [innerHTML] can throw. *)
Lemma applyScenes_fulfilled results v :
  (lit "innerHTML" ∉ map scene_name results) →
  fst (applyScenes results v) = Fulfilled.
Proof.
  revert v. induction results as [|sc results IH]; intros v Hn; [done|].
  simpl in *. apply not_elem_of_cons in Hn as [Hne Hn].
  destruct (applyScene v sc) as [v'|] eqn:Ha; [by apply IH|].
  apply applyScene_None in Ha as (Hname & _). congruence.
Qed.


Lemma loadScenes_succeeded srv sceneList activeScene v results :
  mapM (λ n, api_scene srv (sceneUrl n))
       (toFetch (loadedScenes v) sceneList activeScene) = Some results →
  fst (applyScenes results
         (emit (map (λ name, Fetch (sceneUrl name))
                  (toFetch (loadedScenes v) sceneList activeScene)) v))
  = Fulfilled →
  loadScenes srv sceneList activeScene v
  = scrollToBottom
      (snd (applyScenes results
              (emit (map (λ name, Fetch (sceneUrl name))
                       (toFetch (loadedScenes v) sceneList activeScene)) v)))
  ∨ (toFetch (loadedScenes v) sceneList activeScene = [] ∧ results = []
     ∧ loadScenes srv sceneList activeScene v = v).
Proof.
  intros Hm Hf. unfold loadScenes. case_bool_decide as Hlen.
  - right. apply nil_length_inv in Hlen. rewrite Hlen in Hm.
    injection Hm as <-. by rewrite Hlen.
  - left. rewrite Hm.
    by destruct (applyScenes results _) as [[|] w].
Qed.

Lemma loadedScenes_loadScenes srv sceneList activeScene v results :
  mapM (λ n, api_scene srv (sceneUrl n))
       (toFetch (loadedScenes v) sceneList activeScene) = Some results →
  map scene_name results = toFetch (loadedScenes v) sceneList activeScene →
  (lit "innerHTML" ∉ toFetch (loadedScenes v) sceneList activeScene) →
  loadedScenes (loadScenes srv sceneList activeScene v)
  = list_to_set sceneList ∪ loadedScenes v.
Proof.
  intros Hm Hecho Hsafe.
  assert (list_to_set (toFetch (loadedScenes v) sceneList activeScene)
          ∪ loadedScenes v
          = (list_to_set sceneList ∪ loadedScenes v : gset jsstring)) as Hset.
  { apply set_eq. intros n.
    rewrite !elem_of_union, !elem_of_list_to_set, elem_of_toFetch.
    destruct (decide (n ∈ loadedScenes v)) as [Hl|Hl]; [tauto|].
    split; (intros [Hn|Hn]; [|tauto]); left; [tauto|]. by left. }
  rewrite <- Hecho in Hsafe.
  pose proof (applyScenes_fulfilled results
                (emit (map (λ name, Fetch (sceneUrl name))
                         (toFetch (loadedScenes v) sceneList activeScene)) v)
                Hsafe) as Hf.
  destruct (loadScenes_succeeded _ _ _ _ _ Hm Hf) as [->|(Hnil & _ & ->)].
  - destruct (scrollToBottom_frame
                (snd (applyScenes results
                   (emit (map (λ name, Fetch (sceneUrl name))
                            (toFetch (loadedScenes v) sceneList activeScene))
                      v)))) as (_ & _ & _ & _ & -> & _).
    by rewrite (loadedScenes_applyScenes _ _ Hf), Hecho.
  - rewrite Hnil in Hset. rewrite <- Hset. simpl.
    by rewrite union_empty_l_L.
Qed.

Lemma toFetch_all_loaded loaded sceneList activeScene n :
  list_to_set sceneList ⊆ loaded →
  n ∈ toFetch loaded sceneList activeScene → activeScene = Some n.
Proof.
  intros Hsub [[Hn Hl]|(Ha & _)]%elem_of_toFetch; [|done].
  destruct Hl. apply Hsub. by apply elem_of_list_to_set.
Qed.

(** X11: after a load whose requests all succeed, whose replies carry the
    names asked for and which requests no scene named [innerHTML] (the one
    name at which applying a scene can throw), the loaded set is the old one
    plus the whole scene list; a later load of the same list requests at
    most the active scene, and with no active scene it requests nothing and
    changes nothing. *)
Theorem loadScenes_settles (srv : server) (sceneList : list jsstring)
    (activeScene : option jsstring) (v : viewer) (results : list SceneData) :
  mapM (λ n, api_scene srv (sceneUrl n))
       (toFetch (loadedScenes v) sceneList activeScene) = Some results →
  map scene_name results = toFetch (loadedScenes v) sceneList activeScene →
  (lit "innerHTML" ∉ toFetch (loadedScenes v) sceneList activeScene) →
  let v' := loadScenes srv sceneList activeScene v in
  loadedScenes v' = list_to_set sceneList ∪ loadedScenes v
  ∧ (∀ n a, n ∈ toFetch (loadedScenes v') sceneList a → a = Some n)
  ∧ (∀ srv', loadScenes srv' sceneList None v' = v').
Proof.
  intros Hm Hecho Hsafe v'.
  pose proof (loadedScenes_loadScenes _ _ _ _ _ Hm Hecho Hsafe) as Hl.
  fold v' in Hl.
  assert (list_to_set sceneList ⊆ loadedScenes v') as Hsub
    by (rewrite Hl; apply union_subseteq_l).
  split_and!; [done| |].
  - intros n a. by apply toFetch_all_loaded.
  - intros srv'. unfold loadScenes.
    destruct (toFetch (loadedScenes v') sceneList None) as [|n l] eqn:E;
      [done|].
    assert (n ∈ toFetch (loadedScenes v') sceneList None) as Hn
      by (rewrite E; by left).
    by apply (toFetch_all_loaded _ _ _ _ Hsub) in Hn.
Qed.

Lemma charDescriptions_loadScenes srv sceneList activeScene v :
  charDescriptions (loadScenes srv sceneList activeScene v)
  = charDescriptions v.
Proof.
  destruct (loadScenes_cases srv sceneList activeScene v)
    as [[_ ->]|[(_ & _ & ->)|(_ & results & _ & [[_ ->]|[_ ->]])]];
    [done|done| |].
  - unfold scrollToBottom.
    destruct (userScrolledUp _); cbn [charDescriptions emit];
      by destruct (applyScenes_frame results
                     (emit (map (λ name, Fetch (sceneUrl name))
                              (toFetch (loadedScenes v) sceneList
                                 activeScene)) v))
        as (_ & _ & _ & _ & ->).
  - cbn [charDescriptions emit].
    by destruct (applyScenes_frame results
                   (emit (map (λ name, Fetch (sceneUrl name))
                            (toFetch (loadedScenes v) sceneList activeScene))
                      v)) as (_ & _ & _ & _ & ->).
Qed.





End LoadFacts.

Lemma loadScenes_settles_witness :
  loadedScenes (@loadScenes exampleBrowser server_typing [lit "s1"] None
                  (initial_viewer false))
  = list_to_set [lit "s1"] ∪ loadedScenes (initial_viewer false).
Proof.
  refine (proj1 (@loadScenes_settles exampleBrowser server_typing [lit "s1"]
                   None (initial_viewer false)
                   [{| scene_name := lit "s1";
                       scene_content := example_scene |}] _ _ _)).
  - vm_compute. reflexivity.
  - vm_compute. reflexivity.
  - assert (toFetch (loadedScenes (initial_viewer false)) [lit "s1"] None
            = [lit "s1"]) as -> by (vm_compute; reflexivity).
    intros Hin%list_elem_of_singleton. discriminate.
Defined.


(** ** The start of the script *)

Section InitFacts.
Context `{Browser}.

Lemma updateSettle_frame srv v :
  lastHash (snd (updateSettle srv v)) = lastHash v
  ∧ disconnected (snd (updateSettle srv v)) = disconnected v
  ∧ charDescriptions (snd (updateSettle srv v)) = charDescriptions v.
Proof.
  destruct (api_state srv) as [state|] eqn:Es;
    [destruct (api_scenes srv) as [sceneList|] eqn:El|];
    [|by rewrite updateSettle_rejected by auto..].
  rewrite (updateSettle_fulfilled _ _ _ _ Es El). cbn [snd].
  set (v1 := renderSidebar state _).
  assert (charDescriptions
            (renderTypingIndicator (typingPayload srv)
               (loadScenes srv sceneList (activeSceneOf srv) v1))
          = charDescriptions v) as Hcd.
  { transitivity (charDescriptions
                    (loadScenes srv sceneList (activeSceneOf srv) v1));
      [|by rewrite charDescriptions_loadScenes].
    unfold renderTypingIndicator.
    destruct (typingNpc (typingPayload srv)) as [n|];
      destruct (getElementById (lit "typing-indicator") _) as [e|];
      try done; unfold scrollToBottom; simpl;
      by destruct (userScrolledUp _). }
  destruct (renderTypingIndicator_frame (typingPayload srv)
              (loadScenes srv sceneList (activeSceneOf srv) v1))
    as (-> & _ & -> & _).
  destruct (loadScenes_frame srv sceneList (activeSceneOf srv) v1)
    as (-> & _ & -> & _).
  done.
Qed.

Lemma init_trace characters srv v :
  ∃ tail,
    trace (init characters srv v)
    = trace v ++ Fetch (lit "/api/characters") :: refreshRequests
      ++ SetTimeout POLL_INTERVAL_NORMAL :: tail
    ∧ Forall (refreshEvent srv v) tail.
Proof.
  unfold init.
  match goal with |- context [updateSettle srv ?w] =>
    destruct (updateSettle_events srv w) as (tail & -> & Ht) end.
  exists tail. split.
  - destruct characters; cbn [trace emit set_charDescriptions];
      by rewrite <- !app_assoc.
  - by destruct characters.
Qed.

Lemma init_frame characters srv v :
  lastHash (init characters srv v) = lastHash v
  ∧ disconnected (init characters srv v) = disconnected v
  ∧ charDescriptions (init characters srv v)
    = default (charDescriptions v) characters.
Proof.
  unfold init.
  match goal with |- context [updateSettle srv ?w] =>
    destruct (updateSettle_frame srv w) as (-> & -> & ->) end.
  by destruct characters.
Qed.

(** X13: [init] requests the descriptions, then sends the three requests
    of a refresh and schedules the first [poll] after 3000 ms, whatever the
    typing status turns out to be; what follows is the work of the refresh
    only: the sidebar, scene requests, scrolling and logged errors, and no
    second timer.  [init] leaves the stored fingerprint and the class of
    the live indicator alone (a failure during [init] is not shown), stores
    the descriptions if they arrived, and keeps the cache and the document
    in agreement: the scenes with a block are the loaded ones whose name is
    not inherited. *)
Theorem init_start (characters : option (gmap jsstring jsstring))
    (srv : server) (v : viewer) :
  let v' := init characters srv v in
  (∃ tail,
     trace v'
     = trace v ++ Fetch (lit "/api/characters") :: refreshRequests
       ++ SetTimeout 3000 :: tail
     ∧ Forall (refreshEvent srv v) tail)
  ∧ lastHash v' = lastHash v
  ∧ disconnected v' = disconnected v
  ∧ charDescriptions v' = default (charDescriptions v) characters
  ∧ (docInv v → docInv v').
Proof.
  intros v'. split_and!.
  - apply init_trace.
  - apply init_frame.
  - apply init_frame.
  - apply init_frame.
  - by apply docInv_init.
Qed.

(** X14: [init] stores no fingerprint, so the first turn of [poll] whose
    fingerprint request succeeds stores the fingerprint and refreshes again,
    also when nothing changed since the refresh of [init]. *)
Theorem first_poll_refreshes (characters : option (gmap jsstring jsstring))
    (srv srv' : server) (disc : bool) (hash : jsstring) :
  api_hash srv' = Some hash →
  let v := init characters srv (initial_viewer disc) in
  lastHash (poll srv' v) = Some hash
  ∧ ∃ tail,
      turnEvents srv' v
      = [Fetch (lit "/api/hash"); RemoveDisconnected] ++ refreshRequests
        ++ tail.
Proof.
  intros Hh v.
  assert (lastHash v ≠ Some hash) as Hl.
  { unfold v. by destruct (init_frame characters srv (initial_viewer disc))
      as (-> & _). }
  destruct (poll_changed_trace srv' v hash Hh Hl) as (Hlast & tail & Htr).
  split; [done|]. unfold turnEvents. rewrite Htr, drop_app_length.
  by exists (tail ++ [SetTimeout (pollInterval (poll srv' v))]).
Qed.

End InitFacts.

Lemma first_poll_refreshes_witness :
  lastHash (@poll exampleBrowser server_typing
              (@init exampleBrowser None server_typing (initial_viewer false)))
  = Some (lit "h1").
Proof.
  exact (proj1 (@first_poll_refreshes exampleBrowser None server_typing
                  server_typing false (lit "h1") eq_refl)).
Defined.

(** ** The sidebar *)

Section SidebarFacts.
Context `{Browser}.

Lemma listIcon_running proto role : listIcon proto false role = [].
Proof. by destruct role. Qed.

Lemma renderSidebarDoc_hideRoles proto charDescriptions state :
  game_over state = false →
  renderSidebarDoc proto charDescriptions (hideRoles state)
  = renderSidebarDoc proto charDescriptions state.
Proof.
  intros Hg. unfold renderSidebarDoc, hideRoles.
  cbn [day phase_jp player alive deaths private_info game_over].
  rewrite !length_map, !map_map, Hg. f_equal.
  - f_equal. f_equal. apply map_ext. intros p. unfold aliveItemHtml.
    cbn [alive_name alive_role]. by rewrite !listIcon_running.
  - case_bool_decide; [|done]. f_equal. f_equal. apply map_ext.
    intros d. unfold deathItemHtml.
    cbn [death_name death_day death_cause death_alignment death_role].
    by rewrite !listIcon_running.
Qed.

(** X15: while the game is not over the sidebar does not depend on the
    roles of the players in the alive and dead lists: two states that differ
    only in those roles are rendered alike, whatever [charDescriptions]
    holds and whatever the script has stored in [Object.prototype]. *)
Theorem sidebar_hides_roles (proto : option jsstring)
    (charDescriptions : gmap jsstring jsstring) (s1 s2 : GameState) :
  game_over s1 = false → hideRoles s1 = hideRoles s2 →
  renderSidebarDoc proto charDescriptions s1
  = renderSidebarDoc proto charDescriptions s2.
Proof.
  intros Hg Heq.
  assert (game_over s2 = false) as Hg2.
  { change (game_over (hideRoles s2) = false). by rewrite <- Heq. }
  rewrite <- (renderSidebarDoc_hideRoles _ _ s1 Hg).
  rewrite <- (renderSidebarDoc_hideRoles _ _ s2 Hg2). by rewrite Heq.
Qed.

End SidebarFacts.

(** ** Instances *)

Lemma reachable_viewer_typing : @reachable exampleBrowser viewer_typing.
Proof.
  exact (@reach_poll exampleBrowser server_typing _
           (@reach_initial exampleBrowser false)).
Qed.

Lemma reachable_viewer_started : @reachable exampleBrowser viewer_started.
Proof.
  exact (@reach_init exampleBrowser None server_inherited _
           (@reach_initial exampleBrowser false)).
Qed.

Lemma displayed_scenes_are_loaded_witness :
  NoDup (sceneOrder viewer_started)
  ∧ (lit "s1" ∈ sceneOrder viewer_started
     ↔ lit "s1" ∈ loadedScenes viewer_started ∧ ¬ inheritedName (lit "s1")).
Proof.
  pose proof (@displayed_scenes_are_loaded exampleBrowser viewer_started
                reachable_viewer_started) as (Hnd & Hiff & _).
  split; [exact Hnd|exact (Hiff (lit "s1"))].
Defined.

(** After [init] the scene [constructor] is loaded and not on display. *)
Example constructor_not_displayed :
  sceneOrder viewer_started = [lit "s1"]
  ∧ lit "constructor" ∈ loadedScenes viewer_started
  ∧ sceneDivs viewer_started !! lit "constructor" = None.
Proof.
  split; [vm_compute; reflexivity|]. split; [|vm_compute; reflexivity].
  compute_done.
Qed.

(** After the scene [__proto__], the scene [innerHTML] throws: both
    requests succeed and the replies carry the names asked for, and yet the
    error is logged, the scene [innerHTML] is not marked as loaded and
    nothing is displayed. *)
Example innerHTML_after_prototype_throws :
  let names := [lit "__proto__"; lit "innerHTML"] in
  let results :=
    [{| scene_name := lit "__proto__"; scene_content := example_scene |};
     {| scene_name := lit "innerHTML"; scene_content := example_scene |}] in
  let v := @loadScenes exampleBrowser server_prototype names None
             (initial_viewer false) in
  toFetch (loadedScenes (initial_viewer false)) names None = names
  ∧ mapM (λ n, api_scene server_prototype (@sceneUrl exampleBrowser n)) names
    = Some results
  ∧ last (trace v) = Some ConsoleError
  ∧ (lit "innerHTML" ∉ loadedScenes v)
  ∧ lit "__proto__" ∈ loadedScenes v
  ∧ scenes v = [].
Proof.
  split; [vm_compute; reflexivity|]. split; [vm_compute; reflexivity|].
  split; [vm_compute; reflexivity|].
  split; [compute_done|]. split; [compute_done|vm_compute; reflexivity].
Qed.

Lemma scenes_only_grow_witness :
  sceneOrder viewer_started
    `prefix_of` sceneOrder (@poll exampleBrowser server_idle viewer_started).
Proof.
  exact (proj1 (proj1 (@scenes_only_grow exampleBrowser server_idle
                         viewer_started reachable_viewer_started))).
Defined.

Lemma typing_indicator_last_witness :
  ∃ e, last (scenes (@renderTypingIndicator exampleBrowser
                       (typingPayload server_typing) viewer_typing))
       = Some e.
Proof.
  destruct (@typing_indicator_last exampleBrowser
              (typingPayload server_typing) viewer_typing (lit "Bob")
              reachable_viewer_typing eq_refl) as (e & He & _).
  exists e. exact He.
Defined.

Lemma sidebar_hides_roles_witness :
  @renderSidebarDoc exampleBrowser None ∅ example_state
  = @renderSidebarDoc exampleBrowser None ∅ example_state_roles.
Proof.
  exact (@sidebar_hides_roles exampleBrowser None ∅ example_state
           example_state_roles eq_refl eq_refl).
Defined.

(** Once the game is over the icon of a role is in the list. *)
Example sidebar_shows_roles_when_over :
  aliveList (@renderSidebarDoc exampleBrowser None ∅ example_state_over)
  ≠ aliveList (@renderSidebarDoc exampleBrowser None ∅
                 (hideRoles example_state_over)).
Proof. vm_compute. discriminate. Qed.
